(** * Mava: the N-step transition adder and the sebulba learner loop

    A shallow embedding of
    - [mava/adders/reverb/transition.py], class [ParallelNStepTransitionAdder]:
      [__init__], [add], [reset], [_n_step], [_write], [_write_last] and
      [_compute_cumulative_quantities];
    - [mava/systems/ppo/sebulba/ff_ippo.py], functions [learner], [rollout]
      and [_calculate_gae], and the number of updates per evaluation of
      [run_experiment].

    Python integers are [Z]; dictionaries are stdpp finite maps keyed by
    strings; a dictionary whose iteration order is observable (the table
    priorities) is an association list.  Python exceptions are values of
    [Exn]; code that mutates [self] is a state transformer that keeps the
    mutated object also when it raises. *)

From Stdlib Require Import ZArith List Lia Ring.
From stdpp Require Import base option list strings gmap sorting.

Local Open Scope Z_scope.

Set Warnings "-clear-no-such-hyp".

(** ** Exceptions *)

Inductive Exn : Type :=
| TypeError
| KeyError (key : string)
| IndexError
| ValidationError (keys : gset string).

(** Pure code that may raise. *)
Definition Res (A : Type) : Type := Exn + A.

Definition res_bind {A B} (r : Res A) (k : A → Res B) : Res B :=
  match r with
  | inl e => inl e
  | inr a => k a
  end.

Notation "x ←? r ; k" := (res_bind r (fun x => k))
  (at level 20, r at level 100, k at level 200, right associativity,
   format "x  ←?  r ;  '/' k").

(** [d[k]] on a dictionary: [KeyError] on a missing key. *)
Definition getitem {V} (d : gmap string V) (k : string) : Res V :=
  match d !! k with
  | Some v => inr v
  | None => inl (KeyError k)
  end.

(** [xs[i]] on a sequence, for an index that is not negative:
    [IndexError] when out of range. *)
Definition index {A} (xs : list A) (i : nat) : Res A :=
  match xs !! i with
  | Some x => inr x
  | None => inl IndexError
  end.

(** ** [_compute_cumulative_quantities]

    The rewards, the discounts and the agent's own discount arrive with
    one common tree structure (line 296) and are flattened (lines 299-301):
    the model starts from the three flat lists of leaves.  A leaf of
    [flat_rewards] or [flat_discounts] is the sequence over the window; its
    elements are scalars of a commutative ring, which stands for the exact
    arithmetic of the numeric arrays. *)

Section Cumulative.
Context {R : Type}.
Context (rO rI : R) (radd rmul : R → R → R).

Local Notation "a ⊕ b" := (radd a b) (at level 50, left associativity).
Local Notation "a ⊗ b" := (rmul a b) (at level 40, left associativity).

(** Line 304: [[np.copy(a[0]) for a in flat_discounts]]. *)
Fixpoint first_elements (flat : list (list R)) : Res (list R) :=
  match flat with
  | [] => inr []
  | a :: rest =>
      a0 ←? index a 0;
      r ←? first_elements rest;
      inr (a0 :: r)
  end.

(** Lines 308-311: one accumulator per pair of [zip(flat_rewards,
    total_discount)], holding [r[0]]. *)
Fixpoint initial_return (flat_rewards : list (list R)) (total_discount : list R)
  : Res (list R) :=
  match flat_rewards, total_discount with
  | r :: rs, _ :: ds =>
      r0 ←? index r 0;
      rest ←? initial_return rs ds;
      inr (r0 :: rest)
  | _, _ => inr []
  end.

(** Lines 318-330: the body of the outer loop at index [i].  The
    accumulators are updated in place, leaf by leaf, as far as the
    shortest of the five zipped lists goes; the others keep their value. *)
Fixpoint accumulate (i : nat) (n_step_return total_discount : list R)
    (flat_rewards flat_discounts : list (list R)) (flat_self_discount : list R)
  : Res (list R * list R) :=
  match n_step_return, total_discount, flat_rewards, flat_discounts,
        flat_self_discount with
  | nsr :: nsrs, td :: tds, r :: rs, d :: ds, sd :: sds =>
      let td := td ⊗ sd in
      ri ←? index r i;
      let nsr := nsr ⊕ ri ⊗ td in
      di ←? index d i;
      let td := td ⊗ di in
      rest ←? accumulate i nsrs tds rs ds sds;
      inr (nsr :: rest.1, td :: rest.2)
  | _, _, _, _, _ => inr (n_step_return, total_discount)
  end.

(** Line 317: [for i in range(1, self._n_step)], over the indices still to
    be visited. *)
Fixpoint accumulate_range (idx : list nat) (n_step_return total_discount : list R)
    (flat_rewards flat_discounts : list (list R)) (flat_self_discount : list R)
  : Res (list R * list R) :=
  match idx with
  | [] => inr (n_step_return, total_discount)
  | i :: idx =>
      acc ←? accumulate i n_step_return total_discount
               flat_rewards flat_discounts flat_self_discount;
      accumulate_range idx acc.1 acc.2 flat_rewards flat_discounts flat_self_discount
  end.

(** [_n_step] is the value of the property [self._n_step] read at line 317;
    the result is the pair of the flat lists handed to [unflatten_as]. *)
Definition _compute_cumulative_quantities (_n_step : Z)
    (flat_rewards flat_discounts : list (list R)) (flat_self_discount : list R)
  : Res (list R * list R) :=
  total_discount ←? first_elements flat_discounts;
  n_step_return ←? initial_return flat_rewards total_discount;
  accumulate_range (seq 1 (Z.to_nat (_n_step - 1)))
    n_step_return total_discount flat_rewards flat_discounts flat_self_discount.

(** *** The closed forms of the specification *)

Definition rsum (xs : list R) : R := foldr radd rO xs.
Definition rprod (xs : list R) : R := foldr rmul rI xs.
Definition rpow (x : R) (n : nat) : R := rprod (replicate n x).

(** [prod_{j<i} (self_discount * discount[j])]. *)
Definition discount_upto (sd : R) (discount : list R) (i : nat) : R :=
  rprod ((λ dj, sd ⊗ dj) <$> take i discount).

(** [sum_{i=0}^{k-1} reward[i] * prod_{j<i} (self_discount * discount[j])]. *)
Definition n_step_return_spec (k : nat) (sd : R) (reward discount : list R) : R :=
  rsum ((λ i, nth i reward rO ⊗ discount_upto sd discount i) <$> seq 0 k).

(** [self_discount^(k-1) * prod_{j=0}^{k-1} discount[j]]. *)
Definition total_discount_spec (k : nat) (sd : R) (discount : list R) : R :=
  rpow sd (k - 1) ⊗ rprod (take k discount).

(** The closed forms, leaf by leaf. *)
Fixpoint returns_spec (k : nat) (flat_self_discount : list R)
    (flat_rewards flat_discounts : list (list R)) : list R :=
  match flat_self_discount, flat_rewards, flat_discounts with
  | sd :: sds, r :: rs, d :: ds =>
      n_step_return_spec k sd r d :: returns_spec k sds rs ds
  | _, _, _ => []
  end.

Fixpoint discounts_spec (k : nat) (flat_self_discount : list R)
    (flat_discounts : list (list R)) : list R :=
  match flat_self_discount, flat_discounts with
  | sd :: sds, d :: ds => total_discount_spec k sd d :: discounts_spec k sds ds
  | _, _ => []
  end.

End Cumulative.

(** ** State and exceptions

    A method that mutates an object of type [S] and may raise: the object
    after the call is returned in both cases, since what a Python method
    wrote before it raised stays written. *)

Definition SE (S A : Type) : Type := S → Res A * S.

Definition se_ret {S A} (a : A) : SE S A := λ s, (inr a, s).

Definition se_bind {S A B} (m : SE S A) (k : A → SE S B) : SE S B :=
  λ s, match m s with
       | (inl e, s') => (inl e, s')
       | (inr a, s') => k a s'
       end.

Definition se_raise {S A} (e : Exn) : SE S A := λ s, (inl e, s).

Definition se_lift {S A} (r : Res A) : SE S A := λ s, (r, s).

Definition se_modify {S} (f : S → S) : SE S unit := λ s, (inr tt, f s).

Notation "x ←! m ; k" := (se_bind m (fun x => k))
  (at level 20, m at level 100, k at level 200, right associativity,
   format "x  ←!  m ;  '/' k").

(** [sorted(keys)] on strings: Python orders strings by code point, which on
    byte strings is the lexicographic order of [String.le]. *)
Definition sorted (keys : list string) : list string := merge_sort String.le keys.

(** [table_net_config]: for a table, the network keys it requires, one per
    agent slot. *)
Abbreviation TableNetConfig := (gmap string (list string)).

(** ** The adder

    The payloads of a transition (observations, actions, the n-step return,
    the cumulative discount), the priorities, the steps handed to [add] and
    the buffered history of the trajectory writer are kept abstract: the
    adder only moves them around. *)

Section Adder.
Context {Client Obs Act Rew Disc Prio Step Gamma History : Type}.

(** [mava.types.Transition].  An [extras] dictionary maps the name of an
    extra to its per-agent values; the one the adder reads,
    ["network_keys"], holds strings. *)
Record Transition : Type := mkTransition {
  observation : gmap string Obs;
  extras : gmap string (gmap string string);
  action : gmap string Act;
  reward : gmap string Rew;
  discount : gmap string Disc;
  next_observation : gmap string Obs;
  next_extras : gmap string (gmap string string)
}.

(** One call [create_item(table, priority, trajectory)]. *)
Record Item : Type := mkItem {
  item_table : string;
  item_priority : Prio;
  item_trajectory : Transition
}.

(** The trajectory writer, an external collaborator: its step counter, its
    buffered history, and the calls of [create_item] and [flush] it has
    received, oldest first. *)
Record Writer : Type := mkWriter {
  episode_steps : Z;
  history : History;
  items : list Item;
  flushes : list Z
}.

(** [priority_fns]: a priority function per table, in the order of the
    mapping. *)
Local Abbreviation PriorityFns := (list (string * (Transition → Prio))).

(** The fields of [self].  [windows] is not a field of the class: it
    records, oldest first, the window [(first_idx, last_idx)] of every
    transition that [_write] has formed (line 207). *)
Record Adder : Type := mkAdder {
  _client : Client;
  n_step : Z;
  _discount : Gamma;
  _first_idx : Z;
  _last_idx : Z;
  _table_net_config : option TableNetConfig;
  _max_sequence_length : Z;
  _priority_fns : PriorityFns;
  _max_in_flight_items : Z;
  _use_next_extras : bool;
  _writer : Writer;
  windows : list (Z * Z)
}.

Definition set_first_idx (v : Z) (self : Adder) : Adder :=
  mkAdder (_client self) (n_step self) (_discount self) v (_last_idx self)
    (_table_net_config self) (_max_sequence_length self) (_priority_fns self)
    (_max_in_flight_items self) (_use_next_extras self) (_writer self)
    (windows self).

Definition set_last_idx (v : Z) (self : Adder) : Adder :=
  mkAdder (_client self) (n_step self) (_discount self) (_first_idx self) v
    (_table_net_config self) (_max_sequence_length self) (_priority_fns self)
    (_max_in_flight_items self) (_use_next_extras self) (_writer self)
    (windows self).

Definition set_writer (w : Writer) (self : Adder) : Adder :=
  mkAdder (_client self) (n_step self) (_discount self) (_first_idx self)
    (_last_idx self) (_table_net_config self) (_max_sequence_length self)
    (_priority_fns self) (_max_in_flight_items self) (_use_next_extras self)
    w (windows self).

Definition log_window (self : Adder) : Adder :=
  mkAdder (_client self) (n_step self) (_discount self) (_first_idx self)
    (_last_idx self) (_table_net_config self) (_max_sequence_length self)
    (_priority_fns self) (_max_in_flight_items self) (_use_next_extras self)
    (_writer self) (windows self ++ [(_first_idx self, _last_idx self)]).

(** *** The collaborators *)

(** Lines 163-188 and 204-215 of [_write]: the transition of the window
    [first_idx .. last_idx] of a history, with the first observation,
    extras and action, the n-step return and cumulative discount of the
    rewards and discounts in between (by [_compute_cumulative_quantities],
    under the agent's discount), and the last observation and extras.
    It raises where an index is outside the history. *)
Variable window_transition : Gamma → Z → Z → History → Res Transition.

(** The history after [append(dict(n_step_return=.., total_discount=..),
    partial_step=..)], lines 193-196. *)
Variable append_derived : gmap string Rew → gmap string Disc → bool → History → History.

(** The history after the base adder has buffered one step. *)
Variable buffer_step : Step → History → History.

(** The history of a writer that holds no step. *)
Variable empty_history : History.

(** The priority functions the base adder uses when none are given. *)
Variable default_priority_fns : PriorityFns.

(** Modelled from the spec: the writer's [append(step, partial_step)];
    [episode_steps] counts the steps appended since the last reset, and a
    partial step is not yet one. *)
Definition append (push : History → History) (partial_step : bool) (w : Writer)
  : Writer :=
  mkWriter (if partial_step then episode_steps w else episode_steps w + 1)
    (push (history w)) (items w) (flushes w).

(** Modelled from the spec: the writer's [create_item(table, priority,
    trajectory)] submits the trajectory to the table. *)
Definition create_item (table : string) (priority : Prio) (trajectory : Transition)
  : SE Writer unit :=
  se_modify (λ w, mkWriter (episode_steps w) (history w)
                    (items w ++ [mkItem table priority trajectory]) (flushes w)).

(** Modelled from the spec: the writer's [flush(max_in_flight_items)]. *)
Definition flush (max_in_flight_items : Z) : SE Writer unit :=
  se_modify (λ w, mkWriter (episode_steps w) (history w) (items w)
                    (flushes w ++ [max_in_flight_items])).

(** Modelled from the spec: [calculate_priorities] of
    [mava.utils.adder_utils] invokes the priority function of each table
    once on the transition. *)
Definition calculate_priorities (priority_fns : PriorityFns) (transition : Transition)
  : list (string * Prio) :=
  (λ tf, (tf.1, tf.2 transition)) <$> priority_fns.

(** *** [__init__] *)

(** Modelled from the spec: the constructor of the base adder keeps what
    it is given, takes the default priority functions when none are
    given, and starts with a writer that holds nothing. *)
Definition base_init (client : Client) (max_sequence_length : Z)
    (priority_fns : option PriorityFns) (max_in_flight_items : Z)
    (use_next_extras : bool) (self : Adder) : Res Adder :=
  inr (mkAdder client (n_step self) (_discount self) (_first_idx self)
         (_last_idx self) (_table_net_config self) max_sequence_length
         (default default_priority_fns priority_fns) max_in_flight_items
         use_next_extras (mkWriter 0 empty_history [] []) (windows self)).

(** Lines 109-121.  The conversion of the discount to [float32] is not
    modelled.  The fields that [super().__init__] sets are given their
    value there. *)
Definition __init__ (client : Client) (n_step : Z) (discount : Gamma)
    (priority_fns : option PriorityFns) (table_net_config : option TableNetConfig)
    (max_in_flight_items : Z) : Res Adder :=
  let self :=
    mkAdder client n_step discount 0 0 table_net_config 0 [] 0 false
      (mkWriter 0 empty_history [] []) [] in
  base_init client (n_step + 1) priority_fns max_in_flight_items true self.

(** *** [_n_step] *)

Definition _n_step (self : Adder) : Z := _last_idx self - _first_idx self.

(** *** [_write] *)

(** [not self._table_net_config]: [None] and the empty dictionary are
    false. *)
Definition truthy (cfg : option TableNetConfig) : bool :=
  match cfg with
  | None => false
  | Some c => negb (bool_decide (c = ∅))
  end.

(** [self._table_net_config[table]]. *)
Definition table_config (cfg : option TableNetConfig) (table : string)
  : Res (list string) :=
  match cfg with
  | None => inl TypeError
  | Some c => getitem c table
  end.

(** Lines 228-230: [{str(net_keys[agent]...): agent for agent in agents}],
    a later agent overwriting an earlier one under the same key. *)
Fixpoint trans_nets_agent (net_keys : gmap string string) (agents : list string)
    (acc : gmap string string) : Res (gmap string string) :=
  match agents with
  | [] => inr acc
  | agent :: agents =>
      key ←? getitem net_keys agent;
      trans_nets_agent net_keys agents (<[key := agent]> acc)
  end.

(** Lines 232-235: [not self._table_net_config or all(elem in
    trans_nets_agent.keys() for elem in self._table_net_config[table])]. *)
Definition table_accepts (cfg : option TableNetConfig)
    (nets_agent : gmap string string) (table : string) : Res bool :=
  if negb (truthy cfg) then inr true
  else
    required ←? table_config cfg table;
    inr (forallb (λ elem, bool_decide (is_Some (nets_agent !! elem))) required).

(** Lines 238-244: seven empty dictionaries. *)
Definition empty_transition : Transition := mkTransition ∅ ∅ ∅ ∅ ∅ ∅ ∅.

(** Lines 245-258: [for a_i, net_key in enumerate(...)], from index [a_i]
    on; [new] holds the dictionaries filled so far. *)
Fixpoint reindex (transition : Transition) (nets_agent : gmap string string)
    (agents : list string) (a_i : nat) (required : list string) (new : Transition)
  : Res Transition :=
  match required with
  | [] => inr new
  | net_key :: required =>
      cur_agent ←? getitem nets_agent net_key;
      want_agent ←? index agents a_i;
      o ←? getitem (observation transition) cur_agent;
      a ←? getitem (action transition) cur_agent;
      r ←? getitem (reward transition) cur_agent;
      d ←? getitem (discount transition) cur_agent;
      o' ←? getitem (next_observation transition) cur_agent;
      reindex transition nets_agent agents (S a_i) required
        (mkTransition (<[want_agent := o]> (observation new)) (extras new)
           (<[want_agent := a]> (action new)) (<[want_agent := r]> (reward new))
           (<[want_agent := d]> (discount new))
           (<[want_agent := o']> (next_observation new)) (next_extras new))
  end.

(** Lines 223-271: the body of the loop over the tables; the result is the
    new value of [created_item]. *)
Definition _write_table (cfg : option TableNetConfig) (transition : Transition)
    (table : string) (priority : Prio) (created_item : bool) : SE Writer bool :=
  net_keys ←! se_lift (getitem (extras transition) "network_keys");
  let agents := sorted (elements (dom (action transition))) in
  nets_agent ←! se_lift (trans_nets_agent net_keys agents ∅);
  accepted ←! se_lift (table_accepts cfg nets_agent table);
  if accepted then
    required ←! se_lift (table_config cfg table);
    new_transition ←!
      se_lift (reindex transition nets_agent agents 0 required empty_transition);
    _ ←! create_item table priority new_transition;
    se_ret true
  else se_ret created_item.

(** Line 222: [for table, priority in table_priorities.items()]. *)
Fixpoint _write_tables (cfg : option TableNetConfig) (transition : Transition)
    (table_priorities : list (string * Prio)) (created_item : bool)
  : SE Writer bool :=
  match table_priorities with
  | [] => se_ret created_item
  | (table, priority) :: table_priorities =>
      created_item ←! _write_table cfg transition table priority created_item;
      _write_tables cfg transition table_priorities created_item
  end.

(** Lines 218-278, on the writer. *)
Definition _write_insert (cfg : option TableNetConfig) (priority_fns : PriorityFns)
    (max_in_flight_items : Z) (transition : Transition) : SE Writer unit :=
  let table_priorities := calculate_priorities priority_fns transition in
  created_item ←! _write_tables cfg transition table_priorities false;
  _ ←! flush max_in_flight_items;
  if created_item then se_ret tt
  else se_raise (ValidationError (dom (action transition))).

(** Lines 142-278.  When the window cannot be read, nothing has been
  written yet.  Otherwise the derived fields are appended, as a partial
  step unless the writer has counted more steps than [last_idx] (line
  195), and the transition is inserted. *)
Definition _write : SE Adder unit := λ self,
  match window_transition (_discount self) (_first_idx self) (_last_idx self)
          (history (_writer self)) with
  | inl e => (inl e, self)
  | inr transition =>
      let partial_step := episode_steps (_writer self) <=? _last_idx self in
      let w :=
        append (append_derived (reward transition) (discount transition) partial_step)
          partial_step (_writer self) in
      let '(r, w) :=
        _write_insert (_table_net_config self) (_priority_fns self)
          (_max_in_flight_items self) transition w in
      (r, set_writer w (log_window self))
  end.

(** *** [add], [reset], [_write_last] *)

(** Modelled from the spec: [add] of the base adder buffers the step and
    triggers a write. *)
Definition base_add (step : Step) : SE Adder unit :=
  _ ←! se_modify (λ self,
         set_writer (append (buffer_step step) false (_writer self)) self);
  _write.

(** Lines 126-130. *)
Definition add (step : Step) : SE Adder unit :=
  _ ←! se_modify (λ self,
         if episode_steps (_writer self) >=? n_step self
         then set_first_idx (_first_idx self + 1) self else self);
  _ ←! se_modify (λ self, set_last_idx (_last_idx self + 1) self);
  base_add step.

(** Modelled from the spec: [reset] of the base adder clears the buffer. *)
Definition base_reset : SE Adder unit :=
  se_modify (λ self,
    set_writer (mkWriter 0 empty_history (items (_writer self))
                  (flushes (_writer self))) self).

(** Lines 133-135. *)
Definition reset : SE Adder unit :=
  _ ←! base_reset;
  _ ←! se_modify (set_first_idx 0);
  se_modify (set_last_idx 0).

(** Lines 285-287: the [while] loop, with a bound on the number of
    iterations; [None] when the bound is reached with the condition of the
    loop still true. *)
Fixpoint _write_last_loop (fuel : nat) (self : Adder) : option (Res unit * Adder) :=
  if _first_idx self <? _last_idx self then
    match fuel with
    | O => None
    | S fuel =>
        match _write self with
        | (inl e, self) => Some (inl e, self)
        | (inr _, self) =>
            _write_last_loop fuel (set_first_idx (_first_idx self + 1) self)
        end
    end
  else Some (inr tt, self).

(** Lines 284-287.  The loop is given as many iterations as the window is
    wide when it starts. *)
Definition _write_last (self : Adder) : option (Res unit * Adder) :=
  let self := set_first_idx (_first_idx self + 1) self in
  _write_last_loop (Z.to_nat (_last_idx self - _first_idx self)) self.

(** Modelled from the spec: the recording of one episode is a call of
    [add] per step, followed by the end-of-episode write path. *)
Fixpoint add_all (steps : list Step) : SE Adder unit :=
  match steps with
  | [] => se_ret tt
  | step :: steps => _ ←! add step; add_all steps
  end.

Definition record_episode (steps : list Step) (self : Adder)
  : option (Res unit * Adder) :=
  match add_all steps self with
  | (inl e, self) => Some (inl e, self)
  | (inr _, self) => _write_last self
  end.

(** The effective sizes of the windows of the transitions formed so far. *)
Definition window_sizes (self : Adder) : list Z :=
  (λ w, w.2 - w.1) <$> windows self.

(** The adder as [add] hands it to [_write]: after lines 126-128 and the
    buffering of the step. *)
Definition add_before_write (step : Step) (self : Adder) : Adder :=
  let self :=
    if episode_steps (_writer self) >=? n_step self
    then set_first_idx (_first_idx self + 1) self else self in
  let self := set_last_idx (_last_idx self + 1) self in
  set_writer (append (buffer_step step) false (_writer self)) self.

(** During an episode the writer has counted as many steps as [add] was
    called, and the window starts [n_step] steps before its end, or at the
    first step. *)
Definition in_episode (self : Adder) : Prop :=
  0 ≤ _last_idx self ∧
  _first_idx self = Z.max 0 (_last_idx self - n_step self) ∧
  episode_steps (_writer self) = _last_idx self ∧
  1 ≤ n_step self.

(** The adders that calls of [add] and [reset] lead to, whether the calls
    return or raise. *)
Inductive reachable (self0 : Adder) : Adder → Prop :=
| reachable_init : reachable self0 self0
| reachable_add self step : reachable self0 self → reachable self0 (add step self).2
| reachable_reset self : reachable self0 self → reachable self0 (reset self).2.

(** The window-pointer invariant of the specification. *)
Definition window_invariant (self : Adder) : Prop :=
  0 ≤ _first_idx self ≤ _last_idx self ∧ _last_idx self - _first_idx self ≤ n_step self.

(** *** The vocabulary of the routing properties *)

(** The agents of a transition, in sorted order (line 226). *)
Definition agents_of (transition : Transition) : list string :=
  sorted (elements (dom (action transition))).

(** A network key is assigned in a transition when the extras record it
    for one of the agents that acted. *)
Definition assigned (transition : Transition) (net_key : string) : Prop :=
  ∃ net_keys agent,
    extras transition !! "network_keys" = Some net_keys ∧
    is_Some (action transition !! agent) ∧ net_keys !! agent = Some net_key.

(** A table matches a transition when the configuration is set and the
    whole list of network keys it requires for the table is assigned. *)
Definition matched (cfg : option TableNetConfig) (transition : Transition)
    (table : string) : Prop :=
  ∃ c required,
    cfg = Some c ∧ c !! table = Some required ∧
    ∀ net_key, net_key ∈ required → assigned transition net_key.

(** [agent] is the last of [agents] that [net_keys] gives [net_key]. *)
Definition last_with_key (net_keys : gmap string string) (agents : list string)
    (net_key agent : string) : Prop :=
  ∃ before after,
    agents = before ++ agent :: after ∧ net_keys !! agent = Some net_key ∧
    ∀ other, other ∈ after → net_keys !! other ≠ Some net_key.

(** In [new], the slot of agent [want] holds what [transition] holds for
    agent [cur], in each of the five fields that are reindexed. *)
Definition slot_holds (transition new : Transition) (want cur : string) : Prop :=
  is_Some (observation transition !! cur) ∧
  observation new !! want = observation transition !! cur ∧
  is_Some (action transition !! cur) ∧
  action new !! want = action transition !! cur ∧
  is_Some (reward transition !! cur) ∧
  reward new !! want = reward transition !! cur ∧
  is_Some (discount transition !! cur) ∧
  discount new !! want = discount transition !! cur ∧
  is_Some (next_observation transition !! cur) ∧
  next_observation new !! want = next_observation transition !! cur.

(** [out] holds for agent [x] what [new] holds, in the reindexed fields. *)
Definition slot_kept (new out : Transition) (x : string) : Prop :=
  observation out !! x = observation new !! x ∧
  action out !! x = action new !! x ∧
  reward out !! x = reward new !! x ∧
  discount out !! x = discount new !! x ∧
  next_observation out !! x = next_observation new !! x.

(** [new] is the reindexed transition that [_write] builds from
    [transition] for a table that accepts it. *)
Definition routed (cfg : option TableNetConfig) (transition : Transition)
    (table : string) (new : Transition) : Prop :=
  ∃ net_keys nets_agent required,
    extras transition !! "network_keys" = Some net_keys ∧
    trans_nets_agent net_keys (agents_of transition) ∅ = inr nets_agent ∧
    table_accepts cfg nets_agent table = inr true ∧
    table_config cfg table = inr required ∧
    reindex transition nets_agent (agents_of transition) 0 required empty_transition
      = inr new.

(** [_write] skips the table for the transition: the condition of lines
    232-235 is false. *)
Definition skipped (cfg : option TableNetConfig) (transition : Transition)
    (table : string) : Prop :=
  ∃ net_keys nets_agent,
    extras transition !! "network_keys" = Some net_keys ∧
    trans_nets_agent net_keys (agents_of transition) ∅ = inr nets_agent ∧
    table_accepts cfg nets_agent table = inr false.

(** The slots of [new] are filled from [transition] along the list
    [required]: slot [i], the one of the [i]-th agent in sorted order,
    holds the data of an agent that [source] relates to the [i]-th key. *)
Definition slots_filled (source : string → string → Prop)
    (transition new : Transition) (required : list string) : Prop :=
  ∀ i net_key, required !! i = Some net_key →
    ∃ cur want, source net_key cur ∧ agents_of transition !! i = Some want ∧
                slot_holds transition new want cur.

(** [agent] shares its network key with an agent that comes later in
    [agents]. *)
Definition shadowed (net_keys : gmap string string) (agents : list string)
    (agent : string) : Prop :=
  ∃ net_key before after later,
    agents = before ++ agent :: after ∧ net_keys !! agent = Some net_key ∧
    later ∈ after ∧ net_keys !! later = Some net_key.

(** Two transitions hold the same data for an agent. *)
Definition same_data (transition transition' : Transition) (agent : string) : Prop :=
  observation transition' !! agent = observation transition !! agent ∧
  action transition' !! agent = action transition !! agent ∧
  reward transition' !! agent = reward transition !! agent ∧
  discount transition' !! agent = discount transition !! agent ∧
  next_observation transition' !! agent = next_observation transition !! agent.

(** Two transitions with the same extras and the same agents that differ
    at most in the data of the shadowed agents. *)
Definition differ_on_shadowed (net_keys : gmap string string)
    (transition transition' : Transition) : Prop :=
  extras transition' = extras transition ∧
  dom (action transition') = dom (action transition) ∧
  ∀ agent, ¬ shadowed net_keys (agents_of transition) agent →
           same_data transition transition' agent.

(** The writer after one more call of [create_item]. *)
Definition with_item (w : Writer) (item : Item) : Writer :=
  mkWriter (episode_steps w) (history w) (items w ++ [item]) (flushes w).

(** The inputs of [_write] that the routing properties are about: there is a
    table, the extras record a network key for every agent that acted, and
    a configuration, when given, lists every table. *)
Definition routing_inputs (cfg : option TableNetConfig) (priority_fns : PriorityFns)
    (transition : Transition) : Prop :=
  priority_fns ≠ [] ∧
  (∃ net_keys, extras transition !! "network_keys" = Some net_keys ∧
               dom (action transition) ⊆ dom net_keys) ∧
  (∀ c, cfg = Some c → Forall (λ table, is_Some (c !! table)) priority_fns.*1).

(** The transitions in which every reindexed field has a value for every
    agent that acted, under a configuration whose lists are no longer than
    the agents are many. *)
Definition complete_inputs (cfg : option TableNetConfig) (transition : Transition)
  : Prop :=
  dom (action transition) ⊆ dom (observation transition) ∧
  dom (action transition) ⊆ dom (reward transition) ∧
  dom (action transition) ⊆ dom (discount transition) ∧
  dom (action transition) ⊆ dom (next_observation transition) ∧
  (∀ c, cfg = Some c →
     map_Forall (λ _ required,
       (length required ≤ length (agents_of transition))%nat) c).

(** Two adders set up alike. *)
Definition same_setup (self self' : Adder) : Prop :=
  n_step self' = n_step self ∧ _discount self' = _discount self ∧
  _table_net_config self' = _table_net_config self ∧
  _priority_fns self' = _priority_fns self ∧
  _max_in_flight_items self' = _max_in_flight_items self.

End Adder.

(** The window sizes that the specification lists for an episode of [T]
    steps under [n_step = N]: [1, ..., N-1], then [T-N+1] times [N], then
    [N-1, ..., 1]. *)
Definition expected_sizes (N T : nat) : list Z :=
  (Z.of_nat <$> seq 1 (N - 1)) ++ replicate (T - N + 1) (Z.of_nat N) ++
  (Z.of_nat <$> reverse (seq 1 (N - 1))).

(** ** The sebulba learner loop

    [learner] of [ff_ippo.py], lines 491-528.  The pipeline is the queue of
    the entries that the actors have put and the learner has not yet taken;
    a [get] on an empty pipeline never returns, which ends the model's run
    as [Blocked].  A [ParamsSource] is the slot that holds its parameters.
    The measurements of time are left out.  [events] records what the
    learner did, oldest first. *)

Section Learner.
Context {LearnerState Params Traj LastObs Dones Time EpisodeMetrics TrainMetrics : Type}.

(** One entry of the pipeline: [traj_batch, last_obs, last_dones,
    rollout_time]. *)
Record Entry : Type := mkEntry {
  traj_batch : Traj;
  last_obs : LastObs;
  last_dones : Dones;
  rollout_time : Time
}.

(** [learn(learner_state, traj_batch, last_obs, last_dones)]. *)
Variable learn :
  LearnerState → Traj → LastObs → Dones → LearnerState * EpisodeMetrics * TrainMetrics.

(** [flax.jax_utils.unreplicate(learner_state.params)]. *)
Variable unreplicate_params : LearnerState → Params.

Record Config : Type := mkConfig {
  num_evaluation : Z;
  num_updates_per_eval : Z
}.

(** What [learner_queue.put] is given: the stacked metrics of the
    updates, the learner state and the rollout times. *)
Record EvalOutput : Type := mkEvalOutput {
  out_metrics : list (EpisodeMetrics * TrainMetrics);
  out_learner_state : LearnerState;
  out_rollout_times : list Time
}.

Inductive Event : Type :=
| EvGet (entry : Entry)
| EvLearn (new_state : LearnerState)
| EvUpdate (source : nat) (params : Params)
| EvPut (output : EvalOutput).

Record World : Type := mkWorld {
  pipeline : list Entry;
  params_sources : list Params;
  learner_queue : list EvalOutput;
  events : list Event
}.

Inductive Outcome (A : Type) : Type :=
| Done (a : A)
| Blocked
| Raised (e : Exn).
Global Arguments Done {A} a.
Global Arguments Blocked {A}.
Global Arguments Raised {A} e.

Definition log (evs : list Event) (w : World) : World :=
  mkWorld (pipeline w) (params_sources w) (learner_queue w) (events w ++ evs).

(** Modelled from the spec: [ParamsSource.update(new_params)] replaces the
    contents of the slot. *)
Definition update (new_params : Params) (slot : Params) : Params := new_params.

(** Lines 515-516: [for source in params_sources: source.update(..)],
    from the source of index [i] on. *)
Fixpoint update_sources (i : nat) (new_params : Params) (sources : list Params)
  : list Params * list Event :=
  match sources with
  | [] => ([], [])
  | source :: sources =>
      let rest := update_sources (S i) new_params sources in
      (update new_params source :: rest.1, EvUpdate i new_params :: rest.2)
  end.

(** The variables of one evaluation step. *)
Record Locals : Type := mkLocals {
  learner_state : LearnerState;
  metrics : list (EpisodeMetrics * TrainMetrics);
  rollout_times : list Time
}.

(** Lines 502-516: the body of the inner loop. *)
Definition update_step (l : Locals) (w : World) : Outcome Locals * World :=
  match pipeline w with
  | [] => (Blocked, w)
  | entry :: queued =>
      let w := mkWorld queued (params_sources w) (learner_queue w)
                 (events w ++ [EvGet entry]) in
      let '(learner_state, episode_metrics, train_metrics) :=
        learn (learner_state l) (traj_batch entry) (last_obs entry) (last_dones entry) in
      let w := log [EvLearn learner_state] w in
      let metrics := metrics l ++ [(episode_metrics, train_metrics)] in
      let rollout_times := rollout_times l ++ [rollout_time entry] in
      let unreplicated_params := unreplicate_params learner_state in
      let updated := update_sources 0 unreplicated_params (params_sources w) in
      let w := mkWorld (pipeline w) updated.1 (learner_queue w)
                 (events w ++ updated.2) in
      (Done (mkLocals learner_state metrics rollout_times), w)
  end.

(** Line 501: [for _update in range(..)], with [n] iterations to go. *)
Fixpoint update_loop (n : nat) (l : Locals) (w : World) : Outcome Locals * World :=
  match n with
  | O => (Done l, w)
  | S n =>
      match update_step l w with
      | (Done l, w) => update_loop n l w
      | (Blocked, w) => (Blocked, w)
      | (Raised e, w) => (Raised e, w)
      end
  end.

(** Lines 497-528: the body of the outer loop.  [jax.tree.map] over no
    tree at all (line 519, when no update was made) raises. *)
Definition evaluation_step (config : Config) (st : LearnerState) (w : World)
  : Outcome LearnerState * World :=
  match update_loop (Z.to_nat (num_updates_per_eval config)) (mkLocals st [] []) w with
  | (Done l, w) =>
      match metrics l with
      | [] => (Raised TypeError, w)
      | _ =>
          let output :=
            mkEvalOutput (metrics l) (learner_state l) (rollout_times l) in
          (Done (learner_state l),
           mkWorld (pipeline w) (params_sources w) (learner_queue w ++ [output])
             (events w ++ [EvPut output]))
      end
  | (Blocked, w) => (Blocked, w)
  | (Raised e, w) => (Raised e, w)
  end.

(** Line 496: [for _eval_step in range(..)], with [n] iterations to go. *)
Fixpoint evaluation_loop (n : nat) (config : Config) (st : LearnerState) (w : World)
  : Outcome LearnerState * World :=
  match n with
  | O => (Done st, w)
  | S n =>
      match evaluation_step config st w with
      | (Done st, w) => evaluation_loop n config st w
      | (Blocked, w) => (Blocked, w)
      | (Raised e, w) => (Raised e, w)
      end
  end.

Definition learner (learner_state : LearnerState) (config : Config) (w : World)
  : Outcome LearnerState * World :=
  evaluation_loop (Z.to_nat (num_evaluation config)) config learner_state w.

(** The events of publishing [params] to [m] sources, in their order. *)
Definition publication (m : nat) (params : Params) : list Event :=
  (λ i, EvUpdate i params) <$> seq 0 m.

(** In a trace, every gradient update is followed at once by the
    publication of its parameters to the [m] sources, in their order: no
    other event, and so no [get], comes in between. *)
Definition publishes_after_learn (m : nat) (evs : list Event) : Prop :=
  ∀ i new_state, evs !! i = Some (EvLearn new_state) →
    ∀ j, (j < m)%nat →
      evs !! (i + 1 + j)%nat = Some (EvUpdate j (unreplicate_params new_state)).

(** The learner state after the updates on the given entries. *)
Fixpoint learn_all (st : LearnerState) (entries : list Entry) : LearnerState :=
  match entries with
  | [] => st
  | entry :: entries =>
      learn_all (learn st (traj_batch entry) (last_obs entry) (last_dones entry)).1.1
        entries
  end.

(** Whether an event is a [get] on the pipeline. *)
Definition is_get (ev : Event) : bool :=
  match ev with
  | EvGet _ => true
  | _ => false
  end.

(** Whether an event is a gradient update. *)
Definition is_learn (ev : Event) : bool :=
  match ev with
  | EvLearn _ => true
  | _ => false
  end.

End Learner.

(** ** A small instance

    Two agents; observations, actions, rewards, discounts and priorities
    are integers; the writer's history, the agent's discount, the client and
    the steps carry nothing. *)

Definition demo_payloads (keys : gmap string string) : @Transition Z Z Z Z :=
  mkTransition {["agent_0" := 10; "agent_1" := 11]}
    {["network_keys" := keys]}
    {["agent_0" := 20; "agent_1" := 21]} {["agent_0" := 30; "agent_1" := 31]}
    {["agent_0" := 40; "agent_1" := 41]} {["agent_0" := 50; "agent_1" := 51]}
    {["network_keys" := keys]}.

(** Each agent has its own network. *)
Definition demo_transition : @Transition Z Z Z Z :=
  demo_payloads {["agent_0" := "network_1"; "agent_1" := "network_0"]}.

(** Both agents share a network. *)
Definition demo_shared_transition : @Transition Z Z Z Z :=
  demo_payloads {["agent_0" := "network_a"; "agent_1" := "network_a"]}.

Definition demo_config : TableNetConfig :=
  {["trainer_0" := ["network_0"; "network_1"]]}.

Definition demo_shared_config : TableNetConfig :=
  {["trainer_0" := ["network_a"; "network_a"]]}.

Definition demo_unmatched_config : TableNetConfig :=
  {["trainer_0" := ["network_a"; "network_b"]]}.

Definition demo_priority_fns : list (string * (@Transition Z Z Z Z → Z)) :=
  [("trainer_0", λ _, 1)].

Definition demo_window (transition : @Transition Z Z Z Z)
    (discount : unit) (first_idx last_idx : Z) (history : unit)
  : Res (@Transition Z Z Z Z) :=
  inr transition.

Definition demo_append (n_step_return total_discount : gmap string Z)
    (partial_step : bool) (history : unit) : unit := tt.

Definition demo_buffer (step : unit) (history : unit) : unit := tt.

Definition demo_adder (n_step : Z) (cfg : option TableNetConfig)
  : @Adder unit Z Z Z Z Z unit unit :=
  mkAdder tt n_step tt 0 0 cfg (n_step + 1) demo_priority_fns 5 true
    (mkWriter 0 tt [] []) [].

(** The same two agents with other data for [agent_0]. *)
Definition demo_shared_transition' : @Transition Z Z Z Z :=
  mkTransition {["agent_0" := 0; "agent_1" := 11]}
    {["network_keys" := {["agent_0" := "network_a"; "agent_1" := "network_a"]}]}
    {["agent_0" := 0; "agent_1" := 21]} {["agent_0" := 0; "agent_1" := 31]}
    {["agent_0" := 0; "agent_1" := 41]} {["agent_0" := 0; "agent_1" := 51]}
    {["network_keys" := {["agent_0" := "network_a"; "agent_1" := "network_a"]}]}.

(** A learner whose state and parameters are integers and whose update
    adds the trajectory batch to the state. *)
Definition demo_learn (st traj : Z) (obs dones : unit) : Z * unit * unit :=
  (st + traj, tt, tt).

Definition demo_world : @World Z Z Z unit unit unit unit unit :=
  mkWorld [mkEntry 1 tt tt tt; mkEntry 2 tt tt tt] [0; 0] [] [].

(** ** The windows of an episode of any length

    The sizes of the windows of an episode of [T] steps under
    [n_step = N]: [min(j, N)] for the [j]-th step, then [min(T, N) - 1],
    ..., 1 at the end of the episode. *)
Definition episode_sizes (N T : nat) : list Z :=
  ((λ j, Z.of_nat j `min` Z.of_nat N) <$> seq 1 T) ++
  (Z.of_nat <$> reverse (seq 1 (T `min` N - 1))).

(** ** What the learner hands to the evaluator

    The outputs that [learner] puts on its queue, as a function of the
    entries it takes from the pipeline. *)

Section LearnerOutputs.
Context {LearnerState Traj LastObs Dones Time EpisodeMetrics TrainMetrics : Type}.

Variable learn :
  LearnerState → Traj → LastObs → Dones → LearnerState * EpisodeMetrics * TrainMetrics.

(** The metrics of the updates on the given entries, in their order. *)
Fixpoint learn_metrics (st : LearnerState) (entries : list (@Entry Traj LastObs Dones Time))
  : list (EpisodeMetrics * TrainMetrics) :=
  match entries with
  | [] => []
  | entry :: entries =>
      let '(st', episode_metrics, train_metrics) :=
        learn st (traj_batch entry) (last_obs entry) (last_dones entry) in
      (episode_metrics, train_metrics) :: learn_metrics st' entries
  end.

(** The output of the evaluation step that starts in [st] and takes the
    given entries. *)
Definition eval_output (st : LearnerState) (entries : list (@Entry Traj LastObs Dones Time))
  : @EvalOutput LearnerState Time EpisodeMetrics TrainMetrics :=
  mkEvalOutput (learn_metrics st entries) (learn_all learn st entries)
    (rollout_time <$> entries).

(** The outputs of [n] evaluation steps of [u] updates each. *)
Fixpoint eval_outputs (n u : nat) (st : LearnerState)
    (entries : list (@Entry Traj LastObs Dones Time))
  : list (@EvalOutput LearnerState Time EpisodeMetrics TrainMetrics) :=
  match n with
  | O => []
  | S n =>
      eval_output st (take u entries) ::
      eval_outputs n u (learn_all learn st (take u entries)) (drop u entries)
  end.

End LearnerOutputs.

(** ** The number of updates of an evaluation step

    [run_experiment] of [ff_ippo.py], lines 572-576: the assertion on the
    number of updates and the division that gives
    [config.system.num_updates_per_eval].  [//] on integers is the floor
    division, as is [Z.div]. *)

Inductive ConfigExn : Type :=
| AssertionError
| ZeroDivisionError.

Definition updates_per_eval (num_updates num_evaluation : Z) : ConfigExn + Z :=
  if num_updates >? num_evaluation then
    if num_evaluation =? 0 then inl ZeroDivisionError
    else inr (num_updates / num_evaluation)
  else inl AssertionError.

(** ** The sanity checks of the configuration and the minibatches

    [run_experiment] of [ff_ippo.py], lines 544-553, on the number of
    environments, the number of learner devices (a length), the number of
    threads of an executor and the number of minibatches.  [%] is the
    modulo of the sign of the divisor, as is [Z.modulo], and raises on the
    divisor zero; [int(a / b)] is the quotient towards zero, [Z.quot], the
    floats being exact on the sizes of a configuration. *)

Definition py_mod (a b : Z) : ConfigExn + Z :=
  if b =? 0 then inl ZeroDivisionError else inr (a mod b).

Definition sanity_check (num_envs learner_devices n_threads_per_executor
    num_minibatches : Z) : ConfigExn + unit :=
  match py_mod num_envs learner_devices with
  | inl e => inl e
  | inr remainder =>
      if remainder =? 0 then
        match py_mod (Z.quot num_envs learner_devices * n_threads_per_executor)
                num_minibatches with
        | inl e => inl e
        | inr remainder => if remainder =? 0 then inr tt else inl AssertionError
        end
      else inl AssertionError
  end.

(** [_update_epoch], lines 337-339: the size of the batch that is shuffled
    and then reshaped into [num_minibatches] minibatches (lines 346-348). *)
Definition batch_size (rollout_length num_envs learner_devices : Z) : ConfigExn + Z :=
  if learner_devices =? 0 then inl ZeroDivisionError
  else inr (rollout_length * (num_envs / learner_devices)).

(** ** The transitions of a rollout

    The steps that [rollout] of [ff_ippo.py] stores, with the fields it
    gives them at lines 135-145; [reward] is [ppo_reward] here. *)

Record PPOTransition {D A V W L O I : Type} : Type := mkPPOTransition {
  ppo_done : D;
  ppo_action : A;
  ppo_value : V;
  ppo_reward : W;
  ppo_log_prob : L;
  ppo_obs : O;
  ppo_info : I
}.
Global Arguments PPOTransition : clear implicits.
Global Arguments mkPPOTransition {D A V W L O I} _ _ _ _ _ _ _.

(** [jax.lax.scan(f, init, xs, reverse=True)]: the elements of [xs] are
    visited from the last to the first, and each output is stored at the
    place of its input. *)
Fixpoint scan_reverse {C X Y : Type} (f : C → X → C * Y) (init : C) (xs : list X)
  : C * list Y :=
  match xs with
  | [] => (init, [])
  | x :: xs =>
      let '(carry, ys) := scan_reverse f init xs in
      let '(carry, y) := f carry x in
      (carry, y :: ys)
  end.

(** ** Generalised advantage estimation

    [_calculate_gae] of [ff_ippo.py], lines 184-204.  The arrays over the
    environments and the agents are computed element by element: the model
    is one such element along the time axis of the trajectory, a scalar of
    a commutative ring that stands for the exact arithmetic of the arrays.
    The flags of the end of an episode are booleans, with the values 1 and
    0 in the arithmetic. *)

Section Gae.
Context {R A L O I : Type}.
Context (rO rI : R) (radd rmul rsub : R → R → R).

Local Notation "a ⊕ b" := (radd a b) (at level 50, left associativity).
Local Notation "a ⊗ b" := (rmul a b) (at level 40, left associativity).
Local Notation "a ⊖ b" := (rsub a b) (at level 50, left associativity).

Local Abbreviation Transition' := (PPOTransition bool A R R L O I).

(** The value of a flag in the arithmetic. *)
Definition flag (done : bool) : R := if done then rI else rO.

(** Lines 187-195. *)
Definition _get_advantages (gamma gae_lambda : R) (carry : R * R * bool)
    (transition : Transition') : (R * R * bool) * R :=
  let '(gae, next_value, next_done) := carry in
  let '(done, value, reward) :=
    (ppo_done transition, ppo_value transition, ppo_reward transition) in
  let delta := reward ⊕ gamma ⊗ next_value ⊗ (rI ⊖ flag next_done) ⊖ value in
  let gae := delta ⊕ gamma ⊗ gae_lambda ⊗ (rI ⊖ flag next_done) ⊗ gae in
  ((gae, value, done), gae).

(** Lines 197-204: the advantages and the targets. *)
Definition _calculate_gae (gamma gae_lambda : R) (traj_batch : list Transition')
    (last_val : R) (last_done : bool) : list R * list R :=
  let '(_, advantages) :=
    scan_reverse (_get_advantages gamma gae_lambda) (rO, last_val, last_done)
      traj_batch in
  (advantages, zip_with radd advantages (ppo_value <$> traj_batch)).

(** *** The vocabulary of the properties *)

(** The flag that follows the first step of a trajectory: the one of the
    next step, or [last_done] after the last step. *)
Definition next_done_of (rest : list Transition') (last_done : bool) : bool :=
  match rest with
  | [] => last_done
  | transition :: _ => ppo_done transition
  end.

(** The value that follows the first step of a trajectory: the one of
    the next step, or [last_val] after the last step. *)
Definition next_value_of (rest : list Transition') (last_val : R) : R :=
  match rest with
  | [] => last_val
  | transition :: _ => ppo_value transition
  end.

(** The discounted return of a trajectory from its first step on: the
    rewards up to the end of the episode, or, when the episode goes on
    beyond the trajectory, up to its last step and then [last_val]. *)
Fixpoint bootstrapped_return (gamma : R) (traj_batch : list Transition')
    (last_val : R) (last_done : bool) : R :=
  match traj_batch with
  | [] => last_val
  | transition :: rest =>
      ppo_reward transition ⊕
      gamma ⊗ (rI ⊖ flag (next_done_of rest last_done)) ⊗
      bootstrapped_return gamma rest last_val last_done
  end.

(** The temporal-difference error of the first step of a trajectory. *)
Definition td_error (gamma : R) (transition : Transition') (rest : list Transition')
    (last_val : R) (last_done : bool) : R :=
  ppo_reward transition ⊕
  gamma ⊗ next_value_of rest last_val ⊗ (rI ⊖ flag (next_done_of rest last_done)) ⊖
  ppo_value transition.

End Gae.

(** ** The actor's rollout loop

    [rollout] of [ff_ippo.py], lines 56-147.  The environments keep their
    state between the calls of [step]; the policy, the clock, the
    parameter source and the life of the thread are given from outside.
    What another thread decides is an input of the model: the answer of
    the [i]-th call of [should_stop], and the parameters that
    [params_source.get()] returns at step [j] of rollout [i].  The result is
    the list of the entries that the thread has put on the pipeline, oldest
    first; that a [put] waits while the pipeline is full is not
    modelled. *)

Section Rollout.
Context {Params ObsT Act LogProb Val Key Env Seeds Rew Info Last Dn Time : Type}.

(** What [rollout] reads of a time step of the environments. *)
Record TimeStep : Type := mkTimeStep {
  ts_observation : ObsT;
  ts_reward : Rew;
  ts_last : Last;
  ts_extras : Info
}.

(** [environments.make_gym_env(..)] followed by [env.reset(seed=seeds)]. *)
Variable env_reset : Seeds → Env * TimeStep.

(** [env.step(..)] on the environments. *)
Variable env_step : Env → Act → Env * TimeStep.

(** Lines 73-87. *)
Variable get_action_and_value : Params → ObsT → Key → Act * LogProb * Val * Key.

(** Lines 91-94 and 129-132: the flag of each environment, repeated for
    its agents. *)
Variable agent_dones : Last → Dn.

Variable should_stop : nat → bool.
Variable params_at : nat → nat → Params.

(** The times that the clock measured during rollout [i]. *)
Variable time_dict_at : nat → Time.

(** The variables of [rollout] that live across the steps. *)
Record ActorState : Type := mkActorState {
  a_key : Key;
  a_env : Env;
  a_timestep : TimeStep;
  a_next_dones : Dn
}.

Local Abbreviation Stored := (PPOTransition Dn Act Val Rew LogProb ObsT Info).

(** Lines 108-145: the body of the inner loop, with the parameters that
    line 108 has read. *)
Definition rollout_step (params : Params) (s : ActorState) : ActorState * Stored :=
  let cached_next_obs := ts_observation (a_timestep s) in
  let cached_next_dones := a_next_dones s in
  let '(action, log_prob, value, key) :=
    get_action_and_value params cached_next_obs (a_key s) in
  let '(env, timestep) := env_step (a_env s) action in
  let next_dones := agent_dones (ts_last timestep) in
  (mkActorState key env timestep next_dones,
   mkPPOTransition cached_next_dones action value (ts_reward timestep) log_prob
     cached_next_obs (ts_extras timestep)).

(** Line 106: [for _ in range(config.system.rollout_length)], in rollout
    [i], from step [j] on with [n] steps to go; the result is what the
    steps append to [traj]. *)
Fixpoint rollout_steps (i j n : nat) (s : ActorState) : ActorState * list Stored :=
  match n with
  | O => (s, [])
  | S n =>
      let '(s, transition) := rollout_step (params_at i j) s in
      let '(s, traj) := rollout_steps i (S j) n s in
      (s, transition :: traj)
  end.

(** Lines 99-147: the [while] loop from rollout [i] on, with a bound on
    the number of rollouts; [None] when the bound is reached before
    [should_stop] has answered true. *)
Fixpoint rollout_loop (fuel : nat) (rollout_length : Z) (i : nat) (s : ActorState)
    (put : list (@Entry (list Stored) ObsT Dn Time))
  : option (list (@Entry (list Stored) ObsT Dn Time)) :=
  if should_stop i then Some put
  else
    match fuel with
    | O => None
    | S fuel =>
        let '(s, traj) := rollout_steps i 0 (Z.to_nat rollout_length) s in
        rollout_loop fuel rollout_length (S i) s
          (put ++ [mkEntry traj (ts_observation (a_timestep s)) (a_next_dones s)
                     (time_dict_at i)])
    end.

(** Lines 89-147. *)
Definition rollout (fuel : nat) (key : Key) (rollout_length : Z) (seeds : Seeds)
  : option (list (@Entry (list Stored) ObsT Dn Time)) :=
  let '(env, timestep) := env_reset seeds in
  let next_dones := agent_dones (ts_last timestep) in
  rollout_loop fuel rollout_length 0 (mkActorState key env timestep next_dones) [].

End Rollout.

(** ** More of the small instance *)

(** Two tables. *)
Definition demo_two_tables : list (string * (@Transition Z Z Z Z → Z)) :=
  [("trainer_0", λ _, 1); ("trainer_1", λ _, 2)].

(** A table that requires three network keys of two agents. *)
Definition demo_long_config : TableNetConfig :=
  {["trainer_0" := ["network_0"; "network_1"; "network_0"]]}.

(** A transition without extras. *)
Definition demo_bare_transition : @Transition Z Z Z Z :=
  mkTransition {["agent_0" := 10; "agent_1" := 11]} ∅
    {["agent_0" := 20; "agent_1" := 21]} {["agent_0" := 30; "agent_1" := 31]}
    {["agent_0" := 40; "agent_1" := 41]} {["agent_0" := 50; "agent_1" := 51]} ∅.

Definition demo_adder_with (fns : list (string * (@Transition Z Z Z Z → Z)))
    (cfg : option TableNetConfig) : @Adder unit Z Z Z Z Z unit unit :=
  mkAdder tt 2 tt 0 0 cfg 3 fns 5 true (mkWriter 0 tt [] []) [].

(** A trajectory of three steps whose second step ends an episode. *)
Definition demo_trajectory : list (PPOTransition bool unit Z Z unit unit unit) :=
  [mkPPOTransition false tt 5 1 tt tt tt; mkPPOTransition false tt 7 2 tt tt tt;
   mkPPOTransition true tt 9 4 tt tt tt].

(** Environments that count their steps, under a policy that acts with the
    parameters it is given; the thread is stopped after two rollouts. *)
Definition demo_env_reset (seeds : unit) : Z * @TimeStep Z Z unit bool :=
  (0, mkTimeStep 0 0 false tt).

Definition demo_env_step (env action : Z) : Z * @TimeStep Z Z unit bool :=
  (env + 1, mkTimeStep (env + 1) action false tt).

Definition demo_policy (params observation : Z) (key : unit) : Z * unit * Z * unit :=
  (params, tt, observation, tt).

Definition demo_should_stop (i : nat) : bool := (2 <=? i)%nat.

Definition demo_params_at (i j : nat) : Z := Z.of_nat (10 * i + j).

(** The entries that the actor of the instance puts, in rollouts of three
    steps. *)
Definition demo_rollout
  : option (list (@Entry (list (PPOTransition bool Z Z Z unit Z unit)) Z bool nat)) :=
  rollout demo_env_reset demo_env_step demo_policy (λ last, last) demo_should_stop
    demo_params_at (λ i, i) 5 tt 3 tt.

(** A writer whose history counts the steps buffered since the last reset.
    It holds the first observation of the episode and one more for each
    step, so the window [first_idx .. last_idx] can be read when
    [0 <= first_idx < last_idx <= steps]; elsewhere an index is outside the
    history, or the slice of the rewards is empty, and the read raises
    [IndexError]. *)
Definition demo_counting_window (transition : @Transition Z Z Z Z)
    (discount : unit) (first_idx last_idx : Z) (history : nat)
  : Res (@Transition Z Z Z Z) :=
  if (0 <=? first_idx) && (first_idx <? last_idx) && (last_idx <=? Z.of_nat history)
  then inr transition else inl IndexError.

Definition demo_counting_append (n_step_return total_discount : gmap string Z)
    (partial_step : bool) (history : nat) : nat := history.

Definition demo_counting_buffer (step : unit) (history : nat) : nat := S history.

Definition demo_counting_adder (n_step : Z) (cfg : option TableNetConfig)
  : @Adder unit Z Z Z Z Z unit nat :=
  mkAdder tt n_step tt 0 0 cfg (n_step + 1) demo_priority_fns 5 true
    (mkWriter 0 0%nat [] []) [].

(** * Properties *)

(** ** The cumulative quantities *)

Section CumulativeFacts.
Context {R : Type}.
Context (rO rI : R) (radd rmul rsub : R → R → R) (ropp : R → R).
Hypothesis Rth : ring_theory rO rI radd rmul rsub ropp (@eq R).

Add Ring Rring : Rth.

Local Notation "a ⊕ b" := (radd a b) (at level 50, left associativity).
Local Notation "a ⊗ b" := (rmul a b) (at level 40, left associativity).
Local Abbreviation sum_of := (rsum rO radd).
Local Abbreviation prod_of := (rprod rI rmul).
Local Abbreviation pow_of := (rpow rI rmul).

Lemma index_nth (xs : list R) (i : nat) :
  (i < length xs)%nat → index xs i = inr (nth i xs rO).
Proof.
  intros Hi. unfold index.
  destruct (xs !! i) as [x|] eqn:Hx.
  - f_equal. symmetry. by apply nth_lookup_Some with (d := rO) in Hx.
  - apply lookup_ge_None in Hx. lia.
Qed.

Lemma rsum_snoc (xs : list R) (x : R) : sum_of (xs ++ [x]) = sum_of xs ⊕ x.
Proof. induction xs as [|y xs IH]; simpl; [|rewrite IH]; ring. Qed.

Lemma rprod_snoc (xs : list R) (x : R) : prod_of (xs ++ [x]) = prod_of xs ⊗ x.
Proof. induction xs as [|y xs IH]; simpl; [|rewrite IH]; ring. Qed.

Lemma rpow_succ (x : R) (n : nat) : pow_of x (S n) = pow_of x n ⊗ x.
Proof. unfold rpow. simpl. ring. Qed.

Lemma rprod_scaled (sd : R) (xs : list R) :
  prod_of ((λ dj, sd ⊗ dj) <$> xs) = pow_of sd (length xs) ⊗ prod_of xs.
Proof.
  unfold rpow, rprod.
  induction xs as [|x xs IH]; [simpl; ring|].
  rewrite fmap_cons. cbn [foldr length replicate]. rewrite IH. ring.
Qed.

Lemma take_succ_nth (xs : list R) (m : nat) :
  (m < length xs)%nat → take (S m) xs = take m xs ++ [nth m xs rO].
Proof.
  intros Hm. destruct (xs !! m) as [x|] eqn:Hx.
  - rewrite (take_S_r _ _ _ Hx). by rewrite (nth_lookup_Some _ _ rO _ Hx).
  - apply lookup_ge_None in Hx. lia.
Qed.

(** One more step of the window, on one leaf. *)
Lemma return_spec_succ (m : nat) (sd : R) (r d : list R) :
  (1 ≤ m)%nat → (m < length d)%nat →
  n_step_return_spec rO rI radd rmul (S m) sd r d =
  n_step_return_spec rO rI radd rmul m sd r d
    ⊕ nth m r rO ⊗ (total_discount_spec rI rmul m sd d ⊗ sd).
Proof.
  intros Hm Hd. unfold n_step_return_spec, total_discount_spec.
  rewrite seq_S, fmap_app. simpl. rewrite rsum_snoc. f_equal. f_equal.
  unfold discount_upto. rewrite rprod_scaled, length_take_le by lia.
  destruct m as [|m]; [lia|].
  replace (S m - 1)%nat with m by lia. rewrite rpow_succ. ring.
Qed.

Lemma discount_spec_succ (m : nat) (sd : R) (d : list R) :
  (1 ≤ m)%nat → (m < length d)%nat →
  total_discount_spec rI rmul (S m) sd d =
  total_discount_spec rI rmul m sd d ⊗ sd ⊗ nth m d rO.
Proof.
  intros Hm Hd. unfold total_discount_spec.
  rewrite take_succ_nth, rprod_snoc by done.
  destruct m as [|m]; [lia|].
  replace (S (S m) - 1)%nat with (S m) by lia.
  replace (S m - 1)%nat with m by lia. rewrite rpow_succ. ring.
Qed.

Lemma return_spec_one (sd : R) (r d : list R) :
  n_step_return_spec rO rI radd rmul 1 sd r d = nth 0 r rO.
Proof.
  unfold n_step_return_spec, discount_upto, rsum, rprod. simpl.
  rewrite ?take_0. simpl. ring.
Qed.

Lemma discount_spec_one (sd : R) (d : list R) :
  (1 ≤ length d)%nat → total_discount_spec rI rmul 1 sd d = nth 0 d rO.
Proof.
  intros Hd. unfold total_discount_spec, rpow.
  destruct d as [|d0 d]; simpl in *; [lia|].
  rewrite ?take_0. unfold rprod. simpl. ring.
Qed.

Lemma first_elements_spec (k : nat) (sds : list R) (ds : list (list R)) :
  (1 ≤ k)%nat → Forall (λ d, length d = k) ds → length sds = length ds →
  first_elements ds = inr (discounts_spec rI rmul 1 sds ds).
Proof.
  intros Hk Hds. revert sds.
  induction Hds as [|d ds Hd Hds IH]; intros [|sd sds] Hlen;
    simplify_eq/=; [done|].
  rewrite index_nth by lia. simpl. rewrite (IH sds) by done. simpl.
  by rewrite discount_spec_one by lia.
Qed.

Lemma initial_return_spec (k : nat) (sds tds : list R) (rs ds : list (list R)) :
  (1 ≤ k)%nat → Forall (λ r, length r = k) rs →
  length tds = length rs → length sds = length rs → length ds = length rs →
  initial_return rs tds = inr (returns_spec rO rI radd rmul 1 sds rs ds).
Proof.
  intros Hk Hrs. revert sds tds ds.
  induction Hrs as [|r rs Hr Hrs IH]; intros [|sd sds] [|td tds] [|d ds] ???;
    simplify_eq/=; [done|].
  rewrite index_nth by lia. simpl. rewrite (IH sds tds ds) by done. simpl.
  by rewrite return_spec_one.
Qed.

Lemma accumulate_spec (k m : nat) (sds : list R) (rs ds : list (list R)) :
  (1 ≤ m)%nat → (m < k)%nat →
  Forall (λ r, length r = k) rs → Forall (λ d, length d = k) ds →
  length ds = length rs → length sds = length rs →
  accumulate radd rmul m
    (returns_spec rO rI radd rmul m sds rs ds) (discounts_spec rI rmul m sds ds)
    rs ds sds =
  inr (returns_spec rO rI radd rmul (S m) sds rs ds,
       discounts_spec rI rmul (S m) sds ds).
Proof.
  intros Hm Hk Hrs. revert sds ds.
  induction Hrs as [|r rs Hr Hrs IH]; intros [|sd sds] [|d ds] Hds ??;
    simplify_eq/=; try done.
  apply Forall_cons in Hds as [Hd Hds].
  rewrite !index_nth by lia. simpl.
  rewrite (IH sds ds) by done. simpl.
  by rewrite return_spec_succ, discount_spec_succ by lia.
Qed.

Lemma accumulate_range_spec (k m n : nat) (sds : list R) (rs ds : list (list R)) :
  (1 ≤ m)%nat → (m + n ≤ k)%nat →
  Forall (λ r, length r = k) rs → Forall (λ d, length d = k) ds →
  length ds = length rs → length sds = length rs →
  accumulate_range radd rmul (seq m n)
    (returns_spec rO rI radd rmul m sds rs ds) (discounts_spec rI rmul m sds ds)
    rs ds sds =
  inr (returns_spec rO rI radd rmul (m + n) sds rs ds,
       discounts_spec rI rmul (m + n) sds ds).
Proof.
  revert m. induction n as [|n IH]; intros m Hm Hk Hrs Hds ??; simpl.
  - by rewrite Nat.add_0_r.
  - rewrite accumulate_spec with (k := k) by (done || lia). simpl.
    rewrite IH by (done || lia). do 3 f_equal; lia.
Qed.

(** C1.  For a window of [k] steps, with [1 <= k <= n_step], on every leaf
    the n-step return is [sum_{i<k} reward[i] * prod_{j<i} (self_discount *
    discount[j])] and the total discount is [self_discount^(k-1) *
    prod_{j<k} discount[j]]: it carries [k - 1] applications of the agent's
    own discount, one fewer than the window has steps. *)
Theorem compute_cumulative_quantities_closed_form
    (n_step : Z) (k : nat) (sds : list R) (rs ds : list (list R)) :
  1 ≤ n_step → 1 ≤ Z.of_nat k ≤ n_step →
  Forall (λ r, length r = k) rs → Forall (λ d, length d = k) ds →
  length ds = length rs → length sds = length rs →
  _compute_cumulative_quantities radd rmul (Z.of_nat k) rs ds sds =
  inr (returns_spec rO rI radd rmul k sds rs ds, discounts_spec rI rmul k sds ds).
Proof.
  intros _ [Hk _] Hrs Hds Hlen Hlen'. unfold _compute_cumulative_quantities.
  rewrite (first_elements_spec k sds) by (done || lia). simpl.
  rewrite (initial_return_spec k sds _ rs ds); try done; try lia.
  2:{ clear -Hlen Hlen'. revert sds rs Hlen Hlen'.
      induction ds as [|d ds IH]; intros [|sd sds] [|r rs] ??;
        simplify_eq/=; auto. }
  simpl. replace (Z.to_nat (Z.of_nat k - 1)) with (k - 1)%nat by lia.
  rewrite accumulate_range_spec with (k := k) by (done || lia).
  do 3 f_equal; lia.
Qed.

End CumulativeFacts.

(** ** Routing *)

Section RoutingFacts.
Context {Obs Act Rew Disc Prio History : Type}.

Local Abbreviation Tr := (@Transition Obs Act Rew Disc).
Local Abbreviation Wr := (@Writer Obs Act Rew Disc Prio History).
Local Abbreviation It := (@Item Obs Act Rew Disc Prio).

Implicit Types (tr new out : Tr) (w : Wr) (cfg : option TableNetConfig).
Implicit Types (nk tna acc : gmap string string) (agents req : list string).

Lemma getitem_inr {V} (d : gmap string V) k v : getitem d k = inr v ↔ d !! k = Some v.
Proof. unfold getitem. destruct (d !! k); naive_solver. Qed.

Lemma getitem_not_validation {V} (d : gmap string V) k ks :
  getitem d k ≠ inl (ValidationError ks).
Proof. unfold getitem. by destruct (d !! k). Qed.

Lemma index_inr {A} (xs : list A) i x : index xs i = inr x ↔ xs !! i = Some x.
Proof. unfold index. destruct (xs !! i); naive_solver. Qed.

(** *** The agents *)

Lemma elem_of_agents_of tr agent :
  agent ∈ agents_of tr ↔ is_Some (action tr !! agent).
Proof.
  unfold agents_of, sorted. rewrite merge_sort_Permutation.
  by rewrite elem_of_elements, elem_of_dom.
Qed.

Lemma NoDup_agents_of tr : NoDup (agents_of tr).
Proof.
  unfold agents_of, sorted. rewrite merge_sort_Permutation. apply NoDup_elements.
Qed.

Lemma Sorted_agents_of tr : Sorted String.le (agents_of tr).
Proof. apply Sorted_merge_sort. apply _. Qed.

(** *** The lookup from network key to agent *)

Lemma trans_nets_agent_ok nk agents acc :
  (∀ agent, agent ∈ agents → is_Some (nk !! agent)) →
  ∃ tna, trans_nets_agent nk agents acc = inr tna.
Proof.
  revert acc. induction agents as [|agent agents IH]; intros acc Hnk; simpl.
  - eauto.
  - destruct (Hnk agent) as [key Hkey]; [set_solver|].
    unfold getitem. rewrite Hkey. simpl. apply IH. intros; apply Hnk; set_solver.
Qed.

Lemma trans_nets_agent_inv nk agents acc tna :
  trans_nets_agent nk agents acc = inr tna →
  (∀ agent, agent ∈ agents → is_Some (nk !! agent)) ∧
  ∀ key agent,
    tna !! key = Some agent ↔
    last_with_key nk agents key agent ∨
    (acc !! key = Some agent ∧ ∀ other, other ∈ agents → nk !! other ≠ Some key).
Proof.
  revert acc. induction agents as [|a agents IH]; intros acc Hrun; simpl in Hrun.
  - simplify_eq. split; [set_solver|]. intros key agent. split.
    + intros ?. right. split; [done|set_solver].
    + intros [(before & after & Heq & _)|[? _]]; [|done].
      by destruct before.
  - destruct (getitem nk a) as [|ka] eqn:Hka; simplify_eq/=.
    apply getitem_inr in Hka. apply IH in Hrun as [Hall Hrun].
    split.
    { intros agent [->|?]%elem_of_cons; eauto. }
    intros key agent. rewrite Hrun. split.
    + intros [(before & after & -> & ? & ?)|[Hacc Hnone]].
      * left. exists (a :: before), after. done.
      * destruct (decide (ka = key)) as [->|Hne].
        -- rewrite lookup_insert_eq in Hacc. simplify_eq.
           left. exists [], agents. done.
        -- rewrite lookup_insert_ne in Hacc by done. right. split; [done|].
           intros other [->|?]%elem_of_cons; [congruence|eauto].
    + intros [(before & after & Heq & Hk & Hafter)|[Hacc Hnone]].
      * destruct before as [|b before]; simplify_eq/=.
        -- right. rewrite lookup_insert_eq. done.
        -- left. by exists before, after.
      * right. split; [|intros; apply Hnone; set_solver].
        rewrite lookup_insert_ne; [done|].
        intros ->. apply (Hnone a); [set_solver|done].
Qed.

Lemma trans_nets_agent_last nk agents tna key agent :
  trans_nets_agent nk agents ∅ = inr tna →
  tna !! key = Some agent ↔ last_with_key nk agents key agent.
Proof.
  intros [_ Hrun]%trans_nets_agent_inv. rewrite Hrun. split; [|by left].
  intros [?|[? _]]; [done|]. by rewrite lookup_empty in *.
Qed.

Lemma last_with_key_elem nk agents key agent :
  last_with_key nk agents key agent → agent ∈ agents ∧ nk !! agent = Some key.
Proof. intros (before & after & -> & ? & _). split; [set_solver|done]. Qed.

Lemma last_with_key_exists nk agents key :
  (∃ agent, agent ∈ agents ∧ nk !! agent = Some key) →
  ∃ agent, last_with_key nk agents key agent.
Proof.
  induction agents as [|a agents IH]; intros (agent & Hin & Hkey); [set_solver|].
  destruct (decide (Exists (λ b, nk !! b = Some key) agents)) as [Hex|Hnone].
  - apply Exists_exists in Hex. destruct (IH Hex) as (b & before & after & -> & ? & ?).
    exists b, (a :: before), after. done.
  - rewrite Exists_exists in Hnone.
    apply elem_of_cons in Hin as [->|?]; [|naive_solver].
    exists a, [], agents. split_and!; [done..|]. naive_solver.
Qed.

(** *** The reindexed transition *)

Ltac res_step H :=
  match type of H with
  | res_bind ?r _ = inr _ =>
      let E := fresh "E" in
      destruct r eqn:E; simpl in H; [discriminate H|]
  end.

Lemma reindex_inv tr tna agents a_i req new out :
  NoDup agents →
  reindex tr tna agents a_i req new = inr out →
  extras out = extras new ∧ next_extras out = next_extras new ∧
  (∀ i key, req !! i = Some key →
     ∃ cur want, tna !! key = Some cur ∧ agents !! (a_i + i)%nat = Some want ∧
                 slot_holds tr out want cur) ∧
  (∀ x, (∀ i, (i < length req)%nat → agents !! (a_i + i)%nat ≠ Some x) →
        slot_kept new out x).
Proof.
  intros Hnodup. revert a_i new.
  induction req as [|key req IH]; intros a_i new Hrun; simpl in Hrun.
  - simplify_eq. split_and!; [done..| |done]. intros i key Hi. by destruct i.
  - do 7 res_step Hrun.
    apply getitem_inr in E, E1, E2, E3, E4, E5. apply index_inr in E0.
    apply IH in Hrun as (Hex & Hnex & Hslots & Hkept).
    cbn [extras next_extras] in Hex, Hnex.
    split_and!; [done..| |].
    + intros [|i] key' Hi; simplify_eq/=.
      * exists s, s0. rewrite Nat.add_0_r. split_and!; [done..|].
        destruct (Hkept s0) as (Ho & Ha & Hr & Hd & Ho').
        { intros i Hi Hi'. eapply NoDup_lookup in E0; [|done|exact Hi']. lia. }
        cbn [observation action reward discount next_observation]
          in Ho, Ha, Hr, Hd, Ho'.
        rewrite lookup_insert_eq in Ho; rewrite lookup_insert_eq in Ha;
          rewrite lookup_insert_eq in Hr; rewrite lookup_insert_eq in Hd;
          rewrite lookup_insert_eq in Ho'.
        unfold slot_holds. rewrite Ho, Ha, Hr, Hd, Ho', E1, E2, E3, E4, E5.
        split_and!; eauto.
      * destruct (Hslots i key' Hi) as (cur & want & ? & Hw & ?).
        exists cur, want. split_and!; [done| |done].
        by rewrite <-Nat.add_succ_comm.
    + intros x Hx. destruct (Hkept x) as (Ho & Ha & Hr & Hd & Ho').
      { intros i Hi. rewrite Nat.add_succ_comm. apply Hx. simpl. lia. }
      assert (s0 ≠ x) as Hne.
      { intros ->. apply (Hx 0%nat); [simpl; lia|]. by rewrite Nat.add_0_r. }
      cbn [observation action reward discount next_observation]
        in Ho, Ha, Hr, Hd, Ho'.
      rewrite lookup_insert_ne in Ho by done; rewrite lookup_insert_ne in Ha by done;
        rewrite lookup_insert_ne in Hr by done; rewrite lookup_insert_ne in Hd by done;
        rewrite lookup_insert_ne in Ho' by done.
      done.
Qed.

Lemma reindex_ok tr tna agents a_i req new :
  (∀ key, key ∈ req → ∃ cur, tna !! key = Some cur ∧
     is_Some (observation tr !! cur) ∧ is_Some (action tr !! cur) ∧
     is_Some (reward tr !! cur) ∧ is_Some (discount tr !! cur) ∧
     is_Some (next_observation tr !! cur)) →
  (a_i + length req ≤ length agents)%nat →
  ∃ out, reindex tr tna agents a_i req new = inr out.
Proof.
  revert a_i new. induction req as [|key req IH]; intros a_i new Hkeys Hlen; simpl.
  - eauto.
  - destruct (Hkeys key) as (cur & Hcur & [o Ho] & [a Ha] & [r Hr] & [d Hd] & [o' Ho']);
      [set_solver|].
    destruct (lookup_lt_is_Some_2 agents a_i) as [want Hwant]; [simpl in Hlen; lia|].
    unfold getitem, index.
    rewrite Hcur; cbn [res_bind]. rewrite Hwant; cbn [res_bind].
    rewrite Ho; cbn [res_bind]. rewrite Ha; cbn [res_bind].
    rewrite Hr; cbn [res_bind]. rewrite Hd; cbn [res_bind].
    rewrite Ho'; cbn [res_bind].
    apply IH; [intros; apply Hkeys; set_solver|simpl in Hlen; lia].
Qed.

Lemma reindex_not_validation tr tna agents a_i req new ks :
  reindex tr tna agents a_i req new ≠ inl (ValidationError ks).
Proof.
  revert a_i new. induction req as [|key req IH]; intros a_i new; simpl; [done|].
  unfold getitem, index.
  repeat (match goal with |- context [match ?x with _ => _ end] =>
            destruct x; simpl; try done end).
Qed.

(** *** One table *)

Lemma table_config_not_validation cfg table ks :
  table_config cfg table ≠ inl (ValidationError ks).
Proof. destruct cfg; simpl; [apply getitem_not_validation|done]. Qed.

Lemma trans_nets_agent_not_validation nk agents acc ks :
  trans_nets_agent nk agents acc ≠ inl (ValidationError ks).
Proof.
  revert acc. induction agents as [|a agents IH]; intros acc; simpl; [done|].
  unfold getitem. destruct (nk !! a); simpl; [apply IH|done].
Qed.

Lemma table_accepts_not_validation cfg tna table ks :
  table_accepts cfg tna table ≠ inl (ValidationError ks).
Proof.
  unfold table_accepts. destruct (negb (truthy cfg)); [done|].
  pose proof (table_config_not_validation cfg table ks).
  destruct (table_config cfg table); simpl; congruence.
Qed.

(** What a pass of the loop body does: it raises something other than a
    [ValidationError] and leaves the writer as it was, or it skips the
    table, or it submits the reindexed transition. *)
Lemma write_table_cases cfg tr table (prio : Prio) created w :
  (∃ e, _write_table cfg tr table prio created w = (inl e, w) ∧
        ∀ ks, e ≠ ValidationError ks) ∨
  (_write_table cfg tr table prio created w = (inr created, w) ∧
   skipped cfg tr table) ∨
  (∃ new, routed cfg tr table new ∧
          _write_table cfg tr table prio created w =
          (inr true, with_item w (mkItem table prio new))).
Proof.
  unfold _write_table, se_bind, se_lift.
  destruct (getitem (extras tr) "network_keys") as [e|nk] eqn:Hnk.
  { left. exists e. split; [done|]. intros ks ->.
    by eapply getitem_not_validation. }
  apply getitem_inr in Hnk. fold (agents_of tr).
  destruct (trans_nets_agent nk (agents_of tr) ∅) as [e|tna] eqn:Htna.
  { left. exists e. split; [done|]. intros ks ->.
    by eapply trans_nets_agent_not_validation. }
  destruct (table_accepts cfg tna table) as [e|[|]] eqn:Hacc.
  { left. exists e. split; [done|]. intros ks ->.
    by eapply table_accepts_not_validation. }
  2:{ right; left. split; [done|]. by exists nk, tna. }
  destruct (table_config cfg table) as [e|req] eqn:Hreq.
  { left. exists e. split; [done|]. intros ks ->.
    by eapply table_config_not_validation. }
  destruct (reindex tr tna (agents_of tr) 0 req empty_transition) as [e|new] eqn:Hnew.
  { left. exists e. split; [done|]. intros ks ->.
    by eapply reindex_not_validation. }
  right; right. exists new. split; [|done]. by exists nk, tna, req.
Qed.

(** A table is accepted exactly when it matches. *)
Lemma is_Some_nets_agent tr nk tna key :
  extras tr !! "network_keys" = Some nk →
  trans_nets_agent nk (agents_of tr) ∅ = inr tna →
  is_Some (tna !! key) ↔ assigned tr key.
Proof.
  intros Hnk Htna. split.
  - intros [agent Hagent]. rewrite (trans_nets_agent_last _ _ _ _ _ Htna) in Hagent.
    apply last_with_key_elem in Hagent as [Hin ?].
    apply elem_of_agents_of in Hin. by exists nk, agent.
  - intros (nk' & agent & ? & Hact & ?). simplify_eq.
    destruct (last_with_key_exists nk (agents_of tr) key) as [last Hlast].
    { exists agent. by rewrite elem_of_agents_of. }
    exists last. by rewrite (trans_nets_agent_last _ _ _ _ _ Htna).
Qed.

Lemma table_accepts_matched tr nk tna c table :
  extras tr !! "network_keys" = Some nk →
  trans_nets_agent nk (agents_of tr) ∅ = inr tna →
  truthy (Some c) = true →
  (table_accepts (Some c) tna table = inr true ↔ matched (Some c) tr table) ∧
  (table_accepts (Some c) tna table = inr false ↔
     is_Some (c !! table) ∧ ¬ matched (Some c) tr table).
Proof.
  intros Hnk Htna Htruthy. unfold table_accepts. rewrite Htruthy.
  unfold matched, table_config, getitem. cbn [negb]. destruct (c !! table) as [req|] eqn:Hreq; simpl.
  - assert (forallb (λ elem, bool_decide (is_Some (tna !! elem))) req = true ↔
            ∀ key, key ∈ req → assigned tr key) as Hall.
    { rewrite forallb_forall. setoid_rewrite <-list_elem_of_In.
      setoid_rewrite bool_decide_eq_true.
      by setoid_rewrite (is_Some_nets_agent tr nk tna). }
    split; split.
    + intros [= H]. exists c, req. split_and!; [done..|]. by apply Hall.
    + intros (c' & req' & ? & ? & ?). simplify_eq. f_equal. by apply Hall.
    + intros [= H]. split; [eauto|]. intros (c' & req' & ? & ? & ?). simplify_eq.
      assert (forallb (λ elem, bool_decide (is_Some (tna !! elem))) req = true)
        by by apply Hall.
      congruence.
    + intros [_ Hno]. f_equal. apply not_true_is_false. intros H. apply Hno.
      exists c, req. split_and!; [done..|]. by apply Hall.
  - split; split; try done.
    + intros (c' & req' & ? & ? & ?). simplify_eq.
    + intros [[] _]. done.
Qed.

(** *** The inputs *)

Lemma routing_inputs_keys cfg (fns : list (string * (Tr → Prio))) tr :
  routing_inputs cfg fns tr →
  ∃ nk, extras tr !! "network_keys" = Some nk ∧
        ∀ agent, is_Some (action tr !! agent) → is_Some (nk !! agent).
Proof.
  intros (_ & (nk & Hnk & Hsub) & _). exists nk. split; [done|].
  intros agent Hagent. by apply elem_of_dom, Hsub, elem_of_dom.
Qed.

Lemma routing_inputs_tables c (fns : list (string * (Tr → Prio))) tr table :
  routing_inputs (Some c) fns tr → table ∈ fns.*1 → is_Some (c !! table).
Proof.
  intros (_ & _ & Hall) Hin. specialize (Hall c eq_refl).
  rewrite Forall_forall in Hall. by apply Hall.
Qed.

Lemma complete_inputs_fields cfg tr agent :
  complete_inputs cfg tr → is_Some (action tr !! agent) →
  is_Some (observation tr !! agent) ∧ is_Some (reward tr !! agent) ∧
  is_Some (discount tr !! agent) ∧ is_Some (next_observation tr !! agent).
Proof.
  intros (Ho & Hr & Hd & Ho' & _) Ha%elem_of_dom.
  split_and!; apply elem_of_dom; set_solver.
Qed.

Lemma complete_inputs_length c tr table req :
  complete_inputs (Some c) tr → c !! table = Some req →
  (length req ≤ length (agents_of tr))%nat.
Proof. intros (_ & _ & _ & _ & Hlen) Hreq. by apply (Hlen c eq_refl table req). Qed.

(** *** The loop over the tables *)

Lemma write_table_skipped cfg tr table (prio : Prio) created w :
  skipped cfg tr table →
  _write_table cfg tr table prio created w = (inr created, w).
Proof.
  intros (nk & tna & Hnk & Htna & Hacc).
  unfold _write_table, se_bind, se_lift, getitem. rewrite Hnk.
  fold (agents_of tr). by rewrite Htna, Hacc.
Qed.

Lemma write_tables_skipped cfg tr (tps : list (string * Prio)) created w :
  (∀ table, table ∈ tps.*1 → skipped cfg tr table) →
  _write_tables cfg tr tps created w = (inr created, w).
Proof.
  induction tps as [|[table prio] tps IH]; intros Hskip; simpl; [done|].
  unfold se_bind. rewrite write_table_skipped by (apply Hskip; set_solver).
  apply IH. intros; apply Hskip; set_solver.
Qed.

(** The writer only gains items, each one the reindexed transition of a
    table that accepted it, and the loop raises no [ValidationError]. *)
Lemma write_tables_sound cfg tr (tps : list (string * Prio)) created w :
  ∃ r new_items,
    _write_tables cfg tr tps created w =
      (r, mkWriter (episode_steps w) (history w) (items w ++ new_items) (flushes w)) ∧
    Forall (λ it : It, (item_table it, item_priority it) ∈ tps ∧
                       routed cfg tr (item_table it) (item_trajectory it)) new_items ∧
    (∀ ks, r ≠ inl (ValidationError ks)) ∧
    (r = inr false → created = false ∧ new_items = [] ∧
                     ∀ table, table ∈ tps.*1 → skipped cfg tr table) ∧
    (created = true → ∀ b, r = inr b → b = true).
Proof.
  revert created w. induction tps as [|[table prio] tps IH]; intros created w; simpl.
  - exists (inr created), []. rewrite app_nil_r. destruct w.
    split_and!; [done|constructor|done| |naive_solver].
    intros [= <-]. split_and!; [done..|set_solver].
  - unfold se_bind.
    destruct (write_table_cases cfg tr table prio created w)
      as [(e & -> & He)|[[-> Hskip]|(new & Hnew & ->)]].
    + exists (inl e), []. rewrite app_nil_r. destruct w.
      split_and!; [done|constructor| |done..]. intros ks [= ->]. by eapply He.
    + destruct (IH created w) as (r & new_items & -> & Hitems & Hval & Hfalse & Htrue).
      exists r, new_items. split_and!; [done| |done| |done].
      * eapply Forall_impl; [done|]. intros it [? ?]. split; [set_solver|done].
      * intros Hr. destruct (Hfalse Hr) as (? & ? & Hall). split_and!; [done..|].
        intros t [->|?]%elem_of_cons; [done|eauto].
    + destruct (IH true (with_item w (mkItem table prio new)))
        as (r & new_items & -> & Hitems & Hval & Hfalse & Htrue).
      exists r, (mkItem table prio new :: new_items). simpl.
      rewrite <-(assoc_L (++)). split_and!; [done| |done| |].
      * constructor; [split; [set_solver|done]|].
        eapply Forall_impl; [done|]. intros it [? ?]. split; [set_solver|done].
      * intros Hr. by destruct (Hfalse Hr).
      * intros _ b ->. by apply Htrue.
Qed.

Lemma skipped_unmatched tr c table :
  truthy (Some c) = true →
  skipped (Some c) tr table ↔
  (∃ nk, extras tr !! "network_keys" = Some nk ∧
         ∀ agent, is_Some (action tr !! agent) → is_Some (nk !! agent)) ∧
  is_Some (c !! table) ∧ ¬ matched (Some c) tr table.
Proof.
  intros Htruthy. split.
  - intros (nk & tna & Hnk & Htna & Hacc).
    apply (table_accepts_matched tr nk tna c table) in Hacc as [? ?]; [|done..].
    split_and!; [|done..]. exists nk. split; [done|].
    intros agent Hagent. apply trans_nets_agent_inv in Htna as [Hall _].
    by apply Hall, elem_of_agents_of.
  - intros [(nk & Hnk & Hall) Hno].
    destruct (trans_nets_agent_ok nk (agents_of tr) ∅) as [tna Htna].
    { intros agent ?%elem_of_agents_of. eauto. }
    exists nk, tna. split_and!; [done..|].
    by apply (table_accepts_matched tr nk tna c table).
Qed.

(** With complete inputs no table raises, and every table that matches
    receives an item. *)
Lemma write_tables_complete tr c (tps : list (string * Prio)) created w :
  truthy (Some c) = true →
  (∃ nk, extras tr !! "network_keys" = Some nk ∧
         ∀ agent, is_Some (action tr !! agent) → is_Some (nk !! agent)) →
  (∀ table, table ∈ tps.*1 → is_Some (c !! table)) →
  complete_inputs (Some c) tr →
  ∃ b new_items,
    _write_tables (Some c) tr tps created w =
      (inr b, mkWriter (episode_steps w) (history w) (items w ++ new_items)
                (flushes w)) ∧
    (∀ table prio, (table, prio) ∈ tps → matched (Some c) tr table →
       ∃ it, it ∈ new_items ∧ item_table it = table ∧ item_priority it = prio) ∧
    ((∃ table, table ∈ tps.*1 ∧ matched (Some c) tr table) → b = true).
Proof.
  intros Htruthy (nk & Hnk & Hall) Htables Hcomplete.
  destruct (trans_nets_agent_ok nk (agents_of tr) ∅) as [tna Htna].
  { intros agent ?%elem_of_agents_of. eauto. }
  revert created w. induction tps as [|[table prio] tps IH]; intros created w; simpl.
  - exists created, []. rewrite app_nil_r. destruct w.
    split_and!; [done|set_solver|set_solver].
  - unfold se_bind.
    destruct (Htables table) as [req Hreq]; [set_solver|].
    destruct (table_accepts_matched tr nk tna c table Hnk Htna Htruthy) as [Hyes Hno].
    destruct (table_accepts (Some c) tna table) as [e|[|]] eqn:Hacc.
    + exfalso. unfold table_accepts in Hacc. rewrite Htruthy in Hacc.
      unfold table_config, getitem in Hacc. by rewrite Hreq in Hacc.
    + (* the table accepts *)
      destruct (reindex_ok tr tna (agents_of tr) 0 req empty_transition) as [new Hnew].
      { intros key Hkey. destruct (proj1 Hyes eq_refl) as (c' & req' & ? & ? & Hass).
        simplify_eq. apply Hass in Hkey.
        apply (is_Some_nets_agent tr nk tna key Hnk Htna) in Hkey as [cur Hcur].
        exists cur. split; [done|].
        rewrite (trans_nets_agent_last _ _ _ _ _ Htna) in Hcur.
        apply last_with_key_elem in Hcur as [Hin%elem_of_agents_of _].
        destruct (complete_inputs_fields _ tr cur Hcomplete Hin) as (? & ? & ? & ?).
        done. }
      { simpl. by eapply complete_inputs_length. }
      assert (_write_table (Some c) tr table prio created w =
              (inr true, with_item w (mkItem table prio new))) as ->.
      { unfold _write_table, se_bind, se_lift, getitem. rewrite Hnk.
        fold (agents_of tr). rewrite Htna, Hacc.
        unfold table_config, getitem. rewrite Hreq. by rewrite Hnew. }
      destruct (IH (λ t Ht, Htables t ltac:(set_solver)) true
                  (with_item w (mkItem table prio new)))
        as (b & new_items & Hrun & Hitems & Hb).
      rewrite Hrun. exists b, (mkItem table prio new :: new_items). simpl.
      rewrite <-(assoc_L (++)). split_and!; [done| |].
      * intros t p [[= -> ->]|Hin]%elem_of_cons Hm.
        -- exists (mkItem table prio new). split; [set_solver|done].
        -- destruct (Hitems t p Hin Hm) as (it & ? & ?). exists it. set_solver.
      * intros _. destruct (write_tables_sound (Some c) tr tps true
                              (with_item w (mkItem table prio new)))
          as (r & ni & Heq & _ & _ & _ & Htrue).
        rewrite Hrun in Heq. simplify_eq. by apply Htrue.
    + (* the table is skipped *)
      rewrite write_table_skipped by by exists nk, tna.
      destruct (IH (λ t Ht, Htables t ltac:(set_solver)) created w)
        as (b & new_items & -> & Hitems & Hb).
      exists b, new_items. split_and!; [done| |].
      * intros t p [[= -> ->]|Hin]%elem_of_cons Hm; [|eauto].
        apply Hyes in Hm. discriminate.
      * intros (t & [->|Hin]%elem_of_cons & Hm).
        -- apply Hyes in Hm. discriminate.
        -- apply Hb. eauto.
Qed.

(** *** What a routed transition is *)

Lemma routed_inv cfg tr table new :
  routed cfg tr table new →
  ∃ c req nk,
    cfg = Some c ∧ c !! table = Some req ∧
    extras tr !! "network_keys" = Some nk ∧
    matched cfg tr table ∧
    slots_filled (last_with_key nk (agents_of tr)) tr new req ∧
    (∀ x, (∀ i, (i < length req)%nat → agents_of tr !! i ≠ Some x) →
          slot_kept empty_transition new x).
Proof.
  intros (nk & tna & req & Hnk & Htna & Hacc & Hreq & Hnew).
  destruct cfg as [c|]; [|done]. simpl in Hreq. apply getitem_inr in Hreq.
  assert (truthy (Some c) = true) as Htruthy.
  { simpl. apply negb_true_iff, bool_decide_eq_false.
    intros ->. by rewrite lookup_empty in Hreq. }
  apply (table_accepts_matched tr nk tna c table Hnk Htna Htruthy) in Hacc.
  apply reindex_inv in Hnew as (_ & _ & Hslots & Hkept); [|apply NoDup_agents_of].
  exists c, req, nk. split_and!; [done..| |done].
  intros i key Hi. destruct (Hslots i key Hi) as (cur & want & Hcur & Hwant & Hholds).
  exists cur, want. split_and!; [|done..].
  by rewrite <-(trans_nets_agent_last _ _ _ _ _ Htna).
Qed.

(** *** Agents that share a network key *)

Lemma NoDup_split_eq (l1 l2 k1 k2 : list string) (x : string) :
  NoDup (l1 ++ x :: k1) → l1 ++ x :: k1 = l2 ++ x :: k2 → k1 = k2.
Proof.
  revert l2. induction l1 as [|y l1 IH]; intros [|z l2] Hnd Heq; simplify_eq/=.
  - done.
  - apply NoDup_cons in Hnd as [Hx _]. destruct Hx. set_solver.
  - apply NoDup_cons in Hnd as [Hx _]. destruct Hx. set_solver.
  - apply NoDup_cons in Hnd as [_ Hnd]. eauto.
Qed.

Lemma last_with_key_not_shadowed nk agents key agent :
  NoDup agents → last_with_key nk agents key agent → ¬ shadowed nk agents agent.
Proof.
  intros Hnd (before & after & -> & Hkey & Hlast)
    (key' & before' & after' & later & Heq & Hkey' & Hin & Hlater).
  simplify_eq. apply NoDup_split_eq in Heq as ->; [|done]. by eapply Hlast.
Qed.

Lemma reindex_ext tr tr' tna agents a_i req new :
  (∀ key cur, tna !! key = Some cur → same_data tr tr' cur) →
  reindex tr' tna agents a_i req new = reindex tr tna agents a_i req new.
Proof.
  intros Hsame. revert a_i new.
  induction req as [|key req IH]; intros a_i new; cbn [reindex]; [done|].
  destruct (getitem tna key) as [e|cur] eqn:Hcur; cbn [res_bind]; [done|].
  apply getitem_inr in Hcur.
  destruct (index agents a_i) as [|want]; cbn [res_bind]; [done|].
  destruct (Hsame key cur Hcur) as (Ho & Ha & Hr & Hd & Ho').
  unfold getitem. rewrite Ho, Ha, Hr, Hd, Ho'.
  destruct (observation tr !! cur); cbn [res_bind]; [|done].
  destruct (action tr !! cur); cbn [res_bind]; [|done].
  destruct (reward tr !! cur); cbn [res_bind]; [|done].
  destruct (discount tr !! cur); cbn [res_bind]; [|done].
  destruct (next_observation tr !! cur); cbn [res_bind]; [|done].
  apply IH.
Qed.

Lemma agents_of_ext tr tr' :
  dom (action tr') = dom (action tr) → agents_of tr' = agents_of tr.
Proof. unfold agents_of. by intros ->. Qed.

Lemma write_tables_ext nk cfg tr tr' (tps : list (string * Prio)) created w :
  extras tr !! "network_keys" = Some nk →
  differ_on_shadowed nk tr tr' →
  _write_tables cfg tr' tps created w = _write_tables cfg tr tps created w.
Proof.
  intros Hnk (Hex & Hdom & Hsame). revert created w.
  induction tps as [|[table prio] tps IH]; intros created w; simpl; [done|].
  unfold se_bind.
  assert (_write_table cfg tr' table prio created w =
          _write_table cfg tr table prio created w) as ->;
    [|destruct _write_table as [[|] ?]; [done|apply IH]].
  unfold _write_table, se_bind, se_lift. rewrite Hex.
  destruct (getitem (extras tr) "network_keys") as [|nk'] eqn:Hg; [done|].
  apply getitem_inr in Hg. simplify_eq.
  fold (agents_of tr) (agents_of tr'). rewrite (agents_of_ext tr tr' Hdom).
  destruct (trans_nets_agent nk (agents_of tr) ∅) as [|tna] eqn:Htna; [done|].
  destruct (table_accepts cfg tna table) as [|[|]]; [done| |done].
  destruct (table_config cfg table) as [|req]; [done|].
  rewrite (reindex_ext tr tr'); [done|].
  intros key cur Hcur. apply Hsame.
  apply (last_with_key_not_shadowed nk _ key); [apply NoDup_agents_of|].
  by rewrite <-(trans_nets_agent_last _ _ _ _ _ Htna).
Qed.

End RoutingFacts.

(** ** [_write] *)

Section WriteFacts.
Context {Client Obs Act Rew Disc Prio Gamma History : Type}.
Variable window_transition : Gamma → Z → Z → History → Res (@Transition Obs Act Rew Disc).
Variable append_derived : gmap string Rew → gmap string Disc → bool → History → History.

Local Abbreviation Tr := (@Transition Obs Act Rew Disc).
Local Abbreviation Wr := (@Writer Obs Act Rew Disc Prio History).
Local Abbreviation It := (@Item Obs Act Rew Disc Prio).
Local Abbreviation Ad := (@Adder Client Obs Act Rew Disc Prio Gamma History).
Local Abbreviation write := (@_write Client Obs Act Rew Disc Prio Gamma History
                               window_transition append_derived).

Implicit Types (tr new : Tr) (w : Wr) (self : Ad) (cfg : option TableNetConfig).
Implicit Types (fns : list (string * (Tr → Prio))).

(** The window that [_write] reads. *)
Local Abbreviation window_of self :=
  (window_transition (_discount self) (_first_idx self) (_last_idx self)
     (history (_writer self))).

Lemma calculate_priorities_tables fns tr : (calculate_priorities fns tr).*1 = fns.*1.
Proof. unfold calculate_priorities. rewrite <-list_fmap_compose. done. Qed.

Lemma write_insert_cases cfg fns (mif : Z) tr w :
  ∃ r new_items fl,
    _write_insert cfg fns mif tr w =
      (r, mkWriter (episode_steps w) (history w) (items w ++ new_items)
            (flushes w ++ fl)) ∧
    Forall (λ it : It, item_table it ∈ fns.*1 ∧
                       routed cfg tr (item_table it) (item_trajectory it)) new_items ∧
    (∀ ks, r = inl (ValidationError ks) →
       ks = dom (action tr) ∧ new_items = [] ∧
       ∀ table, table ∈ fns.*1 → skipped cfg tr table) ∧
    ((∀ table, table ∈ fns.*1 → skipped cfg tr table) →
       r = inl (ValidationError (dom (action tr))) ∧ new_items = []).
Proof.
  unfold _write_insert, se_bind.
  destruct (write_tables_sound (History := History) cfg tr
              (calculate_priorities fns tr) false w)
    as (r & new_items & Heq & Hitems & Hval & Hfalse & _).
  rewrite calculate_priorities_tables in Hfalse.
  assert (Forall (λ it : It, item_table it ∈ fns.*1 ∧
            routed cfg tr (item_table it) (item_trajectory it)) new_items) as Hitems'.
  { eapply Forall_impl; [done|]. intros it [Hin ?]. split; [|done].
    rewrite <-(calculate_priorities_tables fns tr).
    apply list_elem_of_fmap. by eexists (_, _). }
  rewrite Heq. destruct r as [e|[|]]; simpl.
  - exists (inl e), new_items, []. rewrite app_nil_r.
    split_and!; [done..| |].
    + intros ks [= ->]. by destruct (Hval ks).
    + intros Hskip. rewrite write_tables_skipped in Heq; [congruence|].
      by rewrite calculate_priorities_tables.
  - exists (inr tt), new_items, [mif]. split_and!; [done..| |].
    + intros ks [=].
    + intros Hskip. rewrite write_tables_skipped in Heq; [congruence|].
      by rewrite calculate_priorities_tables.
  - destruct (Hfalse eq_refl) as (_ & -> & Hskip).
    exists (inl (ValidationError (dom (action tr)))), [], [mif].
    split_and!; [done..| |done]. intros ks [= <-]. done.
Qed.

(** When the window can be read, [_write] logs it, appends the derived
    fields and inserts the transition. *)
Lemma write_unfold self tr :
  window_of self = inr tr →
  write self =
  let partial_step := episode_steps (_writer self) <=? _last_idx self in
  let w := append (append_derived (reward tr) (discount tr) partial_step)
             partial_step (_writer self) in
  ((_write_insert (_table_net_config self) (_priority_fns self)
      (_max_in_flight_items self) tr w).1,
   set_writer (_write_insert (_table_net_config self) (_priority_fns self)
                 (_max_in_flight_items self) tr w).2 (log_window self)).
Proof. intros Hwin. unfold _write. rewrite Hwin. simpl. by destruct _write_insert. Qed.

(** The items that a call of [_write] adds. *)
Lemma write_items self tr :
  window_of self = inr tr →
  ∃ new_items,
    items (_writer (write self).2) = items (_writer self) ++ new_items ∧
    Forall (λ it : It, item_table it ∈ (_priority_fns self).*1 ∧
              routed (_table_net_config self) tr (item_table it) (item_trajectory it))
      new_items ∧
    (∀ ks, (write self).1 = inl (ValidationError ks) →
       ks = dom (action tr) ∧ new_items = [] ∧
       ∀ table, table ∈ (_priority_fns self).*1 →
                skipped (_table_net_config self) tr table) ∧
    ((∀ table, table ∈ (_priority_fns self).*1 →
               skipped (_table_net_config self) tr table) →
       (write self).1 = inl (ValidationError (dom (action tr))) ∧ new_items = []).
Proof.
  intros Hwin. rewrite (write_unfold self tr Hwin). cbn zeta.
  match goal with |- context [_write_insert ?c ?f ?m ?t ?w] =>
    destruct (write_insert_cases c f m t w) as (r & new_items & fl & Heq & H1 & H2 & H3)
  end.
  rewrite Heq. simpl. eauto.
Qed.

Lemma write_raises_window self e :
  window_of self = inl e → write self = (inl e, self).
Proof. intros Hwin. unfold _write. by rewrite Hwin. Qed.

Lemma matched_truthy cfg tr table : matched cfg tr table → truthy cfg = true.
Proof.
  intros (c & req & -> & Hreq & _). simpl. apply negb_true_iff, bool_decide_eq_false.
  intros ->. by rewrite lookup_empty in Hreq.
Qed.

Lemma skipped_truthy cfg tr table : skipped cfg tr table → truthy cfg = true.
Proof.
  intros (nk & tna & _ & _ & Hacc). unfold table_accepts in Hacc.
  by destruct (truthy cfg).
Qed.

Lemma write_insert_complete c fns (mif : Z) tr w :
  truthy (Some c) = true →
  routing_inputs (Some c) fns tr →
  complete_inputs (Some c) tr →
  ∃ r new_items fl,
    _write_insert (Some c) fns mif tr w =
      (r, mkWriter (episode_steps w) (history w) (items w ++ new_items)
            (flushes w ++ fl)) ∧
    (∀ table, table ∈ fns.*1 → matched (Some c) tr table →
       ∃ it : It, it ∈ new_items ∧ item_table it = table) ∧
    ((∃ table, table ∈ fns.*1 ∧ matched (Some c) tr table) → r = inr tt).
Proof.
  intros Htruthy Hinp Hcomplete.
  unfold _write_insert, se_bind.
  destruct (write_tables_complete (History := History) tr c
              (calculate_priorities fns tr) false w) as (b & new_items & Heq & Hitems & Hb);
    [done|by eapply routing_inputs_keys| |done|].
  { rewrite calculate_priorities_tables. intros table.
    by apply (routing_inputs_tables c fns tr). }
  rewrite Heq. simpl.
  exists (if b then inr tt else inl (ValidationError (dom (action tr)))), new_items, [mif].
  split_and!.
  - by destruct b.
  - intros table [[t f] [-> Hin]]%list_elem_of_fmap Hm.
    destruct (Hitems t (f tr)) as (it & ? & ? & ?); [|done|by exists it].
    unfold calculate_priorities. apply list_elem_of_fmap. by exists (t, f).
  - intros Hex. rewrite Hb; [done|]. by rewrite calculate_priorities_tables.
Qed.

(** C3.  On the inputs of the routing, [_write] raises the
    [ValidationError] that names the agents of the transition exactly when
    the configuration is set and no table matches; the items are then as
    they were.  When a table matches, [_write] raises no [ValidationError],
    and with complete inputs it returns. *)
Theorem write_validation_error_iff self tr :
  window_transition (_discount self) (_first_idx self) (_last_idx self)
    (history (_writer self)) = inr tr →
  routing_inputs (_table_net_config self) (_priority_fns self) tr →
  let result := _write window_transition append_derived self in
  (result.1 = inl (ValidationError (dom (action tr))) ↔
     truthy (_table_net_config self) = true ∧
     ∀ table, table ∈ (_priority_fns self).*1 →
              ¬ matched (_table_net_config self) tr table) ∧
  (∀ ks, result.1 = inl (ValidationError ks) →
     ks = dom (action tr) ∧ items (_writer result.2) = items (_writer self)) ∧
  ((∃ table, table ∈ (_priority_fns self).*1 ∧
             matched (_table_net_config self) tr table) →
     (∀ ks, result.1 ≠ inl (ValidationError ks)) ∧
     (complete_inputs (_table_net_config self) tr → result.1 = inr tt)).
Proof.
  intros Hwin Hin result. subst result. pose proof Hin as (Hne & _ & _).
  pose proof (routing_inputs_keys _ _ _ Hin) as Hnk.
  destruct (write_items self tr Hwin) as (new_items & Hitems & Hrouted & Hval & Hskip).
  assert (∀ ks, (write self).1 = inl (ValidationError ks) →
            truthy (_table_net_config self) = true ∧
            ∀ table, table ∈ (_priority_fns self).*1 →
                     ¬ matched (_table_net_config self) tr table) as Honly.
  { intros ks Hks. destruct (Hval ks Hks) as (_ & _ & Hall).
    destruct (_priority_fns self) as [|[t f] fns] eqn:Hfns; [done|].
    assert (truthy (_table_net_config self) = true) as Htruthy.
    { eapply (skipped_truthy _ tr t), Hall. set_solver. }
    split; [done|]. intros table Htable.
    destruct (_table_net_config self) as [c|]; [|done].
    by apply (skipped_unmatched tr c table Htruthy), Hall. }
  split_and!.
  - split; [apply Honly|]. intros [Htruthy Hno].
    apply Hskip. intros table Htable.
    destruct (_table_net_config self) as [c|] eqn:Hcfg; [|done].
    apply (skipped_unmatched tr c table Htruthy).
    split_and!; [done|by apply (routing_inputs_tables c (_priority_fns self) tr)|by apply Hno].
  - intros ks Hks. destruct (Hval ks Hks) as (-> & -> & _).
    by rewrite app_nil_r in Hitems.
  - intros (table & Htable & Hm). split.
    + intros ks Hks. destruct (Honly ks Hks) as [_ Hno]. by eapply Hno.
    + intros Hcomplete. pose proof (matched_truthy _ _ _ Hm) as Htruthy.
      destruct (_table_net_config self) as [c|] eqn:Hcfg; [|done].
      rewrite (write_unfold self tr Hwin). cbn zeta. rewrite Hcfg.
      match goal with |- context [_write_insert _ ?f ?m ?t ?w] =>
        destruct (write_insert_complete c f m t w Htruthy Hin Hcomplete)
          as (r & ni & fl & Heq & _ & Hr)
      end.
      rewrite Heq. simpl. apply Hr. eauto.
Qed.

(** C4 (what the code does).  Without a configuration, on the inputs of the
    routing, [_write] raises a [TypeError] at the first table, where line
    245 subscripts [None], and no table receives an item. *)
Theorem write_without_config_raises self tr :
  window_transition (_discount self) (_first_idx self) (_last_idx self)
    (history (_writer self)) = inr tr →
  _table_net_config self = None →
  routing_inputs None (_priority_fns self) tr →
  let result := _write window_transition append_derived self in
  result.1 = inl TypeError ∧ items (_writer result.2) = items (_writer self).
Proof.
  intros Hwin Hcfg Hin result. subst result. pose proof Hin as (Hne & _ & _).
  destruct (routing_inputs_keys _ _ _ Hin) as (nk & Hnk & Hall).
  rewrite (write_unfold self tr Hwin). cbn zeta. rewrite Hcfg.
  destruct (_priority_fns self) as [|[t f] fns]; [done|].
  destruct (trans_nets_agent_ok nk (agents_of tr) ∅) as [tna Htna].
  { intros agent ?%elem_of_agents_of. eauto. }
  unfold _write_insert, se_bind. simpl. unfold se_bind.
  unfold _write_table, se_bind, se_lift, getitem. rewrite Hnk.
  fold (agents_of tr). rewrite Htna. simpl. done.
Qed.

(** C9.  Every transition that [_write] submits to a table has empty
    [extras] and [next_extras]. *)
Theorem routed_transition_without_extras self :
  let result := _write window_transition append_derived self in
  ∃ new_items,
    items (_writer result.2) = items (_writer self) ++ new_items ∧
    Forall (λ it : It, extras (item_trajectory it) = ∅ ∧
                       next_extras (item_trajectory it) = ∅) new_items.
Proof.
  intros result. subst result.
  destruct (window_of self) as [e|tr] eqn:Hwin.
  - exists []. rewrite (write_raises_window self e Hwin). simpl.
    by rewrite app_nil_r.
  - destruct (write_items self tr Hwin) as (new_items & Hitems & Hrouted & _).
    exists new_items. split; [done|].
    eapply Forall_impl; [done|]. intros it [_ (nk & tna & req & _ & _ & _ & _ & Hnew)].
    apply reindex_inv in Hnew as (-> & -> & _); [done|apply NoDup_agents_of].
Qed.

(** C6.  Every item that [_write] submits goes to a table whose required
    list is set and assigned in full, and in its transition slot [i], the
    one of the [i]-th agent in sorted order, holds the observation, action,
    reward, discount and next observation of an agent to which the extras
    assign the [i]-th key of the list.  With complete inputs, every table
    that matches receives such an item. *)
Theorem routed_transition_reindexed self tr :
  window_transition (_discount self) (_first_idx self) (_last_idx self)
    (history (_writer self)) = inr tr →
  let result := _write window_transition append_derived self in
  ∃ new_items,
    items (_writer result.2) = items (_writer self) ++ new_items ∧
    Forall (λ it : It, ∃ c req nk,
              _table_net_config self = Some c ∧
              c !! item_table it = Some req ∧
              extras tr !! "network_keys" = Some nk ∧
              (∀ key, key ∈ req → assigned tr key) ∧
              slots_filled
                (λ key cur, nk !! cur = Some key ∧ is_Some (action tr !! cur))
                tr (item_trajectory it) req) new_items ∧
    (routing_inputs (_table_net_config self) (_priority_fns self) tr →
     complete_inputs (_table_net_config self) tr →
     ∀ table, table ∈ (_priority_fns self).*1 →
              matched (_table_net_config self) tr table →
              ∃ it, it ∈ new_items ∧ item_table it = table).
Proof.
  intros Hwin result. subst result.
  destruct (write_items self tr Hwin) as (new_items & Hitems & Hrouted & _).
  exists new_items. split_and!; [done| |].
  - eapply Forall_impl; [done|]. intros it [_ Hit].
    apply routed_inv in Hit as (c & req & nk & Hcfg & Hreq & Hnk & Hm & Hslots & _).
    exists c, req, nk. split_and!; [done..| |].
    + destruct Hm as (c' & req' & ? & ? & ?). by simplify_eq.
    + intros i key Hi. destruct (Hslots i key Hi) as (cur & want & Hlast & ? & ?).
      apply last_with_key_elem in Hlast as [Hin ?].
      apply elem_of_agents_of in Hin.
      exists cur, want. split; [done|]. by split.
  - intros Hin Hcomplete table Htable Hm.
    pose proof (matched_truthy _ _ _ Hm) as Htruthy.
    destruct (_table_net_config self) as [c|] eqn:Hcfg; [|done].
    rewrite (write_unfold self tr Hwin) in Hitems. cbn zeta in Hitems.
    rewrite Hcfg in Hitems.
    match type of Hitems with context [_write_insert _ ?f ?m ?t ?w] =>
      destruct (write_insert_complete c f m t w Htruthy Hin Hcomplete)
        as (r & ni & fl & Heq & Hall & _)
    end.
    rewrite Heq in Hitems. simpl in Hitems. apply app_inv_head in Hitems as <-.
    by apply Hall.
Qed.

(** C10.  The lookup from network key to agent keeps, for a key, the last
    of the sorted agents that has it.  In every item that [_write] submits,
    each slot of the required list receives the data of that agent and no
    other agent of the item holds anything; with complete inputs, every
    table that matches does receive such an item; and a transition that
    differs only in the data of agents that share their key with a later
    agent is routed to the same items. *)
Theorem shared_network_key_keeps_last_agent self tr nk :
  window_transition (_discount self) (_first_idx self) (_last_idx self)
    (history (_writer self)) = inr tr →
  extras tr !! "network_keys" = Some nk →
  let result := _write window_transition append_derived self in
  (∀ tna, trans_nets_agent nk (agents_of tr) ∅ = inr tna →
     ∀ key agent, tna !! key = Some agent ↔
                  last_with_key nk (agents_of tr) key agent) ∧
  (∃ new_items,
     items (_writer result.2) = items (_writer self) ++ new_items ∧
     Forall (λ it : It, ∃ req,
               table_config (_table_net_config self) (item_table it) = inr req ∧
               slots_filled (last_with_key nk (agents_of tr)) tr
                 (item_trajectory it) req ∧
               ∀ x, (∀ i, (i < length req)%nat → agents_of tr !! i ≠ Some x) →
                    slot_kept empty_transition (item_trajectory it) x) new_items ∧
     (routing_inputs (_table_net_config self) (_priority_fns self) tr →
      complete_inputs (_table_net_config self) tr →
      ∀ table, table ∈ (_priority_fns self).*1 →
               matched (_table_net_config self) tr table →
               ∃ it, it ∈ new_items ∧ item_table it = table)) ∧
  (∀ tr' (tps : list (string * Prio)) created w,
     differ_on_shadowed nk tr tr' →
     _write_tables (_table_net_config self) tr' tps created w =
     _write_tables (_table_net_config self) tr tps created w).
Proof.
  intros Hwin Hnk result. subst result. split_and!.
  - intros tna Htna key agent. by apply trans_nets_agent_last.
  - destruct (write_items self tr Hwin) as (new_items & Hitems & Hrouted & _).
    exists new_items. split_and!; [done| |].
    + eapply Forall_impl; [done|]. intros it [_ Hit].
      apply routed_inv in Hit
        as (c & req & nk' & Hcfg & Hreq & Hnk' & _ & Hslots & Hkept).
      simplify_eq. exists req. split_and!; [|done..].
      rewrite Hcfg. simpl. unfold getitem. by rewrite Hreq.
    + intros Hin Hcomplete table Htable Hm.
      pose proof (matched_truthy _ _ _ Hm) as Htruthy.
      destruct (_table_net_config self) as [c|] eqn:Hcfg; [|done].
      rewrite (write_unfold self tr Hwin) in Hitems. cbn zeta in Hitems.
      rewrite Hcfg in Hitems.
      match type of Hitems with context [_write_insert _ ?f ?m ?t ?w] =>
        destruct (write_insert_complete c f m t w Htruthy Hin Hcomplete)
          as (r & ni & fl & Heq & Hall & _)
      end.
      rewrite Heq in Hitems. simpl in Hitems. apply app_inv_head in Hitems as <-.
      by apply Hall.
  - intros tr' tps created w Hdiff. by eapply write_tables_ext.
Qed.

End WriteFacts.

(** ** The window pointers *)

Section PointerFacts.
Context {Client Obs Act Rew Disc Prio Step Gamma History : Type}.
Variable window_transition : Gamma → Z → Z → History → Res (@Transition Obs Act Rew Disc).
Variable append_derived : gmap string Rew → gmap string Disc → bool → History → History.
Variable buffer_step : Step → History → History.
Variable empty_history : History.
Variable default_priority_fns : list (string * (@Transition Obs Act Rew Disc → Prio)).

Local Abbreviation Tr := (@Transition Obs Act Rew Disc).
Local Abbreviation Ad := (@Adder Client Obs Act Rew Disc Prio Gamma History).
Local Abbreviation write := (@_write Client Obs Act Rew Disc Prio Gamma History
                               window_transition append_derived).
Local Abbreviation add_step :=
  (@add Client Obs Act Rew Disc Prio Step Gamma History
     window_transition append_derived buffer_step).
Local Abbreviation do_reset :=
  (@reset Client Obs Act Rew Disc Prio Gamma History empty_history).
Local Abbreviation reach :=
  (@reachable Client Obs Act Rew Disc Prio Step Gamma History
     window_transition append_derived buffer_step empty_history).
Local Abbreviation init :=
  (@__init__ Client Obs Act Rew Disc Prio Gamma History
     empty_history default_priority_fns).

Implicit Types (self : Ad) (step : Step).

(** [_write] leaves the pointers and the setup alone; when it can read the
    window, it logs it and appends the derived fields as a partial step
    unless the writer has counted more steps than [last_idx]. *)
Lemma write_frame self :
  _first_idx (write self).2 = _first_idx self ∧
  _last_idx (write self).2 = _last_idx self ∧
  same_setup self (write self).2 ∧
  ((∃ e, write self = (inl e, self)) ∨
   (windows (write self).2 = windows self ++ [(_first_idx self, _last_idx self)] ∧
    episode_steps (_writer (write self).2) =
      if episode_steps (_writer self) <=? _last_idx self
      then episode_steps (_writer self) else episode_steps (_writer self) + 1)).
Proof.
  destruct (window_transition (_discount self) (_first_idx self) (_last_idx self)
              (history (_writer self))) as [e|tr] eqn:Hwin.
  - rewrite (write_raises_window _ _ self e Hwin). simpl.
    split_and!; [done..|]. left. eauto.
  - rewrite (write_unfold _ _ self tr Hwin). cbn zeta.
    match goal with |- context [_write_insert ?c ?f ?m ?t ?w] =>
      destruct (write_insert_cases c f m t w) as (r & ni & fl & Heq & _)
    end.
    rewrite Heq. simpl. split_and!; [done..|]. right. done.
Qed.

Lemma add_unfold step self :
  add_step step self = write (add_before_write buffer_step step self).
Proof. reflexivity. Qed.

(** What [add] does to an adder in an episode, whether it returns or
    raises. *)
Lemma add_in_episode step self :
  in_episode self →
  in_episode (add_step step self).2 ∧
  same_setup self (add_step step self).2 ∧
  _last_idx (add_step step self).2 = _last_idx self + 1 ∧
  _first_idx (add_step step self).2 =
    (if bool_decide (_n_step self = n_step self)
     then _first_idx self + 1 else _first_idx self).
Proof.
  intros (Hlast & Hfirst & Hsteps & Hn). rewrite add_unfold.
  destruct (write_frame (add_before_write buffer_step step self))
    as (Hf & Hl & (Hs1 & Hs2 & Hs3 & Hs4 & Hs5) & Hw).
  assert (_last_idx (add_before_write buffer_step step self) = _last_idx self + 1)
    as Hl'.
  { unfold add_before_write. by destruct (_ >=? _). }
  assert (_first_idx (add_before_write buffer_step step self) =
          if bool_decide (_n_step self = n_step self)
          then _first_idx self + 1 else _first_idx self) as Hf'.
  { unfold add_before_write, _n_step. rewrite Hsteps.
    destruct (Z.geb_spec (_last_idx self) (n_step self));
      case_bool_decide; simpl; lia. }
  assert (episode_steps (_writer (add_before_write buffer_step step self)) =
          _last_idx self + 1) as He'.
  { unfold add_before_write. destruct (_ >=? _); simpl; lia. }
  assert (n_step (add_before_write buffer_step step self) = n_step self)
    as Hn' by (unfold add_before_write; by destruct (_ >=? _)).
  assert (same_setup self (add_before_write buffer_step step self)) as Hsetup.
  { unfold add_before_write, same_setup. by destruct (_ >=? _). }
  rewrite Hf, Hl, Hl', Hf'. split_and!; [|..|done|done].
  - unfold in_episode. rewrite Hf, Hl, Hl', Hf', Hs1, Hn'.
    split_and!; [lia| | |done].
    + destruct (decide (_n_step self = n_step self)) as [Hc|Hc];
        [rewrite bool_decide_eq_true_2 by done
        |rewrite bool_decide_eq_false_2 by done];
        unfold _n_step in Hc; lia.
    + destruct Hw as [[e He]|[_ He]]; rewrite He.
      * cbn [snd]. by rewrite He'.
      * by rewrite He', Hl', Z.leb_refl.
  - destruct Hsetup as (? & ? & ? & ? & ?).
    unfold same_setup. rewrite Hs1, Hs2, Hs3, Hs4, Hs5. done.
Qed.

Lemma reset_in_episode self :
  1 ≤ n_step self →
  in_episode (do_reset self).2 ∧ same_setup self (do_reset self).2 ∧
  _first_idx (do_reset self).2 = 0 ∧ _last_idx (do_reset self).2 = 0.
Proof. intros Hn. unfold in_episode, same_setup. simpl. split_and!; (done || lia). Qed.

Lemma in_episode_window_invariant self : in_episode self → window_invariant self.
Proof. intros (? & ? & ? & ?). unfold window_invariant. lia. Qed.

Lemma init_in_episode client n disc pf cfg mif self0 :
  init client n disc pf cfg mif = inr self0 → 1 ≤ n →
  in_episode self0 ∧ n_step self0 = n ∧ windows self0 = [] ∧
  _first_idx self0 = 0 ∧ _last_idx self0 = 0.
Proof.
  intros [= <-] Hn. unfold in_episode. simpl. split_and!; (done || lia).
Qed.

Lemma reachable_in_episode self0 self :
  in_episode self0 → reach self0 self → in_episode self ∧ n_step self = n_step self0.
Proof.
  intros H0. induction 1 as [|self step _ [IH IHn]|self _ [IH IHn]].
  - done.
  - destruct (add_in_episode step self IH) as (? & (? & _) & _). split; [done|congruence].
  - destruct IH as (_ & _ & _ & Hn).
    destruct (reset_in_episode self Hn) as (? & (? & _) & _). split; [done|congruence].
Qed.

(** C5.  From construction with [n_step >= 1] on, through every [add] and
    every [reset], whether they return or raise: [0 <= first_idx <=
    last_idx] and [last_idx - first_idx <= n_step]; [add] advances
    [last_idx] by one, and [first_idx] by one exactly when the window
    already has [n_step] steps, and leaves an effective window between 1
    and [n_step]; [reset] sets both pointers to 0. *)
Theorem window_pointer_invariant client n disc pf cfg mif self0 self :
  __init__ empty_history default_priority_fns client n disc pf cfg mif = inr self0 →
  1 ≤ n →
  reachable window_transition append_derived buffer_step empty_history self0 self →
  window_invariant self0 ∧
  window_invariant self ∧
  (∀ step,
     let self' := (add window_transition append_derived buffer_step step self).2 in
     window_invariant self' ∧
     _last_idx self' = _last_idx self + 1 ∧
     _first_idx self' =
       (if bool_decide (_n_step self = n_step self)
        then _first_idx self + 1 else _first_idx self) ∧
     1 ≤ _n_step self' ≤ n_step self') ∧
  (let self' := (reset empty_history self).2 in
   window_invariant self' ∧ _first_idx self' = 0 ∧ _last_idx self' = 0).
Proof.
  intros Hinit Hn Hreach.
  destruct (init_in_episode _ _ _ _ _ _ _ Hinit Hn) as (H0 & _).
  destruct (reachable_in_episode self0 self H0 Hreach) as [Hself _].
  refine (conj _ (conj _ (conj _ _))).
  - by apply in_episode_window_invariant.
  - by apply in_episode_window_invariant.
  - intros step self'. subst self'.
    destruct (add_in_episode step self Hself) as (Hadd & _ & Hl & Hf).
    refine (conj _ (conj Hl (conj Hf _))).
    + by apply in_episode_window_invariant.
    + destruct Hadd as (? & ? & ? & ?), Hself as (? & _). unfold _n_step. lia.
  - intros self'. subst self'. destruct Hself as (_ & _ & _ & Hn').
    destruct (reset_in_episode self Hn') as (? & _ & ? & ?).
    refine (conj _ (conj _ _)); [by apply in_episode_window_invariant|done..].
Qed.

(** C7 (what the code does).  The constructor does not look at [n_step]:
    whatever its value, 0 and the negative ones included, it returns the
    adder. *)
Theorem init_accepts_every_n_step client n disc pf cfg mif :
  ∃ self0,
    __init__ empty_history default_priority_fns client n disc pf cfg mif = inr self0 ∧
    n_step self0 = n ∧ _max_sequence_length self0 = n + 1.
Proof. eexists. by split_and!. Qed.

(** *** An episode *)

Local Abbreviation all_adds :=
  (@add_all Client Obs Act Rew Disc Prio Step Gamma History
     window_transition append_derived buffer_step).
Local Abbreviation last_loop :=
  (@_write_last_loop Client Obs Act Rew Disc Prio Gamma History
     window_transition append_derived).
Local Abbreviation write_last :=
  (@_write_last Client Obs Act Rew Disc Prio Gamma History
     window_transition append_derived).
Local Abbreviation episode :=
  (@record_episode Client Obs Act Rew Disc Prio Step Gamma History
     window_transition append_derived buffer_step).

Lemma same_setup_trans self0 self self' :
  same_setup self0 self → same_setup self self' → same_setup self0 self'.
Proof. unfold same_setup. intros (?&?&?&?&?) (?&?&?&?&?). split_and!; congruence. Qed.

Lemma same_setup_refl self : same_setup self self.
Proof. by unfold same_setup. Qed.

(** The calls of [add] of an episode, whether they return or raise: [k]
    of them have formed a window, the one of the [j]-th step of the size
    [min(j, n_step)], and all of them have when no call raised. *)
Lemma add_all_windows steps self (i : nat) :
  in_episode self → _last_idx self = Z.of_nat i →
  ∃ r self' (k : nat),
    all_adds steps self = (r, self') ∧ same_setup self self' ∧ in_episode self' ∧
    (k ≤ length steps)%nat ∧
    window_sizes self' =
      window_sizes self ++ ((λ j, Z.of_nat j `min` n_step self) <$> seq (S i) k) ∧
    (r = inr tt → k = length steps ∧ _last_idx self' = Z.of_nat (i + length steps)).
Proof.
  revert self i. induction steps as [|step steps IH]; intros self i Hin Hi.
  { exists (inr tt), self, 0%nat. simpl. rewrite app_nil_r, Nat.add_0_r.
    split_and!; [done|apply same_setup_refl|done..]. }
  destruct (add_in_episode step self Hin) as (Hin' & Hsetup' & Hl & _).
  assert (windows (add_before_write buffer_step step self) = windows self) as Hpre
    by (unfold add_before_write; by destruct (_ >=? _)).
  destruct (write_frame (add_before_write buffer_step step self))
    as (Hf & Hl2 & _ & Hw).
  rewrite add_unfold in Hin', Hsetup', Hl.
  cbn [add_all]. unfold se_bind. rewrite add_unfold.
  set (pre := add_before_write buffer_step step self) in *.
  assert (_last_idx pre - _first_idx pre = Z.of_nat (S i) `min` n_step self) as Hsize.
  { destruct Hin' as (_ & Hf' & _ & Hn'). destruct Hsetup' as (Hn & _).
    rewrite Hf, Hl2, Hn in *. lia. }
  destruct Hw as [[e He]|[Hw _]].
  { rewrite He in *. exists (inl e), pre, 0%nat. simpl. rewrite app_nil_r.
    split_and!; [done|done|done|lia| |done].
    unfold window_sizes. by rewrite Hpre. }
  assert (window_sizes (write pre).2 =
          window_sizes self ++ [Z.of_nat (S i) `min` n_step self]) as Hone.
  { unfold window_sizes. rewrite Hw, Hpre, fmap_app. cbn [fmap list_fmap fst snd].
    by rewrite Hsize. }
  destruct (write pre) as [[e|[]] self1] eqn:Hwrite; cbn [fst snd] in *.
  { exists (inl e), self1, 1%nat. cbn [seq fmap list_fmap length].
    split_and!; [done|done|done|lia|done|done]. }
  destruct (IH self1 (S i)) as (r & self' & k & Hrest & Hs & Hin'' & Hk & Hsz & Hr);
    [done|lia|].
  exists r, self', (S k). rewrite Hrest.
  split_and!; [done| |done|simpl; lia| |].
  - by apply (same_setup_trans self self1).
  - rewrite Hsz, Hone. destruct Hsetup' as (-> & _).
    cbn [seq fmap list_fmap]. by rewrite <-(assoc_L (++)).
  - intros Hr'. destruct (Hr Hr') as [-> ->]. split; [done|]. f_equal. simpl. lia.
Qed.

(** The calls of [_write] of the loop of [_write_last], whether they
    return or raise: [k] of them have formed a window, and all of them
    have when no call raised. *)
Lemma write_last_loop_windows fuel self :
  (Z.to_nat (_last_idx self - _first_idx self) ≤ fuel)%nat →
  ∃ r self' (k : nat),
    last_loop fuel self = Some (r, self') ∧
    _last_idx self' = _last_idx self ∧ same_setup self self' ∧
    (k ≤ Z.to_nat (_last_idx self - _first_idx self))%nat ∧
    windows self' =
      windows self ++
      ((λ j : nat, (_first_idx self + Z.of_nat j, _last_idx self)) <$> seq 0 k) ∧
    (r = inr tt →
       k = Z.to_nat (_last_idx self - _first_idx self) ∧
       _first_idx self' = Z.max (_first_idx self) (_last_idx self)).
Proof.
  revert self. induction fuel as [|fuel IH]; intros self Hfuel; simpl.
  - destruct (Z.ltb_spec (_first_idx self) (_last_idx self)); [lia|].
    exists (inr tt), self, 0%nat. rewrite app_nil_r.
    split_and!; [done..|lia|done|]. intros _. lia.
  - destruct (Z.ltb_spec (_first_idx self) (_last_idx self)) as [Hlt|Hge].
    2:{ exists (inr tt), self, 0%nat. rewrite app_nil_r.
        split_and!; [done..|lia|done|]. intros _. lia. }
    destruct (write_frame self) as (Hf & Hl & Hsetup & Hw).
    destruct (write self) as [[e|[]] self1] eqn:Hwrite; simpl in *.
    + destruct Hw as [[e' [= -> ->]]|[Hw _]].
      * exists (inl e'), self, 0%nat. rewrite app_nil_r.
        split_and!; [done..|lia|done|done].
      * exists (inl e), self1, 1%nat. simpl. rewrite Z.add_0_r.
        split_and!; [done..|lia|done|done].
    + destruct Hw as [[e' [=]]|[Hw _]].
      destruct (IH (set_first_idx (_first_idx self1 + 1) self1))
        as (r & self' & k & -> & Hl' & Hsetup' & Hk & Hws & Hr).
      { simpl. lia. }
      simpl in *. exists r, self', (S k).
      split_and!; [done|congruence| |lia| |].
      * destruct Hsetup as (? & ? & ? & ? & ?).
        destruct Hsetup' as (? & ? & ? & ? & ?). simpl in *.
        unfold same_setup. split_and!; congruence.
      * rewrite Hws, Hw, Hf, Hl, <-(assoc_L (++)). f_equal. simpl.
        rewrite Z.add_0_r. f_equal. rewrite <-fmap_S_seq, <-list_fmap_compose.
        apply list_fmap_ext. intros _ j _. simpl. f_equal. lia.
      * intros Hr'. destruct (Hr Hr') as [-> ->]. rewrite Hf, Hl. lia.
Qed.

(** The sizes of the windows that start at [first], [first + 1], ... and
    end at [last]. *)
Lemma tail_window_sizes (first last : Z) (k : nat) :
  (k ≤ Z.to_nat (last - first))%nat →
  (λ w : Z * Z, w.2 - w.1) <$> ((λ j : nat, (first + Z.of_nat j, last)) <$> seq 0 k) =
  take k (Z.of_nat <$> reverse (seq 1 (Z.to_nat (last - first)))).
Proof.
  intros Hk. set (d := Z.to_nat (last - first)) in *.
  assert (reverse (seq 1 d) = (λ j, (d - j)%nat) <$> seq 0 d) as ->.
  { clear. induction d as [|d IH]; [done|].
    rewrite seq_S, reverse_snoc, IH. cbn [seq fmap list_fmap]. f_equal.
    rewrite <-fmap_S_seq, <-list_fmap_compose. done. }
  rewrite <-!list_fmap_compose, <-fmap_take, take_seq.
  replace (k `min` d)%nat with k by lia.
  apply list_fmap_ext. intros i j [-> ?]%lookup_seq. simpl. lia.
Qed.

(** An episode that starts with an empty buffer, whether its writes
    return or raise: the recording ends, the windows it has formed are the
    first of the windows of an episode of its length, and they are all of
    them when no write raised. *)
Lemma episode_windows (N : nat) self steps :
  n_step self = Z.of_nat N → in_episode self → _last_idx self = 0 →
  ∃ r self' formed,
    episode steps self = Some (r, self') ∧ same_setup self self' ∧
    window_sizes self' = window_sizes self ++ formed ∧
    formed `prefix_of` episode_sizes N (length steps) ∧
    (r = inr tt → formed = episode_sizes N (length steps)).
Proof.
  intros HN Hin Hl.
  destruct (add_all_windows steps self 0 Hin Hl)
    as (r1 & self1 & k & Hadds & Hs1 & Hin1 & Hk & Hsz1 & Hr1).
  unfold record_episode, episode_sizes. rewrite Hadds, HN in *.
  destruct r1 as [e|[]].
  { exists (inl e), self1, ((λ j, Z.of_nat j `min` Z.of_nat N) <$> seq 1 k).
    split_and!; [done..| |done].
    replace (length steps) with (k + (length steps - k))%nat by lia.
    rewrite seq_app, fmap_app, <-(assoc_L (++)). by eexists. }
  destruct (Hr1 eq_refl) as [-> Hl1]. clear Hr1.
  destruct Hin1 as (_ & Hf1 & _ & Hn1). pose proof Hs1 as (Hn & _).
  rewrite Hn, HN in Hf1.
  unfold _write_last. cbn zeta.
  set (self1' := set_first_idx (_first_idx self1 + 1) self1).
  destruct (write_last_loop_windows
              (Z.to_nat (_last_idx self1' - _first_idx self1')) self1')
    as (r & self' & k & Hloop & _ & Hs' & Hk' & Hws & Hr); [done|].
  assert (Z.to_nat (_last_idx self1' - _first_idx self1') =
          (length steps `min` N - 1)%nat) as Hd by (simpl; lia).
  exists r, self',
    (((λ j, Z.of_nat j `min` Z.of_nat N) <$> seq 1 (length steps)) ++
     take k (Z.of_nat <$> reverse (seq 1 (length steps `min` N - 1)))).
  split_and!; [done| | | |].
  - by apply (same_setup_trans self self1').
  - unfold window_sizes at 1. rewrite Hws, fmap_app, tail_window_sizes by done.
    rewrite Hd. change (windows self1') with (windows self1).
    fold (window_sizes self1). by rewrite Hsz1, <-(assoc_L (++)).
  - apply prefix_app, prefix_take.
  - intros Hr'. destruct (Hr Hr') as [-> _]. rewrite Hd.
    rewrite take_ge; [done|]. by rewrite length_fmap, length_reverse, length_seq.
Qed.

(** The bound that [_write_last] gives its loop is never reached, whether
    the writes return or raise. *)
Lemma write_last_loop_total fuel self :
  (Z.to_nat (_last_idx self - _first_idx self) ≤ fuel)%nat →
  is_Some (last_loop fuel self).
Proof.
  revert self. induction fuel as [|fuel IH]; intros self Hfuel; cbn [_write_last_loop];
    destruct (Z.ltb_spec (_first_idx self) (_last_idx self)); eauto; [lia|].
  destruct (write_frame self) as (Hf & Hl & _).
  destruct (write self) as [[e|[]] self']; [eauto|].
  apply IH. cbn [snd] in Hf, Hl. simpl. lia.
Qed.

Lemma write_last_total self : is_Some (write_last self).
Proof. unfold _write_last. apply write_last_loop_total. simpl. lia. Qed.

Lemma fmap_min_below (N : nat) (a n : nat) :
  (a + n ≤ N)%nat →
  (λ j, Z.of_nat j `min` Z.of_nat N) <$> seq a n = Z.of_nat <$> seq a n.
Proof.
  intros Hle. apply list_fmap_ext. intros i j Hj.
  apply lookup_seq in Hj as [-> ?]. lia.
Qed.

Lemma fmap_min_above (N : nat) (a n : nat) :
  (N ≤ a)%nat →
  (λ j, Z.of_nat j `min` Z.of_nat N) <$> seq a n = replicate n (Z.of_nat N).
Proof.
  revert a. induction n as [|n IH]; intros a Hle; simpl; [done|].
  rewrite IH by lia. f_equal. lia.
Qed.

Lemma episode_sizes_expected (N T : nat) :
  (1 ≤ N ≤ T)%nat → episode_sizes N T = expected_sizes N T.
Proof.
  intros HN. unfold episode_sizes, expected_sizes. rewrite (assoc_L (++)).
  replace (T `min` N - 1)%nat with (N - 1)%nat by lia. f_equal.
  replace T with ((N - 1) + (T - N + 1))%nat at 1 by lia.
  rewrite seq_app, fmap_app. f_equal.
  - apply fmap_min_below. lia.
  - apply fmap_min_above. lia.
Qed.

(** C2 (as amended).  The recording of an episode of [T] steps under
    [n_step = N <= T] always ends, and the windows it has formed are the
    first of the list [1, ..., N-1], then [T-N+1] times [N], then
    [N-1, ..., 1], the last group being formed by [_write_last].  When no
    write of the episode raises, it forms the whole list: [T + N - 1]
    transitions. *)
Theorem episode_window_sizes (N T : nat) client disc pf cfg mif steps self0 :
  (1 ≤ N ≤ T)%nat → length steps = T →
  __init__ empty_history default_priority_fns client (Z.of_nat N) disc pf cfg mif
    = inr self0 →
  ∃ r self',
    record_episode window_transition append_derived buffer_step steps self0
      = Some (r, self') ∧
    window_sizes self' `prefix_of` expected_sizes N T ∧
    (r = inr tt →
       window_sizes self' = expected_sizes N T ∧
       length (window_sizes self') = (T + N - 1)%nat).
Proof.
  intros HN HT Hinit.
  destruct (init_in_episode _ _ _ _ _ _ _ Hinit ltac:(lia))
    as (Hin0 & Hn0 & Hw0 & Hf0 & Hl0).
  destruct (episode_windows N self0 steps Hn0 Hin0 Hl0)
    as (r & self' & formed & Hep & _ & Hsz & Hpre & Hr).
  assert (window_sizes self0 = []) as Hsz0 by (unfold window_sizes; by rewrite Hw0).
  rewrite Hsz0 in Hsz. cbn [app] in Hsz.
  rewrite HT, episode_sizes_expected in Hpre, Hr by done.
  exists r, self'. rewrite Hsz. split_and!; [done|done|].
  intros Hr'. rewrite (Hr Hr'). split; [done|]. unfold expected_sizes.
  rewrite !length_app, !length_fmap, length_reverse, length_replicate, !length_seq.
  lia.
Qed.

End PointerFacts.

(** ** The learner *)

Section LearnerFacts.
Context {LearnerState Params Traj LastObs Dones Time EpisodeMetrics TrainMetrics : Type}.
Variable learn :
  LearnerState → Traj → LastObs → Dones → LearnerState * EpisodeMetrics * TrainMetrics.
Variable unreplicate_params : LearnerState → Params.

Local Abbreviation En := (@Entry Traj LastObs Dones Time).
Local Abbreviation Ev :=
  (@Event LearnerState Params Traj LastObs Dones Time EpisodeMetrics TrainMetrics).
Local Abbreviation Wo :=
  (@World LearnerState Params Traj LastObs Dones Time EpisodeMetrics TrainMetrics).
Local Abbreviation Lo :=
  (@Locals LearnerState Time EpisodeMetrics TrainMetrics).
Local Abbreviation step := (update_step learn unreplicate_params).
Local Abbreviation published := (publishes_after_learn unreplicate_params).
Local Abbreviation learned st entry :=
  (learn st (traj_batch entry) (last_obs entry) (last_dones entry)).1.1.

Implicit Types (w : Wo) (l : Lo) (evs : list Ev) (entry : En).

Lemma update_sources_spec (i : nat) (p : Params) (sources : list Params) :
  (update_sources (LearnerState := LearnerState) (Traj := Traj) (LastObs := LastObs)
     (Dones := Dones) (Time := Time) (EpisodeMetrics := EpisodeMetrics)
     (TrainMetrics := TrainMetrics) i p sources).1 = replicate (length sources) p ∧
  (update_sources (LearnerState := LearnerState) (Traj := Traj) (LastObs := LastObs)
     (Dones := Dones) (Time := Time) (EpisodeMetrics := EpisodeMetrics)
     (TrainMetrics := TrainMetrics) i p sources).2 =
    (λ j, EvUpdate j p) <$> seq i (length sources).
Proof.
  revert i. induction sources as [|source sources IH]; intros i; simpl; [done|].
  destruct (IH (S i)) as [-> ->]. done.
Qed.

(** One pass of the inner loop on a pipeline that is not empty. *)
Lemma update_step_spec l w entry queued :
  pipeline w = entry :: queued →
  ∃ l',
    step l w =
      (Done l',
       mkWorld queued
         (replicate (length (params_sources w))
            (unreplicate_params (learned (learner_state l) entry)))
         (learner_queue w)
         (events w ++
          [EvGet entry; EvLearn (learned (learner_state l) entry)] ++
          publication (length (params_sources w))
            (unreplicate_params (learned (learner_state l) entry)))) ∧
    learner_state l' = learned (learner_state l) entry ∧
    length (metrics l') = S (length (metrics l)).
Proof.
  intros Hp. unfold update_step. rewrite Hp.
  destruct (learn (learner_state l) (traj_batch entry) (last_obs entry)
              (last_dones entry)) as [[st' em] tm] eqn:Hlearn.
  cbn [log pipeline params_sources learner_queue events].
  destruct (update_sources_spec 0 (unreplicate_params st') (params_sources w))
    as [-> ->].
  cbn [fst]. eexists. split; [|split].
  - unfold publication. by rewrite <-!(assoc_L (++)).
  - done.
  - cbn [metrics]. rewrite length_app. simpl. lia.
Qed.

Lemma update_step_blocked l w : pipeline w = [] → step l w = (Blocked, w).
Proof. intros Hp. unfold update_step. by rewrite Hp. Qed.

Lemma published_round m evs entry st :
  published m evs →
  published m (evs ++ [EvGet entry; EvLearn st] ++ publication m (unreplicate_params st)).
Proof.
  intros Hevs i s Hi j Hj.
  destruct (decide (i < length evs)%nat) as [Hlt|Hge].
  - rewrite lookup_app_l in Hi by done.
    pose proof (Hevs i s Hi j Hj) as Hj'.
    rewrite lookup_app_l; [done|]. by eapply lookup_lt_Some.
  - rewrite lookup_app_r in Hi by lia.
    rewrite lookup_app_r by lia.
    destruct (i - length evs)%nat as [|[|k]] eqn:Hk; simplify_eq/=.
    + replace (i + 1 + j - length evs)%nat with (S (S j)) by lia. simpl.
      unfold publication. rewrite list_lookup_fmap, lookup_seq_lt by done. done.
    + unfold publication in Hi. rewrite list_lookup_fmap in Hi.
      destruct (seq 0 m !! k); simplify_eq/=.
Qed.

Lemma published_put m evs output : published m evs → published m (evs ++ [EvPut output]).
Proof.
  intros Hevs i s Hi j Hj.
  destruct (decide (i < length evs)%nat) as [Hlt|Hge].
  - rewrite lookup_app_l in Hi by done.
    pose proof (Hevs i s Hi j Hj) as Hj'.
    rewrite lookup_app_l; [done|]. by eapply lookup_lt_Some.
  - rewrite lookup_app_r in Hi by lia.
    destruct (i - length evs)%nat as [|k]; simplify_eq/=.
Qed.

Local Abbreviation inner := (update_loop learn unreplicate_params).
Local Abbreviation eval_step := (evaluation_step learn unreplicate_params).
Local Abbreviation outer := (evaluation_loop learn unreplicate_params).
Local Abbreviation learns evs := (length (filter (λ ev : Ev, is_learn ev) evs)).

Lemma learns_app evs evs' : learns (evs ++ evs') = (learns evs + learns evs')%nat.
Proof. by rewrite filter_app, length_app. Qed.

Lemma learns_publication m (p : Params) :
  learns (publication (LearnerState := LearnerState) (Traj := Traj)
            (LastObs := LastObs) (Dones := Dones) (Time := Time)
            (EpisodeMetrics := EpisodeMetrics) (TrainMetrics := TrainMetrics) m p) = 0%nat.
Proof.
  unfold publication.
  cut (∀ a, learns ((λ i, EvUpdate i p : Ev) <$> seq a m) = 0%nat); [by intros ->|].
  induction m as [|m IH]; intros a; [reflexivity|].
  cbn [seq fmap list_fmap]. rewrite filter_cons_False by (simpl; tauto). apply IH.
Qed.

(** The inner loop, however it ends. *)
Lemma update_loop_published n l w :
  published (length (params_sources w)) (events w) →
  published (length (params_sources w)) (events (inner n l w).2) ∧
  length (params_sources (inner n l w).2) = length (params_sources w) ∧
  learner_queue (inner n l w).2 = learner_queue w ∧
  (∀ e, (inner n l w).1 ≠ Raised e).
Proof.
  revert l w. induction n as [|n IH]; intros l w Hpub; simpl; [done|].
  destruct (pipeline w) as [|entry queued] eqn:Hp.
  - by rewrite update_step_blocked.
  - destruct (update_step_spec l w entry queued Hp) as (l' & -> & _).
    match goal with |- context [inner n l' ?w'] =>
      destruct (IH l' w') as (H1 & H2 & H3 & H4)
    end.
    { cbn [params_sources events]. rewrite length_replicate.
      by apply published_round. }
    cbn [params_sources learner_queue] in H1, H2, H3.
    rewrite length_replicate in H1, H2. done.
Qed.

(** The inner loop on a pipeline that holds enough entries. *)
Lemma update_loop_returns n l w :
  (n ≤ length (pipeline w))%nat →
  ∃ l',
    (inner n l w).1 = Done l' ∧
    pipeline (inner n l w).2 = drop n (pipeline w) ∧
    learner_state l' = learn_all learn (learner_state l) (take n (pipeline w)) ∧
    length (metrics l') = (length (metrics l) + n)%nat ∧
    learns (events (inner n l w).2) = (learns (events w) + n)%nat ∧
    ((0 < n)%nat →
       params_sources (inner n l w).2 =
       replicate (length (params_sources w)) (unreplicate_params (learner_state l'))).
Proof.
  revert l w. induction n as [|n IH]; intros l w Hlen; cbn [update_loop].
  - exists l. rewrite drop_0, take_0. split_and!; (done || lia).
  - destruct (pipeline w) as [|entry queued] eqn:Hp; [simpl in Hlen; lia|].
    destruct (update_step_spec l w entry queued Hp) as (l1 & -> & Hst & Hm).
    match goal with |- context [inner n l1 ?w'] =>
      destruct (IH l1 w') as (l' & H1 & H2 & H3 & H4 & H5 & H6)
    end.
    { simpl in *. lia. }
    cbn [pipeline params_sources events] in H2, H3, H5, H6.
    exists l'. rewrite Hst in H3. cbn [drop take learn_all].
    split_and!; [done..|lia| |].
    + rewrite H5, !learns_app, learns_publication. simpl. lia.
    + intros _. rewrite length_replicate in H6.
      destruct n as [|n]; [|apply H6; lia].
      simpl in *. simplify_eq. by rewrite Hst.
Qed.

Lemma learn_all_app st (entries entries' : list En) :
  learn_all learn st (entries ++ entries') =
  learn_all learn (learn_all learn st entries) entries'.
Proof. revert st. induction entries as [|e entries IH]; intros st; simpl; [done|apply IH]. Qed.

(** One evaluation step, however it ends. *)
Lemma evaluation_step_published config st w :
  published (length (params_sources w)) (events w) →
  published (length (params_sources w)) (events (eval_step config st w).2) ∧
  length (params_sources (eval_step config st w).2) = length (params_sources w).
Proof.
  intros Hpub. unfold evaluation_step.
  destruct (update_loop_published (Z.to_nat (num_updates_per_eval config))
              (mkLocals st [] []) w Hpub) as (H1 & H2 & _).
  destruct (inner _ _ w) as [[l| |e] w']; [|done..].
  destruct (metrics l); [done|]. cbn [snd events params_sources] in *.
  split; [|done]. by apply published_put.
Qed.

Lemma evaluation_step_returns config st w :
  (1 ≤ Z.to_nat (num_updates_per_eval config) ≤ length (pipeline w))%nat →
  ∃ st',
    (eval_step config st w).1 = Done st' ∧
    pipeline (eval_step config st w).2 =
      drop (Z.to_nat (num_updates_per_eval config)) (pipeline w) ∧
    st' = learn_all learn st (take (Z.to_nat (num_updates_per_eval config)) (pipeline w)) ∧
    learns (events (eval_step config st w).2) =
      (learns (events w) + Z.to_nat (num_updates_per_eval config))%nat ∧
    params_sources (eval_step config st w).2 =
      replicate (length (params_sources w)) (unreplicate_params st').
Proof.
  intros [HU Hlen]. unfold evaluation_step.
  destruct (update_loop_returns (Z.to_nat (num_updates_per_eval config))
              (mkLocals st [] []) w Hlen) as (l & H1 & H2 & H3 & H4 & H5 & H6).
  destruct (inner _ _ w) as [r w']. cbn [fst snd] in *. subst r.
  destruct (metrics l) as [|mt mts] eqn:Hm; [simpl in H4; lia|].
  exists (learner_state l). cbn [fst snd pipeline events params_sources].
  split_and!; [done..| |by apply H6].
  rewrite learns_app, H5. simpl. lia.
Qed.

(** The learner, however it ends. *)
Lemma evaluation_loop_published n config st w :
  published (length (params_sources w)) (events w) →
  published (length (params_sources w)) (events (outer n config st w).2) ∧
  length (params_sources (outer n config st w).2) = length (params_sources w).
Proof.
  revert st w. induction n as [|n IH]; intros st w Hpub; cbn [evaluation_loop]; [done|].
  destruct (evaluation_step_published config st w Hpub) as [H1 H2].
  destruct (eval_step config st w) as [[st'| |e] w']; [|done..].
  cbn [snd] in H1, H2. rewrite <-H2 in H1. destruct (IH st' w' H1) as [H3 H4].
  rewrite <-H2. split; [done|congruence].
Qed.

Lemma evaluation_loop_returns n config st w :
  (1 ≤ Z.to_nat (num_updates_per_eval config))%nat →
  (n * Z.to_nat (num_updates_per_eval config) ≤ length (pipeline w))%nat →
  ∃ st',
    (outer n config st w).1 = Done st' ∧
    st' = learn_all learn st
            (take (n * Z.to_nat (num_updates_per_eval config)) (pipeline w)) ∧
    learns (events (outer n config st w).2) =
      (learns (events w) + n * Z.to_nat (num_updates_per_eval config))%nat ∧
    ((0 < n)%nat →
       params_sources (outer n config st w).2 =
       replicate (length (params_sources w)) (unreplicate_params st')).
Proof.
  intros HU. revert st w. induction n as [|n IH]; intros st w Hlen; cbn [evaluation_loop].
  - exists st. cbn [Nat.mul]. rewrite take_0. split_and!; (done || lia).
  - destruct (evaluation_step_returns config st w) as (st1 & H1 & H2 & H3 & H4 & H5);
      [simpl in Hlen; lia|].
    destruct (eval_step config st w) as [r w']. cbn [fst snd] in *. subst r.
    destruct (IH st1 w') as (st' & G1 & G2 & G3 & G4).
    { rewrite H2, length_drop. simpl in Hlen. lia. }
    exists st'. split_and!; [done| | |].
    + rewrite G2, H3, H2, <-learn_all_app, take_take_drop. done.
    + rewrite G3, H4. simpl. lia.
    + intros _. destruct n as [|n].
      * cbn [evaluation_loop] in *. simplify_eq. done.
      * rewrite G4 by lia. by rewrite H5, length_replicate.
Qed.

(** C8.  In one pass of the inner loop, the learner takes an entry from
    the pipeline, makes the gradient update and calls [update] on every
    source with the unreplicated parameters of the new learner state, in
    the order of the sequence.  In the trace of the whole loop, however it
    ends, every gradient update is followed at once by these calls, so
    before the next [get].  On a pipeline that supplies all the entries,
    the loop returns after as many updates as the configuration asks for,
    and every source then holds the parameters of the last one. *)
Theorem learner_publishes_after_every_update st config w :
  (∀ l w' entry queued,
     pipeline w' = entry :: queued →
     ∃ l', step l w' =
       (Done l',
        mkWorld queued
          (replicate (length (params_sources w'))
             (unreplicate_params (learned (learner_state l) entry)))
          (learner_queue w')
          (events w' ++
           [EvGet entry; EvLearn (learned (learner_state l) entry)] ++
           publication (length (params_sources w'))
             (unreplicate_params (learned (learner_state l) entry))))) ∧
  (published (length (params_sources w)) (events w) →
   published (length (params_sources w))
     (events (learner learn unreplicate_params st config w).2) ∧
   length (params_sources (learner learn unreplicate_params st config w).2) =
     length (params_sources w)) ∧
  ((1 ≤ Z.to_nat (num_updates_per_eval config))%nat →
   (Z.to_nat (num_evaluation config) * Z.to_nat (num_updates_per_eval config)
      ≤ length (pipeline w))%nat →
   ∃ st',
     (learner learn unreplicate_params st config w).1 = Done st' ∧
     st' = learn_all learn st
             (take (Z.to_nat (num_evaluation config) *
                    Z.to_nat (num_updates_per_eval config)) (pipeline w)) ∧
     learns (events (learner learn unreplicate_params st config w).2) =
       (learns (events w) +
        Z.to_nat (num_evaluation config) * Z.to_nat (num_updates_per_eval config))%nat ∧
     ((0 < Z.to_nat (num_evaluation config))%nat →
        params_sources (learner learn unreplicate_params st config w).2 =
        replicate (length (params_sources w)) (unreplicate_params st'))).
Proof.
  split_and!.
  - intros l w' entry queued Hp.
    destruct (update_step_spec l w' entry queued Hp) as (l' & ? & _). eauto.
  - apply evaluation_loop_published.
  - apply evaluation_loop_returns.
Qed.

End LearnerFacts.

(** ** The instance *)

Example init_demo :
  __init__ tt [] tt 2 tt (Some demo_priority_fns) (Some demo_config) 5 =
  inr (demo_adder 2 (Some demo_config)).
Proof. reflexivity. Qed.

Example init_zero_demo :
  __init__ tt [] tt 0 tt (Some demo_priority_fns) None 5 = inr (demo_adder 0 None).
Proof. reflexivity. Qed.

Example agents_demo : agents_of demo_transition = ["agent_0"; "agent_1"].
Proof. vm_compute. reflexivity. Qed.

(** The slot of [agent_0] receives the data of [agent_1], which has
    ["network_0"], and the other way round. *)
Example write_demo :
  _write (demo_window demo_transition) demo_append (demo_adder 2 (Some demo_config)) =
  (inr tt,
   mkAdder tt 2 tt 0 0 (Some demo_config) 3 demo_priority_fns 5 true
     (mkWriter 0 tt
        [mkItem "trainer_0" 1
           (mkTransition {["agent_0" := 11; "agent_1" := 10]} ∅
              {["agent_0" := 21; "agent_1" := 20]} {["agent_0" := 31; "agent_1" := 30]}
              {["agent_0" := 41; "agent_1" := 40]} {["agent_0" := 51; "agent_1" := 50]}
              ∅)] [5])
     [(0, 0)]).
Proof. vm_compute. reflexivity. Qed.

(** Both slots receive the data of [agent_1], the last agent with the
    shared key. *)
Example write_shared_demo :
  items (_writer (_write (demo_window demo_shared_transition) demo_append
                    (demo_adder 2 (Some demo_shared_config))).2) =
  [mkItem "trainer_0" 1
     (mkTransition {["agent_0" := 11; "agent_1" := 11]} ∅
        {["agent_0" := 21; "agent_1" := 21]} {["agent_0" := 31; "agent_1" := 31]}
        {["agent_0" := 41; "agent_1" := 41]} {["agent_0" := 51; "agent_1" := 51]} ∅)].
Proof. vm_compute. reflexivity. Qed.

(** The data of [agent_0], which shares its key with the later [agent_1],
    does not reach the table. *)
Example write_shadowed_demo :
  items (_writer (_write (demo_window demo_shared_transition') demo_append
                    (demo_adder 2 (Some demo_shared_config))).2) =
  items (_writer (_write (demo_window demo_shared_transition) demo_append
                    (demo_adder 2 (Some demo_shared_config))).2).
Proof. vm_compute. reflexivity. Qed.

(** The scenario of the specification: the table requires ["network_a"] and
    ["network_b"], and both agents have ["network_a"]. *)
Example write_unmatched_demo :
  (_write (demo_window demo_shared_transition) demo_append
     (demo_adder 2 (Some demo_unmatched_config))).1 =
  inl (ValidationError {["agent_0"; "agent_1"]}).
Proof. vm_compute. reflexivity. Qed.

Example write_without_config_demo :
  _write (demo_window demo_transition) demo_append (demo_adder 2 None) =
  (inl TypeError,
   mkAdder tt 2 tt 0 0 None 3 demo_priority_fns 5 true (mkWriter 0 tt [] []) [(0, 0)]).
Proof. vm_compute. reflexivity. Qed.

Example record_episode_demo :
  option_map (λ r, (r.1, window_sizes r.2))
    (record_episode (demo_window demo_transition) demo_append demo_buffer
       [tt; tt; tt; tt; tt] (demo_adder 3 (Some demo_config))) =
  Some (inr tt, [1; 2; 3; 3; 3; 2; 1]).
Proof. vm_compute. reflexivity. Qed.

Example learner_demo :
  learner demo_learn id 0 (mkConfig 1 2) demo_world =
  (Done 3,
   mkWorld [] [3; 3]
     [mkEvalOutput [(tt, tt); (tt, tt)] 3 [tt; tt]]
     [EvGet (mkEntry 1 tt tt tt); EvLearn 1; EvUpdate 0 1; EvUpdate 1 1;
      EvGet (mkEntry 2 tt tt tt); EvLearn 3; EvUpdate 0 3; EvUpdate 1 3;
      EvPut (mkEvalOutput [(tt, tt); (tt, tt)] 3 [tt; tt])]).
Proof. reflexivity. Qed.

(** ** The theorems on the instance *)

Lemma compute_cumulative_quantities_witness :
  _compute_cumulative_quantities Z.add Z.mul (Z.of_nat 3)
    [[1; 1; 1]] [[1; 1; 0]] [2] =
  inr ([7], [0]).
Proof.
  apply (compute_cumulative_quantities_closed_form 0 1 Z.add Z.mul Z.sub Z.opp
           Zth 3 3 [2] [[1; 1; 1]] [[1; 1; 0]]);
    [lia|lia|repeat constructor|repeat constructor|reflexivity|reflexivity].
Defined.

(** On the writer that counts its steps, where a window outside the
    history cannot be read, the episodes of the instance are recorded
    without a raise. *)
Lemma demo_counting_episode_returns (N : Z) (steps : list unit) :
  (N, steps) = (2, [tt; tt; tt]) ∨ (N, steps) = (3, [tt; tt]) →
  fst <$> record_episode (demo_counting_window demo_transition) demo_counting_append
            demo_counting_buffer steps (demo_counting_adder N (Some demo_config)) =
  Some (inr tt).
Proof. intros [[= -> ->]|[= -> ->]]; vm_compute; reflexivity. Qed.

Lemma episode_window_sizes_witness :
  ∃ self',
    record_episode (demo_counting_window demo_transition) demo_counting_append
      demo_counting_buffer [tt; tt; tt] (demo_counting_adder 2 (Some demo_config)) =
      Some (inr tt, self') ∧
    window_sizes self' = expected_sizes 2 3 ∧
    window_sizes self' = [1; 2; 2; 1] ∧
    length (window_sizes self') = (3 + 2 - 1)%nat.
Proof.
  destruct (episode_window_sizes (demo_counting_window demo_transition)
              demo_counting_append demo_counting_buffer 0%nat [] 2 3 tt tt
              (Some demo_priority_fns) (Some demo_config) 5 [tt; tt; tt]
              (demo_counting_adder 2 (Some demo_config)))
    as (r & self' & Hep & _ & Hr); [lia|reflexivity|reflexivity|].
  pose proof (demo_counting_episode_returns 2 [tt; tt; tt] (or_introl eq_refl)) as Hret.
  rewrite Hep in Hret. injection Hret as ->.
  destruct (Hr eq_refl) as [Hsizes Hlen].
  exists self'. split_and!; [exact Hep|exact Hsizes| |exact Hlen].
  rewrite Hsizes. reflexivity.
Defined.

(** C2 (as stated) fails: an episode of 2 steps under [n_step = 2] forms the
    windows of sizes 1, 2 and 1 that the claim lists, which are 3
    transitions and not 2. *)
Lemma episode_count_counterexample :
  ∃ self',
    record_episode (demo_window demo_transition) demo_append demo_buffer
      [tt; tt] (demo_adder 2 (Some demo_config)) = Some (inr tt, self') ∧
    window_sizes self' = expected_sizes 2 2 ∧
    window_sizes self' = [1; 2; 1] ∧
    length (window_sizes self') ≠ 2%nat.
Proof. eexists. split; [vm_compute; reflexivity|]. by vm_compute. Qed.

Lemma demo_routing_inputs (cfg : option TableNetConfig) (keys : gmap string string) :
  dom (action (demo_payloads keys)) ⊆ dom keys →
  (∀ c, cfg = Some c → is_Some (c !! "trainer_0")) →
  routing_inputs cfg demo_priority_fns (demo_payloads keys).
Proof.
  intros Hkeys Hcfg. split_and!; [done| |].
  - exists keys. split; [reflexivity|done].
  - intros c Hc. repeat constructor. by apply Hcfg.
Qed.

Lemma write_validation_error_witness :
  routing_inputs (Some demo_unmatched_config) demo_priority_fns demo_shared_transition ∧
  {["agent_0"; "agent_1"]} = dom (action demo_shared_transition) ∧
  items (_writer (_write (demo_window demo_shared_transition) demo_append
                    (demo_adder 2 (Some demo_unmatched_config))).2) = [].
Proof.
  assert (routing_inputs (Some demo_unmatched_config) demo_priority_fns
            demo_shared_transition) as Hin.
  { apply demo_routing_inputs.
    - apply (bool_decide_unpack _). vm_compute. exact I.
    - intros c [= <-]. vm_compute. eauto. }
  split; [exact Hin|].
  apply (proj1 (proj2 (write_validation_error_iff
                         (demo_window demo_shared_transition) demo_append
                         (demo_adder 2 (Some demo_unmatched_config))
                         demo_shared_transition eq_refl Hin))
           {["agent_0"; "agent_1"]}).
  vm_compute. reflexivity.
Defined.

Lemma write_without_config_witness :
  routing_inputs None demo_priority_fns demo_transition ∧
  (_write (demo_window demo_transition) demo_append (demo_adder 2 None)).1 =
    inl TypeError ∧
  items (_writer (_write (demo_window demo_transition) demo_append
                    (demo_adder 2 None)).2) = [].
Proof.
  assert (routing_inputs None demo_priority_fns demo_transition) as Hin.
  { apply demo_routing_inputs.
    - apply (bool_decide_unpack _). vm_compute. exact I.
    - intros c [=]. }
  split; [exact Hin|].
  apply (write_without_config_raises (demo_window demo_transition) demo_append
           (demo_adder 2 None) demo_transition eq_refl eq_refl Hin).
Defined.

Lemma window_pointer_invariant_witness :
  1 ≤ 2 ∧
  window_invariant
    (add (demo_window demo_transition) demo_append demo_buffer tt
       (demo_adder 2 (Some demo_config))).2.
Proof.
  split; [lia|].
  destruct (window_pointer_invariant (demo_window demo_transition) demo_append
              demo_buffer tt [] tt 2 tt (Some demo_priority_fns) (Some demo_config) 5
              (demo_adder 2 (Some demo_config))
              (add (demo_window demo_transition) demo_append demo_buffer tt
                 (demo_adder 2 (Some demo_config))).2
              eq_refl ltac:(lia)
              (reachable_add _ _ _ _ _ _ tt (reachable_init _ _ _ _ _)))
    as (_ & Hinv & _).
  exact Hinv.
Defined.

Lemma routed_transition_reindexed_witness :
  ∃ new_items : list (@Item Z Z Z Z Z),
    items (_writer (_write (demo_window demo_transition) demo_append
                      (demo_adder 2 (Some demo_config))).2) = [] ++ new_items ∧
    Forall (λ it, ∃ c req nk,
              Some demo_config = Some c ∧ c !! item_table it = Some req ∧
              extras demo_transition !! "network_keys" = Some nk ∧
              (∀ key, key ∈ req → assigned demo_transition key) ∧
              slots_filled
                (λ key cur, nk !! cur = Some key ∧
                            is_Some (action demo_transition !! cur))
                demo_transition (item_trajectory it) req) new_items.
Proof.
  destruct (routed_transition_reindexed (demo_window demo_transition) demo_append
              (demo_adder 2 (Some demo_config)) demo_transition eq_refl)
    as (new_items & Hitems & Hall & _).
  exists new_items. split; [exact Hitems|exact Hall].
Defined.

Lemma demo_shared_inputs :
  routing_inputs (Some demo_shared_config) demo_priority_fns demo_shared_transition ∧
  complete_inputs (Some demo_shared_config) demo_shared_transition ∧
  matched (Some demo_shared_config) demo_shared_transition "trainer_0".
Proof.
  split_and!.
  - apply demo_routing_inputs.
    + apply (bool_decide_unpack _). vm_compute. exact I.
    + intros c [= <-]. vm_compute. eauto.
  - unfold complete_inputs.
    split_and!; try (apply (bool_decide_unpack _); vm_compute; exact I).
    intros c [= <-]. apply map_Forall_lookup. intros table req Hreq.
    unfold demo_shared_config in Hreq.
    apply lookup_singleton_Some in Hreq as [_ <-]. vm_compute. lia.
  - exists demo_shared_config, ["network_a"; "network_a"].
    split_and!; [reflexivity|vm_compute; reflexivity|].
    intros net_key Hkey.
    assert (net_key = "network_a") as ->.
    { apply elem_of_cons in Hkey as [->|Hkey]; [done|].
      apply elem_of_cons in Hkey as [->|Hkey]; [done|]. by apply elem_of_nil in Hkey. }
    exists {["agent_0" := "network_a"; "agent_1" := "network_a"]}, "agent_1".
    split_and!; [reflexivity|vm_compute; eauto|vm_compute; reflexivity].
Qed.

Lemma shared_network_key_witness :
  extras demo_shared_transition !! "network_keys" =
    Some {["agent_0" := "network_a"; "agent_1" := "network_a"]} ∧
  ∃ new_items : list (@Item Z Z Z Z Z),
    items (_writer (_write (demo_window demo_shared_transition) demo_append
                      (demo_adder 2 (Some demo_shared_config))).2) = [] ++ new_items ∧
    Forall (λ it, ∃ req,
              table_config (Some demo_shared_config) (item_table it) = inr req ∧
              slots_filled
                (last_with_key {["agent_0" := "network_a"; "agent_1" := "network_a"]}
                   (agents_of demo_shared_transition))
                demo_shared_transition (item_trajectory it) req ∧
              ∀ x, (∀ i, (i < length req)%nat →
                         agents_of demo_shared_transition !! i ≠ Some x) →
                   slot_kept empty_transition (item_trajectory it) x) new_items ∧
    (∃ it, it ∈ new_items ∧ item_table it = "trainer_0") ∧
    observation <$> (item_trajectory <$> new_items) =
      [{["agent_0" := 11; "agent_1" := 11]}].
Proof.
  split; [reflexivity|].
  destruct (shared_network_key_keeps_last_agent
              (demo_window demo_shared_transition) demo_append
              (demo_adder 2 (Some demo_shared_config)) demo_shared_transition
              {["agent_0" := "network_a"; "agent_1" := "network_a"]}
              eq_refl eq_refl) as (_ & (new_items & Hitems & Hall & Hex) & _).
  destruct demo_shared_inputs as (Hin & Hcomplete & Hm).
  exists new_items. split_and!; [exact Hitems|exact Hall| |].
  - apply (Hex Hin Hcomplete "trainer_0"); [|exact Hm]. vm_compute. by left.
  - rewrite (eq_sym Hitems : new_items = _). vm_compute. reflexivity.
Defined.

(** * Further properties *)

(** ** [_compute_cumulative_quantities]: short windows and terminal steps *)

Section CumulativeEdges.
Context {R : Type}.
Context (rO rI : R) (radd rmul rsub : R → R → R) (ropp : R → R).
Hypothesis Rth : ring_theory rO rI radd rmul rsub ropp (@eq R).
Add Ring Rring_edges : Rth.

Local Notation "a ⊕ b" := (radd a b) (at level 50, left associativity).
Local Notation "a ⊗ b" := (rmul a b) (at level 40, left associativity).

(** The leaves that have an element at index [i]. *)
Local Abbreviation reach i := (Forall (λ a : list R, (i < length a)%nat)).

Lemma index_cases (a : list R) (i : nat) :
  (index a i = inr (nth i a rO) ∧ (i < length a)%nat) ∨
  (index a i = inl IndexError ∧ ¬ (i < length a)%nat).
Proof.
  destruct (decide (i < length a)%nat) as [Hi|Hi].
  - left. split; [by apply index_nth|done].
  - right. split; [|done]. unfold index.
    by rewrite lookup_ge_None_2 by lia.
Qed.

Lemma first_elements_cases (flat : list (list R)) :
  (first_elements flat = inr ((λ a, nth 0 a rO) <$> flat) ∧ reach 0%nat flat) ∨
  (first_elements flat = inl IndexError ∧ ¬ reach 0%nat flat).
Proof.
  induction flat as [|a flat IH]; simpl; [left; by split|].
  destruct (index_cases a 0) as [[-> Ha]|[-> Ha]]; simpl.
  - destruct IH as [[-> IH]|[-> IH]]; simpl.
    + left. split; [done|by constructor].
    + right. split; [done|]. by intros [_ ?]%Forall_cons.
  - right. split; [done|]. by intros [? _]%Forall_cons.
Qed.

Lemma initial_return_cases (flat_rewards : list (list R)) (total_discount : list R) :
  length total_discount = length flat_rewards →
  (initial_return flat_rewards total_discount
     = inr ((λ a, nth 0 a rO) <$> flat_rewards) ∧ reach 0%nat flat_rewards) ∨
  (initial_return flat_rewards total_discount = inl IndexError ∧
   ¬ reach 0%nat flat_rewards).
Proof.
  revert total_discount.
  induction flat_rewards as [|r rs IH]; intros [|td tds] Hlen; simplify_eq/=;
    [left; by split|].
  destruct (index_cases r 0) as [[-> Hr]|[-> Hr]]; simpl.
  - destruct (IH tds) as [[-> IH']|[-> IH']]; [done| |]; simpl.
    + left. split; [done|by constructor].
    + right. split; [done|]. by intros [_ ?]%Forall_cons.
  - right. split; [done|]. by intros [? _]%Forall_cons.
Qed.

(** X1.  [_compute_cumulative_quantities] for [_n_step <= 1]: the loop of
    line 317 has no iteration, so on every leaf the return is the first
    reward and the total discount the first discount, whatever the agent's
    own discount is and whatever follows the first step. *)
Theorem cumulative_quantities_of_one_step
    (n_step : Z) (sds : list R) (rs ds : list (list R)) :
  n_step ≤ 1 →
  Forall (λ r : list R, (0 < length r)%nat) rs →
  Forall (λ d : list R, (0 < length d)%nat) ds →
  length ds = length rs →
  _compute_cumulative_quantities radd rmul n_step rs ds sds =
  inr ((λ r, nth 0 r rO) <$> rs, (λ d, nth 0 d rO) <$> ds).
Proof.
  intros Hn Hrs Hds Hlen. unfold _compute_cumulative_quantities.
  destruct (first_elements_cases ds) as [[-> _]|[_ Hno]]; [|done]. simpl.
  destruct (initial_return_cases rs ((λ a, nth 0 a rO) <$> ds))
    as [[-> _]|[_ Hno]]; [by rewrite length_fmap| |done].
  simpl. by replace (Z.to_nat (n_step - 1)) with 0%nat by lia.
Qed.




Lemma total_discount_spec_zero (k j : nat) (sd : R) (d : list R) :
  (j < k)%nat → (k ≤ length d)%nat → nth j d rO = rO →
  total_discount_spec rI rmul k sd d = rO.
Proof.
  intros Hj Hk Hz. induction k as [|k IH]; [lia|].
  destruct (decide (k = 0%nat)) as [->|Hk0].
  - assert (j = 0%nat) as -> by lia.
    by rewrite (discount_spec_one rO rI radd rmul rsub ropp Rth) by lia.
  - rewrite (discount_spec_succ rO rI radd rmul rsub ropp Rth) by lia.
    destruct (decide (j = k)) as [->|Hne].
    + rewrite Hz. ring.
    + rewrite IH by lia. ring.
Qed.

Lemma n_step_return_spec_cut (k j : nat) (sd : R) (r d : list R) :
  (j < k)%nat → (k ≤ length d)%nat → nth j d rO = rO →
  n_step_return_spec rO rI radd rmul k sd r d =
  n_step_return_spec rO rI radd rmul (S j) sd r d.
Proof.
  intros Hj Hk Hz. induction k as [|k IH]; [lia|].
  destruct (decide (j = k)) as [->|Hne]; [done|].
  rewrite (return_spec_succ rO rI radd rmul rsub ropp Rth) by lia.
  rewrite (total_discount_spec_zero k j) by (done || lia).
  rewrite IH by lia. ring.
Qed.

Lemma compute_cumulative_quantities_spec (k : nat) (sds : list R)
    (rs ds : list (list R)) :
  (1 ≤ k)%nat →
  Forall (λ r, length r = k) rs → Forall (λ d, length d = k) ds →
  length ds = length rs → length sds = length rs →
  _compute_cumulative_quantities radd rmul (Z.of_nat k) rs ds sds =
  inr (returns_spec rO rI radd rmul k sds rs ds, discounts_spec rI rmul k sds ds).
Proof.
  intros Hk Hrs Hds Hlen Hlen'. unfold _compute_cumulative_quantities.
  rewrite (first_elements_spec rO rI radd rmul rsub ropp Rth k sds)
    by (done || lia).
  simpl.
  rewrite (initial_return_spec rO rI radd rmul rsub ropp Rth k sds _ rs ds);
    try done; try lia.
  2:{ clear -Hlen Hlen'. revert sds rs Hlen Hlen'.
      induction ds as [|d ds IH]; intros [|sd sds] [|r rs] ??;
        simplify_eq/=; auto. }
  simpl. replace (Z.to_nat (Z.of_nat k - 1)) with (k - 1)%nat by lia.
  rewrite (accumulate_range_spec rO rI radd rmul rsub ropp Rth k)
    by (done || lia).
  do 3 f_equal; lia.
Qed.

(** X3.  A terminal step ends the return: when on every leaf the discount
    of step [j] of the window is zero, the n-step return is the return of
    the first [j + 1] steps, so the rewards after step [j] do not count,
    and the total discount is zero. *)
Theorem cumulative_quantities_stop_at_terminal
    (k j : nat) (sds : list R) (rs ds : list (list R)) :
  (j < k)%nat →
  Forall (λ r, length r = k) rs →
  Forall (λ d, length d = k ∧ nth j d rO = rO) ds →
  length ds = length rs → length sds = length rs →
  _compute_cumulative_quantities radd rmul (Z.of_nat k) rs ds sds =
  inr (returns_spec rO rI radd rmul (S j) sds rs ds, replicate (length ds) rO).
Proof.
  intros Hj Hrs Hds Hlen Hlen'.
  rewrite compute_cumulative_quantities_spec; try done; try lia.
  2:{ eapply Forall_impl; [exact Hds|]. by intros d [? _]. }
  f_equal. f_equal.
  - clear Hrs. revert sds rs Hlen Hlen'.
    induction Hds as [|d ds [Hd Hz] _ IH]; intros [|sd sds] [|r rs] ??;
      simplify_eq/=; [done|].
    f_equal; [|by apply IH].
    apply n_step_return_spec_cut; [done|lia|done].
  - assert (length sds = length ds) as Hsds by lia.
    clear Hrs Hlen Hlen'. revert sds Hsds.
    induction Hds as [|d ds [Hd Hz] _ IH]; intros [|sd sds] ?;
      simplify_eq/=; [done|].
    f_equal; [|by apply IH].
    apply (total_discount_spec_zero _ j); [done|lia|done].
Qed.

End CumulativeEdges.

(** ** [_write]: what it leaves alone and the exceptions that escape it *)

Section WriteEdges.
Context {Client Obs Act Rew Disc Prio Gamma History : Type}.
Variable window_transition : Gamma → Z → Z → History → Res (@Transition Obs Act Rew Disc).
Variable append_derived : gmap string Rew → gmap string Disc → bool → History → History.

Local Abbreviation Tr := (@Transition Obs Act Rew Disc).
Local Abbreviation Wr := (@Writer Obs Act Rew Disc Prio History).
Local Abbreviation It := (@Item Obs Act Rew Disc Prio).
Local Abbreviation Ad := (@Adder Client Obs Act Rew Disc Prio Gamma History).

Implicit Types (tr new : Tr) (w : Wr) (self : Ad) (cfg : option TableNetConfig).
Implicit Types (fns : list (string * (Tr → Prio))).

(** The table and the priority of an item. *)
Local Abbreviation placed := (λ it : It, (item_table it, item_priority it)).

(** The extras record a network key for every agent that acted. *)
Local Abbreviation keyed tr :=
  (∃ net_keys, extras tr !! "network_keys" = Some net_keys ∧
               dom (action tr) ⊆ dom net_keys).

Lemma keyed_agents tr :
  keyed tr →
  ∃ nk, extras tr !! "network_keys" = Some nk ∧
        ∀ agent, is_Some (action tr !! agent) → is_Some (nk !! agent).
Proof.
  intros (nk & Hnk & Hsub). exists nk. split; [done|].
  intros agent Hagent. apply elem_of_dom, Hsub. by apply elem_of_dom.
Qed.

Lemma keyed_nets_agent tr :
  keyed tr →
  ∃ nk tna, getitem (extras tr) "network_keys" = inr nk ∧
            extras tr !! "network_keys" = Some nk ∧
            trans_nets_agent nk (agents_of tr) ∅ = inr tna.
Proof.
  intros (nk & Hnk & Hall)%keyed_agents.
  destruct (trans_nets_agent_ok nk (agents_of tr) ∅) as [tna Htna].
  { intros agent ?%elem_of_agents_of. eauto. }
  exists nk, tna. split; [by apply getitem_inr|done].
Qed.

Lemma write_tables_app cfg tr (tps tps' : list (string * Prio)) created w :
  _write_tables cfg tr (tps ++ tps') created w =
  match _write_tables cfg tr tps created w with
  | (inl e, w') => (inl e, w')
  | (inr b, w') => _write_tables cfg tr tps' b w'
  end.
Proof.
  revert created w. induction tps as [|[table prio] tps IH]; intros created w;
    simpl; [done|].
  unfold se_bind. destruct (_write_table cfg tr table prio created w) as [[e|b] w'];
    [done|]. apply IH.
Qed.

Lemma write_tables_order cfg tr (tps : list (string * Prio)) created w :
  ∃ r new_items,
    _write_tables cfg tr tps created w =
      (r, mkWriter (episode_steps w) (history w) (items w ++ new_items) (flushes w)) ∧
    sublist (placed <$> new_items) tps ∧
    (∀ ks, r ≠ inl (ValidationError ks)).
Proof.
  revert created w. induction tps as [|[table prio] tps IH]; intros created w; simpl.
  - exists (inr created), []. rewrite app_nil_r. destruct w.
    split_and!; [done|constructor|done].
  - unfold se_bind.
    destruct (write_table_cases cfg tr table prio created w)
      as [(e & -> & He)|[[-> Hskip]|(new & Hnew & ->)]].
    + exists (inl e), []. rewrite app_nil_r. destruct w.
      split_and!; [done|apply sublist_nil_l|]. intros ks [= ->]. by eapply He.
    + destruct (IH created w) as (r & new_items & -> & Hsub & Hval).
      exists r, new_items. split_and!; [done| |done]. by apply sublist_cons.
    + destruct (IH true (with_item w (mkItem table prio new)))
        as (r & new_items & -> & Hsub & Hval).
      exists r, (mkItem table prio new :: new_items). simpl.
      rewrite <-(assoc_L (++)). split_and!; [done| |done].
      by apply (sublist_skip (table, prio)).
Qed.

Lemma write_insert_flush cfg fns (mif : Z) tr w :
  ∃ r new_items fl,
    _write_insert cfg fns mif tr w =
      (r, mkWriter (episode_steps w) (history w) (items w ++ new_items)
            (flushes w ++ fl)) ∧
    sublist (placed <$> new_items) (calculate_priorities fns tr) ∧
    ((fl = [mif] ∧ (r = inr tt ∨ r = inl (ValidationError (dom (action tr))))) ∨
     (fl = [] ∧ ∃ e, r = inl e ∧ ∀ ks, e ≠ ValidationError ks)).
Proof.
  unfold _write_insert, se_bind.
  destruct (write_tables_order cfg tr (calculate_priorities fns tr) false w)
    as (r & new_items & -> & Hsub & Hval).
  destruct r as [e|[|]]; simpl.
  - exists (inl e), new_items, []. rewrite app_nil_r. split_and!; [done..|].
    right. split; [done|]. exists e. split; [done|]. intros ks ->. by eapply Hval.
  - exists (inr tt), new_items, [mif]. split_and!; [done..|]. left. eauto.
  - exists (inl (ValidationError (dom (action tr)))), new_items, [mif].
    split_and!; [done..|]. left. eauto.
Qed.

(** X4.  [_write] never moves the window and never changes the set-up of
    the adder: it only adds to what the writer holds.  It calls [flush]
    once, with [max_in_flight_items], when the loop over the tables has
    ended, whether it then returns or raises the [ValidationError]; when
    another exception escapes, [flush] is not called. *)
Theorem write_only_adds_to_writer self :
  let result := _write window_transition append_derived self in
  _first_idx result.2 = _first_idx self ∧
  _last_idx result.2 = _last_idx self ∧
  same_setup self result.2 ∧
  ∃ new_items fl,
    items (_writer result.2) = items (_writer self) ++ new_items ∧
    flushes (_writer result.2) = flushes (_writer self) ++ fl ∧
    ((fl = [_max_in_flight_items self] ∧
      ∃ tr, window_transition (_discount self) (_first_idx self) (_last_idx self)
              (history (_writer self)) = inr tr ∧
            (result.1 = inr tt ∨
             result.1 = inl (ValidationError (dom (action tr))))) ∨
     (fl = [] ∧
      ∃ e, result.1 = inl e ∧
           ((window_transition (_discount self) (_first_idx self) (_last_idx self)
               (history (_writer self)) = inl e ∧ new_items = []) ∨
            ((∃ tr, window_transition (_discount self) (_first_idx self)
                      (_last_idx self) (history (_writer self)) = inr tr) ∧
             ∀ ks, e ≠ ValidationError ks)))).
Proof.
  intros result. subst result.
  destruct (write_frame window_transition append_derived self)
    as (Hfirst & Hlast & Hsetup & _).
  split; [done|]. split; [done|]. split; [done|].
  destruct (window_transition (_discount self) (_first_idx self) (_last_idx self)
              (history (_writer self))) as [e|tr] eqn:Hwin.
  - rewrite (write_raises_window _ _ _ _ Hwin). simpl.
    exists [], []. rewrite !app_nil_r. split; [done|]. split; [done|].
    right. split; [done|]. exists e. split; [done|]. by left.
  - rewrite (write_unfold _ _ _ _ Hwin). cbn zeta.
    match goal with |- context [_write_insert ?c ?f ?m ?t ?w] =>
      destruct (write_insert_flush c f m t w) as (r & new_items & fl & Heq & _ & Hfl)
    end.
    rewrite Heq. simpl. exists new_items, fl. split; [done|]. split; [done|].
    destruct Hfl as [[-> Hr]|[-> (e & -> & He)]].
    + left. split; [done|]. by exists tr.
    + right. split; [done|]. exists e. split; [done|]. right. split; [by exists tr|done].
Qed.

(** X5.  The items that one call of [_write] creates follow the order of
    the tables of the priority functions, at most one for each of them,
    and the priority of an item is the value that the function of its
    table gives the transition as it was before the routing. *)
Theorem write_items_follow_table_order self tr :
  window_transition (_discount self) (_first_idx self) (_last_idx self)
    (history (_writer self)) = inr tr →
  let result := _write window_transition append_derived self in
  ∃ new_items,
    items (_writer result.2) = items (_writer self) ++ new_items ∧
    sublist ((λ it : It, (item_table it, item_priority it)) <$> new_items)
      (calculate_priorities (_priority_fns self) tr).
Proof.
  intros Hwin result. subst result.
  rewrite (write_unfold _ _ _ _ Hwin). cbn zeta.
  match goal with |- context [_write_insert ?c ?f ?m ?t ?w] =>
    destruct (write_insert_flush c f m t w) as (r & new_items & fl & Heq & Hsub & _)
  end.
  rewrite Heq. simpl. by exists new_items.
Qed.

Lemma write_table_missing c tr table (prio : Prio) created w :
  keyed tr → c !! table = None →
  _write_table (Some c) tr table prio created w = (inl (KeyError table), w).
Proof.
  intros (nk & tna & Hget & _ & Htna)%keyed_nets_agent Hnone.
  unfold _write_table, se_bind, se_lift. rewrite Hget. fold (agents_of tr).
  rewrite Htna. unfold table_accepts, table_config, getitem. rewrite Hnone.
  by destruct (negb (truthy (Some c))).
Qed.

(** X6.  A table of the priority functions that the configuration does not
    list makes [_write] raise a [KeyError] for it, also under the empty
    configuration.  The exception escapes in the middle of the loop: the
    items of the tables that come before it stay created, and [flush] is
    not called. *)
Theorem write_table_missing_from_config self tr c pre table fn post :
  window_transition (_discount self) (_first_idx self) (_last_idx self)
    (history (_writer self)) = inr tr →
  _table_net_config self = Some c →
  _priority_fns self = pre ++ (table, fn) :: post →
  c !! table = None →
  Forall (λ earlier, is_Some (c !! earlier)) pre.*1 →
  (∃ net_keys, extras tr !! "network_keys" = Some net_keys ∧
               dom (action tr) ⊆ dom net_keys) →
  complete_inputs (Some c) tr →
  let result := _write window_transition append_derived self in
  result.1 = inl (KeyError table) ∧
  flushes (_writer result.2) = flushes (_writer self) ∧
  ∃ new_items,
    items (_writer result.2) = items (_writer self) ++ new_items ∧
    ∀ earlier, earlier ∈ pre.*1 → matched (Some c) tr earlier →
      ∃ it : It, it ∈ new_items ∧ item_table it = earlier.
Proof.
  intros Hwin Hcfg Hfns Hnone Hpre Hkeys Hcomplete result. subst result.
  rewrite (write_unfold _ _ _ _ Hwin). cbn zeta.
  rewrite Hcfg, Hfns. unfold _write_insert, se_bind, calculate_priorities.
  rewrite fmap_app, fmap_cons, write_tables_app. simpl.
  fold (calculate_priorities pre tr).
  match goal with |- context [_write_tables _ _ (calculate_priorities pre tr) _ ?w0] =>
    set (w := w0)
  end.
  destruct (decide (c = ∅)) as [->|Hne].
  - destruct pre as [|[t0 f0] pre'].
    2:{ apply Forall_cons in Hpre as [[? Hsome] _].
        by rewrite lookup_empty in Hsome. }
    simpl. unfold se_bind. rewrite write_table_missing by done. simpl.
    split; [done|]. split; [done|]. exists []. rewrite app_nil_r.
    split; [done|]. by intros earlier ?%elem_of_nil.
  - assert (truthy (Some c) = true) as Htruthy.
    { simpl. by apply negb_true_iff, bool_decide_eq_false. }
    destruct (write_tables_complete (History := History) tr c
                (calculate_priorities pre tr) false w)
      as (b & new_items & -> & Hitems & _);
      [done|by apply keyed_agents| |done|].
    { rewrite calculate_priorities_tables. intros t Ht.
      by apply (proj1 (Forall_forall _ _) Hpre). }
    simpl. unfold se_bind. rewrite write_table_missing by done. simpl.
    split; [done|]. split; [done|]. exists new_items. split; [done|].
    intros earlier Hin Hm.
    apply (list_elem_of_fmap_1 fst) in Hin as Hin'. clear Hin'.
    apply list_elem_of_fmap in Hin as ([t f] & -> & Hin). simpl in *.
    destruct (Hitems t (f tr)) as (it & ? & ? & _); [|done|by exists it].
    apply list_elem_of_fmap. by exists (t, f).
Qed.

Lemma reindex_index_error tr tna agents a_i req new :
  (∀ key, key ∈ req → ∃ cur, tna !! key = Some cur ∧
     is_Some (observation tr !! cur) ∧ is_Some (action tr !! cur) ∧
     is_Some (reward tr !! cur) ∧ is_Some (discount tr !! cur) ∧
     is_Some (next_observation tr !! cur)) →
  (a_i ≤ length agents)%nat → (length agents < a_i + length req)%nat →
  reindex tr tna agents a_i req new = inl IndexError.
Proof.
  revert a_i new. induction req as [|key req IH]; intros a_i new Hall Hle Hlen;
    simpl in *; [lia|].
  destruct (Hall key) as (cur & Hcur & [o Ho] & [a Ha] & [r Hr] & [d Hd] & [o' Ho']);
    [by left|].
  unfold getitem at 1. rewrite Hcur. simpl.
  destruct (decide (a_i < length agents)%nat) as [Hin|Hout].
  - destruct (lookup_lt_is_Some_2 agents a_i Hin) as [want Hwant].
    unfold index. rewrite Hwant. simpl.
    unfold getitem. rewrite Ho, Ha, Hr, Hd, Ho'. simpl.
    apply IH; [|lia..]. intros k Hk. apply Hall. by right.
  - unfold index. by rewrite lookup_ge_None_2 by lia.
Qed.

(** X7.  A table whose list of required network keys is longer than the
    agents of the transition are many, with every key of the list
    assigned, is accepted by the condition of lines 232-235 and then makes
    [_write] raise an [IndexError] at [agents[a_i]]; nothing is created
    for the table and [flush] is not called. *)
Theorem write_required_longer_than_agents self tr c table fn post req :
  window_transition (_discount self) (_first_idx self) (_last_idx self)
    (history (_writer self)) = inr tr →
  _table_net_config self = Some c →
  _priority_fns self = (table, fn) :: post →
  c !! table = Some req →
  (length (agents_of tr) < length req)%nat →
  (∀ net_key, net_key ∈ req → assigned tr net_key) →
  (∃ net_keys, extras tr !! "network_keys" = Some net_keys ∧
               dom (action tr) ⊆ dom net_keys) →
  dom (action tr) ⊆ dom (observation tr) →
  dom (action tr) ⊆ dom (reward tr) →
  dom (action tr) ⊆ dom (discount tr) →
  dom (action tr) ⊆ dom (next_observation tr) →
  let result := _write window_transition append_derived self in
  result.1 = inl IndexError ∧
  items (_writer result.2) = items (_writer self) ∧
  flushes (_writer result.2) = flushes (_writer self).
Proof.
  intros Hwin Hcfg Hfns Hreq Hlen Hassigned Hkeys Ho Hr Hd Ho' result. subst result.
  rewrite (write_unfold _ _ _ _ Hwin). cbn zeta.
  rewrite Hcfg, Hfns. unfold _write_insert, se_bind, calculate_priorities.
  rewrite fmap_cons. simpl. unfold se_bind.
  destruct (keyed_nets_agent tr Hkeys) as (nk & tna & Hget & Hnk & Htna).
  assert (truthy (Some c) = true) as Htruthy.
  { simpl. apply negb_true_iff, bool_decide_eq_false. intros ->.
    by rewrite lookup_empty in Hreq. }
  assert (table_accepts (Some c) tna table = inr true) as Hacc.
  { apply (table_accepts_matched tr nk tna c table); [done..|].
    by exists c, req. }
  unfold _write_table, se_bind, se_lift. rewrite Hget. fold (agents_of tr).
  rewrite Htna, Hacc. simpl. rewrite (proj2 (getitem_inr c table req) Hreq). simpl.
  rewrite reindex_index_error; [by simpl| |lia|simpl; lia].
  intros key Hkey.
  destruct (proj2 (is_Some_nets_agent tr nk tna key Hnk Htna) (Hassigned key Hkey))
    as [cur Hcur].
  exists cur. split; [done|].
  apply (trans_nets_agent_last _ _ _ _ _ Htna) in Hcur.
  apply last_with_key_elem in Hcur as [Hin _].
  apply elem_of_agents_of in Hin.
  assert (cur ∈ dom (action tr)) as Hdom by by apply elem_of_dom.
  split_and!; [apply elem_of_dom; set_solver|done|
               apply elem_of_dom; set_solver..].
Qed.

Lemma trans_nets_agent_missing (nk : gmap string string) agents acc :
  (∃ agent, agent ∈ agents ∧ nk !! agent = None) →
  ∃ agent, agent ∈ agents ∧ nk !! agent = None ∧
           trans_nets_agent nk agents acc = inl (KeyError agent).
Proof.
  revert acc. induction agents as [|a agents IH]; intros acc (agent & Hin & Hnone).
  { by apply elem_of_nil in Hin. }
  simpl. unfold getitem. destruct (nk !! a) as [key|] eqn:Ha; simpl.
  - destruct (IH (<[key := a]> acc)) as (b & ? & ? & ->).
    { apply elem_of_cons in Hin as [->|?]; [congruence|eauto]. }
    exists b. split; [by right|done].
  - exists a. split; [by left|done].
Qed.

(** X8.  The network keys are read from the extras for every table.  With
    at least one table, a transition whose extras have no
    ["network_keys"] makes [_write] raise a [KeyError] for that name, and
    one whose network keys leave out an agent that acted makes it raise a
    [KeyError] for such an agent; in both cases nothing is created and
    [flush] is not called. *)
Theorem write_missing_network_key self tr :
  window_transition (_discount self) (_first_idx self) (_last_idx self)
    (history (_writer self)) = inr tr →
  _priority_fns self ≠ [] →
  let result := _write window_transition append_derived self in
  (extras tr !! "network_keys" = None →
     result.1 = inl (KeyError "network_keys") ∧
     items (_writer result.2) = items (_writer self) ∧
     flushes (_writer result.2) = flushes (_writer self)) ∧
  (∀ net_keys,
     extras tr !! "network_keys" = Some net_keys →
     ¬ dom (action tr) ⊆ dom net_keys →
     (∃ agent, is_Some (action tr !! agent) ∧ net_keys !! agent = None ∧
               result.1 = inl (KeyError agent)) ∧
     items (_writer result.2) = items (_writer self) ∧
     flushes (_writer result.2) = flushes (_writer self)).
Proof.
  intros Hwin Hfns result. subst result.
  rewrite (write_unfold _ _ _ _ Hwin). cbn zeta.
  destruct (_priority_fns self) as [|[table fn] fns] eqn:Hfns_eq; [done|].
  unfold _write_insert, se_bind, calculate_priorities.
  rewrite fmap_cons. simpl. unfold se_bind.
  unfold _write_table, se_bind, se_lift. split.
  - intros Hnone. unfold getitem. by rewrite Hnone.
  - intros nk Hnk Hsub. unfold getitem. rewrite Hnk. fold (agents_of tr).
    destruct (trans_nets_agent_missing nk (agents_of tr) ∅)
      as (agent & Hin & Hnone & ->).
    { destruct (decide (Forall (λ a, is_Some (nk !! a)) (agents_of tr)))
        as [Hall|Hno].
      - destruct Hsub. intros a Ha. apply elem_of_dom.
        apply (proj1 (Forall_forall _ _) Hall).
        by apply elem_of_agents_of, elem_of_dom.
      - apply not_Forall_Exists in Hno; [|apply _].
        apply Exists_exists in Hno as (a & Hin & Hn).
        exists a. split; [done|]. by apply eq_None_not_Some. }
    simpl. split; [|done]. exists agent.
    split; [by apply elem_of_agents_of|done].
Qed.

(** X9.  An adder without any table cannot write: with no priority
    function, every call of [_write] that can read its window calls
    [flush] and raises the [ValidationError], whatever the configuration
    and the transition are. *)
Theorem write_without_tables_raises self tr :
  window_transition (_discount self) (_first_idx self) (_last_idx self)
    (history (_writer self)) = inr tr →
  _priority_fns self = [] →
  let result := _write window_transition append_derived self in
  result.1 = inl (ValidationError (dom (action tr))) ∧
  items (_writer result.2) = items (_writer self) ∧
  flushes (_writer result.2) = flushes (_writer self) ++ [_max_in_flight_items self].
Proof.
  intros Hwin Hfns result. subst result.
  rewrite (write_unfold _ _ _ _ Hwin). cbn zeta. by rewrite Hfns.
Qed.

End WriteEdges.

(** ** The window after a number of steps, without a window, at the end *)

Section PointerEdges.
Context {Client Obs Act Rew Disc Prio Step Gamma History : Type}.
Variable window_transition : Gamma → Z → Z → History → Res (@Transition Obs Act Rew Disc).
Variable append_derived : gmap string Rew → gmap string Disc → bool → History → History.
Variable buffer_step : Step → History → History.
Variable empty_history : History.
Variable default_priority_fns : list (string * (@Transition Obs Act Rew Disc → Prio)).

Local Abbreviation Ad := (@Adder Client Obs Act Rew Disc Prio Gamma History).
Local Abbreviation write := (@_write Client Obs Act Rew Disc Prio Gamma History
                               window_transition append_derived).
Local Abbreviation add_step :=
  (@add Client Obs Act Rew Disc Prio Step Gamma History
     window_transition append_derived buffer_step).
Local Abbreviation do_reset :=
  (@reset Client Obs Act Rew Disc Prio Gamma History empty_history).
Local Abbreviation last_loop :=
  (@_write_last_loop Client Obs Act Rew Disc Prio Gamma History
     window_transition append_derived).

Implicit Types (self : Ad).

Lemma adds_in_episode self0 (steps : list Step) :
  in_episode self0 →
  in_episode (foldl (λ self step, (add_step step self).2) self0 steps) ∧
  n_step (foldl (λ self step, (add_step step self).2) self0 steps) = n_step self0 ∧
  _last_idx (foldl (λ self step, (add_step step self).2) self0 steps) =
    _last_idx self0 + Z.of_nat (length steps).
Proof.
  revert self0. induction steps as [|step steps IH]; intros self0 H0; simpl.
  { split_and!; [done..|lia]. }
  destruct (add_in_episode window_transition append_derived buffer_step step self0 H0)
    as (H1 & (Hn & _) & Hl & _).
  destruct (IH _ H1) as (H2 & Hn' & Hl').
  split_and!; [done|congruence|lia].
Qed.

(** X10.  After [k] calls of [add] on a new adder with [n_step >= 1],
    whether the calls returned or raised, the window ends at [k] and
    starts at [max(0, k - n_step)]: its effective size is
    [min(k, n_step)]. *)
Theorem window_after_adds client n disc pf cfg mif self0 (steps : list Step) :
  __init__ empty_history default_priority_fns client n disc pf cfg mif = inr self0 →
  1 ≤ n →
  let self :=
    foldl (λ self step,
             (add window_transition append_derived buffer_step step self).2)
      self0 steps in
  _last_idx self = Z.of_nat (length steps) ∧
  _first_idx self = Z.max 0 (Z.of_nat (length steps) - n) ∧
  _n_step self = Z.min (Z.of_nat (length steps)) n.
Proof.
  intros Hinit Hn self.
  destruct (init_in_episode empty_history default_priority_fns
              client n disc pf cfg mif self0 Hinit Hn)
    as (H0 & Hn0 & _ & _ & Hl0).
  destruct (adds_in_episode self0 steps H0) as ((_ & Hf & _ & _) & Hn' & Hl).
  fold self in Hf, Hn', Hl. unfold _n_step.
  rewrite Hf, Hl, Hn', Hn0, Hl0. lia.
Qed.

(** The adder between two steps when [n_step] is not positive: the window
    is empty, and so was every window formed so far. *)
Local Abbreviation without_window self :=
  (0 ≤ _last_idx self ∧ _first_idx self = _last_idx self ∧
   episode_steps (_writer self) = _last_idx self ∧ n_step self ≤ 0 ∧
   Forall (λ size, size = 0) (window_sizes self)).

Lemma add_without_window step self :
  without_window self → without_window (add_step step self).2.
Proof.
  intros (Hlast & Hfirst & Hsteps & Hn & Hsizes). rewrite add_unfold.
  assert (add_before_write buffer_step step self =
          set_writer (append (buffer_step step) false (_writer self))
            (set_last_idx (_last_idx self + 1)
               (set_first_idx (_first_idx self + 1) self))) as Hbefore.
  { unfold add_before_write.
    destruct (Z.geb_spec (episode_steps (_writer self)) (n_step self)); [done|lia]. }
  set (self1 := add_before_write buffer_step step self) in *.
  assert (_first_idx self1 = _first_idx self + 1) as Hf1 by by rewrite Hbefore.
  assert (_last_idx self1 = _last_idx self + 1) as Hl1 by by rewrite Hbefore.
  assert (n_step self1 = n_step self) as Hn1 by by rewrite Hbefore.
  assert (windows self1 = windows self) as Hw1 by by rewrite Hbefore.
  assert (episode_steps (_writer self1) = episode_steps (_writer self) + 1) as He1
    by by rewrite Hbefore.
  clearbody self1.
  destruct (write_frame window_transition append_derived self1)
    as (Hf & Hl & (Hs1 & _) & Hw).
  rewrite Hf, Hl, Hs1, Hf1, Hl1, Hn1.
  split_and!; [lia|lia| |done|].
  - destruct Hw as [[e ->]|[_ ->]]; simpl; [lia|].
    destruct (Z.leb_spec (episode_steps (_writer self1)) (_last_idx self1)); lia.
  - unfold window_sizes in *.
    destruct Hw as [[e ->]|[-> _]]; simpl; rewrite Hw1; [done|].
    rewrite fmap_app. apply Forall_app. split; [done|].
    repeat constructor. simpl. lia.
Qed.

(** X11.  The constructor accepts an [n_step] that is not positive, and
    then the adder never has a window: between the calls of [add] and
    [reset], whether they returned or raised, [first_idx] equals
    [last_idx], and every transition that was formed is one of an empty
    window. *)
Theorem nonpositive_n_step_leaves_no_window client n disc pf cfg mif self0 self :
  __init__ empty_history default_priority_fns client n disc pf cfg mif = inr self0 →
  n ≤ 0 →
  reachable window_transition append_derived buffer_step empty_history self0 self →
  _first_idx self = _last_idx self ∧ _n_step self = 0 ∧
  Forall (λ size, size = 0) (window_sizes self).
Proof.
  intros [= <-] Hn Hreach.
  assert (without_window self) as (_ & Hf & _ & _ & Hs).
  { induction Hreach as [|self step _ IH|self _ IH].
    - simpl. split_and!; [done..|]. constructor.
    - by apply add_without_window.
    - destruct IH as (_ & _ & _ & ? & ?). simpl. by split_and!. }
  unfold _n_step. split_and!; [done|lia|done].
Qed.

(** X12.  [_write_last] always ends: its loop makes at most
    [last_idx - first_idx - 1] calls of [_write].  The windows it forms
    all end at [last_idx] and start at [first_idx + 1], [first_idx + 2],
    ...; when no call raises it forms all of them, up to the window of
    one step, and leaves [first_idx] at [last_idx] (or one beyond
    [first_idx], when the window was empty already). *)
Theorem write_last_forms_the_tail_windows self :
  ∃ r self' (k : nat),
    _write_last window_transition append_derived self = Some (r, self') ∧
    _last_idx self' = _last_idx self ∧ same_setup self self' ∧
    (k ≤ Z.to_nat (_last_idx self - _first_idx self - 1))%nat ∧
    windows self' =
      windows self ++
      ((λ j : nat, (_first_idx self + 1 + Z.of_nat j, _last_idx self)) <$> seq 0 k) ∧
    (r = inr tt →
       k = Z.to_nat (_last_idx self - _first_idx self - 1) ∧
       _first_idx self' = Z.max (_first_idx self + 1) (_last_idx self)).
Proof.
  unfold _write_last.
  destruct (write_last_loop_windows window_transition append_derived
              (Z.to_nat (_last_idx (set_first_idx (_first_idx self + 1) self) -
                         _first_idx (set_first_idx (_first_idx self + 1) self)))
              (set_first_idx (_first_idx self + 1) self))
    as (r & self' & k & Heq & Hl & Hsetup & Hk & Hws & Hr); [done|].
  simpl in *. exists r, self', k.
  split_and!; [done|done|done| |done|].
  - replace (_last_idx self - _first_idx self - 1)
      with (_last_idx self - (_first_idx self + 1)) by lia. done.
  - intros Hr'. destruct (Hr Hr') as [-> ->]. split; [f_equal; lia|done].
Qed.

(** X13.  An episode that is shorter than [n_step].  Its recording always
    ends, and the windows it has formed are the first of the list
    [1, ..., T], then [T-1, ..., 1], the second group being formed by
    [_write_last].  When no write of the episode raises, it forms the
    whole list: no window ever has [n_step] steps, and [2T - 1]
    transitions are formed. *)
Theorem short_episode_window_sizes (N T : nat) client disc pf cfg mif steps self0 :
  (T < N)%nat → length steps = T →
  __init__ empty_history default_priority_fns client (Z.of_nat N) disc pf cfg mif
    = inr self0 →
  ∃ r self',
    record_episode window_transition append_derived buffer_step steps self0
      = Some (r, self') ∧
    window_sizes self' `prefix_of`
      (Z.of_nat <$> seq 1 T) ++ (Z.of_nat <$> reverse (seq 1 (T - 1))) ∧
    (r = inr tt →
       window_sizes self' =
         (Z.of_nat <$> seq 1 T) ++ (Z.of_nat <$> reverse (seq 1 (T - 1))) ∧
       Forall (λ size, size < Z.of_nat N) (window_sizes self') ∧
       length (window_sizes self') = (2 * T - 1)%nat).
Proof.
  intros HT Hlen Hinit.
  destruct (init_in_episode empty_history default_priority_fns
              client (Z.of_nat N) disc pf cfg mif self0 Hinit ltac:(lia))
    as (Hin0 & Hn0 & Hw0 & _ & Hl0).
  destruct (episode_windows window_transition append_derived buffer_step
              N self0 steps Hn0 Hin0 Hl0)
    as (r & self' & formed & Hep & _ & Hsz & Hpre & Hr).
  assert (window_sizes self0 = []) as Hsz0 by (unfold window_sizes; by rewrite Hw0).
  rewrite Hsz0 in Hsz. cbn [app] in Hsz.
  assert (episode_sizes N (length steps) =
          (Z.of_nat <$> seq 1 T) ++ (Z.of_nat <$> reverse (seq 1 (T - 1)))) as Heq.
  { unfold episode_sizes. rewrite Hlen.
    replace (T `min` N - 1)%nat with (T - 1)%nat by lia. f_equal.
    apply (fmap_min_below N). lia. }
  rewrite Heq in Hpre, Hr.
  exists r, self'. rewrite Hsz. split_and!; [done|done|].
  intros Hr'. rewrite (Hr Hr'). split_and!; [done| |].
  - apply Forall_app. split; apply Forall_fmap, Forall_forall; intros j Hj; simpl.
    + apply elem_of_seq in Hj. lia.
    + apply elem_of_reverse, elem_of_seq in Hj. lia.
  - rewrite length_app, !length_fmap, length_reverse, !length_seq. lia.
Qed.

(** X14.  [reset] starts the windows afresh.  After an episode, however
    it ended, and a [reset], the recording of a second episode ends, and
    the windows it adds are the first of the windows of an episode of its
    length, with small windows again at its start; when no write of the
    second episode raises, they are all of them.  When no write raises in
    either episode, the windows are those of the first episode followed by
    those of the second, each episode as if it were the only one. *)
Theorem successive_episodes_window_sizes (N : nat) client disc pf cfg mif
    (steps1 steps2 : list Step) self0 :
  (1 ≤ N)%nat →
  __init__ empty_history default_priority_fns client (Z.of_nat N) disc pf cfg mif
    = inr self0 →
  ∃ r1 self1 r2 self2 formed,
    record_episode window_transition append_derived buffer_step steps1 self0
      = Some (r1, self1) ∧
    record_episode window_transition append_derived buffer_step steps2
      (reset empty_history self1).2 = Some (r2, self2) ∧
    window_sizes self2 = window_sizes self1 ++ formed ∧
    formed `prefix_of` episode_sizes N (length steps2) ∧
    (r2 = inr tt → formed = episode_sizes N (length steps2)) ∧
    (r1 = inr tt → r2 = inr tt →
       window_sizes self2 =
         episode_sizes N (length steps1) ++ episode_sizes N (length steps2)).
Proof.
  intros HN Hinit.
  destruct (init_in_episode empty_history default_priority_fns
              client (Z.of_nat N) disc pf cfg mif self0 Hinit ltac:(lia))
    as (Hin0 & Hn0 & Hw0 & _ & Hl0).
  destruct (episode_windows window_transition append_derived buffer_step
              N self0 steps1 Hn0 Hin0 Hl0)
    as (r1 & self1 & formed1 & Hep1 & Hs1 & Hsz1 & _ & Hr1).
  assert (window_sizes self0 = []) as Hsz0 by (unfold window_sizes; by rewrite Hw0).
  rewrite Hsz0 in Hsz1. cbn [app] in Hsz1.
  assert (n_step self1 = Z.of_nat N) as Hn1 by (destruct Hs1 as [-> _]; done).
  destruct (reset_in_episode empty_history self1) as (Hin1 & Hs1' & _ & Hl1); [lia|].
  destruct (episode_windows window_transition append_derived buffer_step
              N (do_reset self1).2 steps2)
    as (r2 & self2 & formed & Hep2 & _ & Hsz2 & Hpre2 & Hr2); [|done|done|].
  { destruct Hs1' as [-> _]. done. }
  change (window_sizes (do_reset self1).2) with (window_sizes self1) in Hsz2.
  exists r1, self1, r2, self2, formed. split_and!; [done..|].
  intros Hr1' Hr2'. by rewrite Hsz2, Hsz1, (Hr1 Hr1'), (Hr2 Hr2').
Qed.

End PointerEdges.

(** ** The learner: what it puts on its queue, and how it ends otherwise *)

Section LearnerEdges.
Context {LearnerState Params Traj LastObs Dones Time EpisodeMetrics TrainMetrics : Type}.
Variable learn :
  LearnerState → Traj → LastObs → Dones → LearnerState * EpisodeMetrics * TrainMetrics.
Variable unreplicate_params : LearnerState → Params.

Local Abbreviation En := (@Entry Traj LastObs Dones Time).
Local Abbreviation Ev :=
  (@Event LearnerState Params Traj LastObs Dones Time EpisodeMetrics TrainMetrics).
Local Abbreviation Wo :=
  (@World LearnerState Params Traj LastObs Dones Time EpisodeMetrics TrainMetrics).
Local Abbreviation Lo :=
  (@Locals LearnerState Time EpisodeMetrics TrainMetrics).
Local Abbreviation step := (update_step learn unreplicate_params).
Local Abbreviation inner := (update_loop learn unreplicate_params).
Local Abbreviation eval_step := (evaluation_step learn unreplicate_params).
Local Abbreviation outer := (evaluation_loop learn unreplicate_params).
Local Abbreviation learns evs := (length (filter (λ ev : Ev, is_learn ev) evs)).

Implicit Types (w : Wo) (l : Lo) (evs : list Ev) (entry : En).

Lemma update_step_done l w entry queued :
  pipeline w = entry :: queued →
  ∃ w',
    step l w =
      (Done (mkLocals (learn_all learn (learner_state l) [entry])
               (metrics l ++ learn_metrics learn (learner_state l) [entry])
               (rollout_times l ++ [rollout_time entry])), w') ∧
    pipeline w' = queued ∧ learner_queue w' = learner_queue w ∧
    learns (events w') = S (learns (events w)).
Proof.
  intros Hp.
  destruct (update_step_spec learn unreplicate_params l w entry queued Hp)
    as (l' & Heq & _).
  assert ((step l w).1 =
          Done (mkLocals (learn_all learn (learner_state l) [entry])
                  (metrics l ++ learn_metrics learn (learner_state l) [entry])
                  (rollout_times l ++ [rollout_time entry]))) as Hl.
  { unfold update_step. rewrite Hp. simpl.
    by destruct (learn (learner_state l) (traj_batch entry) (last_obs entry)
                   (last_dones entry)) as [[st' em] tm]. }
  rewrite Heq in Hl |- *. simpl in Hl. rewrite Hl.
  eexists. split; [reflexivity|]. cbn [pipeline learner_queue events].
  split; [done|]. split; [done|].
  rewrite !learns_app, learns_publication. simpl. lia.
Qed.

(** The inner loop, on a pipeline that holds enough entries and on one
    that does not. *)
Lemma update_loop_cases n l w :
  learner_queue (inner n l w).2 = learner_queue w ∧
  pipeline (inner n l w).2 = drop n (pipeline w) ∧
  learns (events (inner n l w).2) = (learns (events w) + n `min` length (pipeline w))%nat ∧
  (inner n l w).1 =
    if decide (n ≤ length (pipeline w))%nat
    then Done (mkLocals (learn_all learn (learner_state l) (take n (pipeline w)))
                 (metrics l ++ learn_metrics learn (learner_state l) (take n (pipeline w)))
                 (rollout_times l ++ (rollout_time <$> take n (pipeline w))))
    else Blocked.
Proof.
  revert l w. induction n as [|n IH]; intros l w; cbn [update_loop].
  - rewrite drop_0, take_0, !app_nil_r. simpl. destruct l.
    split_and!; [done|done|lia|done].
  - destruct (pipeline w) as [|entry queued] eqn:Hp.
    + unfold update_step. rewrite Hp. simpl. rewrite Hp. split_and!; [done|done|lia|done].
    + destruct (update_step_done l w entry queued Hp)
        as (w' & -> & Hp' & Hq & Hlearns).
      destruct (IH (mkLocals (learn_all learn (learner_state l) [entry])
                      (metrics l ++ learn_metrics learn (learner_state l) [entry])
                      (rollout_times l ++ [rollout_time entry])) w')
        as (H1 & H2 & H3 & H4).
      rewrite H1, H2, H3, H4, Hp', Hq, Hlearns. cbn [drop take length].
      split_and!; [done|done|lia|].
      destruct (decide (n ≤ length queued)%nat), (decide (S n ≤ S (length queued))%nat);
        try lia; [|done].
      cbn [learner_state metrics rollout_times learn_all learn_metrics fmap list_fmap].
      destruct (learn (learner_state l) (traj_batch entry) (last_obs entry)
                  (last_dones entry)) as [[st' em] tm].
      cbn [fst]. by rewrite <-!(assoc_L (++)).
Qed.

Lemma learn_metrics_length st (entries : list En) :
  length (learn_metrics learn st entries) = length entries.
Proof.
  revert st. induction entries as [|entry entries IH]; intros st; simpl; [done|].
  destruct (learn st (traj_batch entry) (last_obs entry) (last_dones entry))
    as [[st' em] tm]. simpl. by rewrite IH.
Qed.

(** One evaluation step of at least one update. *)
Lemma evaluation_step_cases config st w :
  (1 ≤ Z.to_nat (num_updates_per_eval config))%nat →
  pipeline (eval_step config st w).2 =
    drop (Z.to_nat (num_updates_per_eval config)) (pipeline w) ∧
  learns (events (eval_step config st w).2) =
    (learns (events w) +
     Z.to_nat (num_updates_per_eval config) `min` length (pipeline w))%nat ∧
  if decide (Z.to_nat (num_updates_per_eval config) ≤ length (pipeline w))%nat
  then
    (eval_step config st w).1 =
      Done (learn_all learn st
              (take (Z.to_nat (num_updates_per_eval config)) (pipeline w))) ∧
    learner_queue (eval_step config st w).2 =
      learner_queue w ++
      [eval_output learn st (take (Z.to_nat (num_updates_per_eval config)) (pipeline w))]
  else
    (eval_step config st w).1 = Blocked ∧
    learner_queue (eval_step config st w).2 = learner_queue w.
Proof.
  intros Hu. unfold evaluation_step.
  destruct (update_loop_cases (Z.to_nat (num_updates_per_eval config))
              (mkLocals st [] []) w) as (Hq & Hp & Hl & Hr).
  destruct (inner (Z.to_nat (num_updates_per_eval config)) (mkLocals st [] []) w)
    as [r w'] eqn:Hinner.
  simpl in Hq, Hp, Hl, Hr. subst r.
  destruct (decide (Z.to_nat (num_updates_per_eval config) ≤ length (pipeline w))%nat)
    as [Hle|Hgt]; [|done].
  cbn [metrics learner_state rollout_times].
  destruct (learn_metrics learn st
              (take (Z.to_nat (num_updates_per_eval config)) (pipeline w)))
    as [|m ms] eqn:Hm.
  { apply (f_equal length) in Hm. rewrite learn_metrics_length, length_take in Hm.
    simpl in Hm. lia. }
  rewrite <-Hm. cbn [fst snd pipeline events learner_queue].
  rewrite learns_app. simpl. unfold eval_output. rewrite Hq, Hp, Hl.
  split_and!; [done|lia|done|done].
Qed.

(** The outer loop, with at least one update in each evaluation step. *)
Lemma evaluation_loop_cases n config st w :
  (1 ≤ Z.to_nat (num_updates_per_eval config))%nat →
  pipeline (outer n config st w).2 =
    drop (n * Z.to_nat (num_updates_per_eval config)) (pipeline w) ∧
  learns (events (outer n config st w).2) =
    (learns (events w) +
     (n * Z.to_nat (num_updates_per_eval config)) `min` length (pipeline w))%nat ∧
  if decide (n * Z.to_nat (num_updates_per_eval config) ≤ length (pipeline w))%nat
  then
    (outer n config st w).1 =
      Done (learn_all learn st
              (take (n * Z.to_nat (num_updates_per_eval config)) (pipeline w))) ∧
    learner_queue (outer n config st w).2 =
      learner_queue w ++
      eval_outputs learn n (Z.to_nat (num_updates_per_eval config)) st (pipeline w)
  else
    (outer n config st w).1 = Blocked ∧
    length (learner_queue (outer n config st w).2) =
      (length (learner_queue w) +
       length (pipeline w) `div` Z.to_nat (num_updates_per_eval config))%nat.
Proof.
  intros Hu. set (u := Z.to_nat (num_updates_per_eval config)) in *.
  revert st w. induction n as [|n IH]; intros st w; cbn [evaluation_loop].
  - rewrite drop_0, take_0, app_nil_r. simpl. split_and!; [done|lia|done|done].
  - destruct (evaluation_step_cases config st w Hu) as (Hp & Hl & Hcase).
    fold u in Hp, Hl, Hcase.
    destruct (eval_step config st w) as [r w'] eqn:Hstep. simpl in Hp, Hl, Hcase.
    destruct (decide (u ≤ length (pipeline w))%nat) as [Hle|Hgt].
    + destruct Hcase as [-> Hq].
      destruct (IH (learn_all learn st (take u (pipeline w))) w') as (Hp' & Hl' & Hcase').
      rewrite Hp', Hl', Hp, Hl, drop_drop, length_drop.
      replace (u + n * u)%nat with (S n * u)%nat by lia.
      split_and!; [done|lia|].
      rewrite Hp, length_drop, Hq in Hcase'.
      destruct (decide (n * u ≤ length (pipeline w) - u)%nat),
               (decide (S n * u ≤ length (pipeline w))%nat); try lia.
      * destruct Hcase' as [-> ->]. split.
        -- f_equal. rewrite <-learn_all_app. f_equal.
           rewrite <-(take_drop u (take (S n * u) (pipeline w))).
           rewrite take_take, skipn_firstn_comm.
           f_equal; f_equal; lia.
        -- by rewrite <-(assoc_L (++)).
      * destruct Hcase' as [-> ->]. split; [done|].
        rewrite length_app. simpl.
        replace (length (pipeline w)) with ((length (pipeline w) - u) + 1 * u)%nat
          at 2 by lia.
        rewrite Nat.div_add by lia. lia.
    + destruct Hcase as [-> Hq]. simpl.
      rewrite Hp, Hl, Hq.
      rewrite !drop_ge by lia. rewrite Nat.div_small by lia.
      destruct (decide _); [lia|].
      split_and!; [done|lia|done|lia].
Qed.

Lemma eval_outputs_shape (n u : nat) st (entries : list En) :
  (n * u ≤ length entries)%nat →
  length (eval_outputs learn n u st entries) = n ∧
  Forall (λ output, length (out_metrics output) = u ∧
                    length (out_rollout_times output) = u)
    (eval_outputs learn n u st entries).
Proof.
  revert st entries. induction n as [|n IH]; intros st entries Hlen; simpl.
  { split; [done|constructor]. }
  destruct (IH (learn_all learn st (take u entries)) (drop u entries)) as [Hn Hall].
  { rewrite length_drop. lia. }
  split; [by rewrite Hn|]. constructor; [|done]. simpl.
  rewrite learn_metrics_length, length_fmap, length_take. lia.
Qed.

(** X15.  With at least one update in an evaluation step and a pipeline
    that holds fewer entries than the learner asks for, the learner makes
    an update on every entry there is, puts the outputs of the evaluation
    steps it has completed, and then waits in [pipeline.get]: it never
    puts the output of an evaluation step that lacks an update. *)
Theorem learner_waits_on_short_pipeline st config w :
  (1 ≤ Z.to_nat (num_updates_per_eval config))%nat →
  (length (pipeline w) <
     Z.to_nat (num_evaluation config) * Z.to_nat (num_updates_per_eval config))%nat →
  let result := learner learn unreplicate_params st config w in
  result.1 = Blocked ∧
  pipeline result.2 = [] ∧
  length (filter (λ ev : Ev, is_learn ev) (events result.2)) =
    (length (filter (λ ev : Ev, is_learn ev) (events w)) + length (pipeline w))%nat ∧
  length (learner_queue result.2) =
    (length (learner_queue w) +
     length (pipeline w) `div` Z.to_nat (num_updates_per_eval config))%nat.
Proof.
  intros Hu Hlen result. subst result. unfold learner.
  destruct (evaluation_loop_cases (Z.to_nat (num_evaluation config)) config st w Hu)
    as (Hp & Hl & Hcase).
  destruct (decide _) as [?|_] in Hcase; [lia|]. destruct Hcase as [Hr Hq].
  rewrite Hp, Hl, Hr, Hq, drop_ge by lia. split_and!; [done|done|lia|done].
Qed.

(** X16.  A number of updates per evaluation that is not positive makes
    the first evaluation step raise a [TypeError], where the metrics of
    no update are stacked, before anything is taken from the pipeline,
    published to a parameter source or put on the queue. *)
Theorem learner_raises_without_updates st config w :
  num_updates_per_eval config ≤ 0 → 1 ≤ num_evaluation config →
  learner learn unreplicate_params st config w = (Raised TypeError, w).
Proof.
  intros Hu He. unfold learner.
  destruct (Z.to_nat (num_evaluation config)) as [|n] eqn:Hn; [lia|].
  cbn [evaluation_loop]. unfold evaluation_step.
  replace (Z.to_nat (num_updates_per_eval config)) with 0%nat by lia.
  done.
Qed.

(** X17.  On a pipeline that holds the entries of all its updates, the
    learner takes them in the order of the pipeline, [num_updates_per_eval]
    for each evaluation step, and puts one output per evaluation step on
    its queue, in their order: the output of a step holds the metrics and
    the rollout times of its own updates, as many as there are updates in
    a step, and the learner state after them. *)
Theorem learner_puts_one_output_per_evaluation st config w :
  (1 ≤ Z.to_nat (num_updates_per_eval config))%nat →
  (Z.to_nat (num_evaluation config) * Z.to_nat (num_updates_per_eval config)
     ≤ length (pipeline w))%nat →
  let result := learner learn unreplicate_params st config w in
  let outputs :=
    eval_outputs learn (Z.to_nat (num_evaluation config))
      (Z.to_nat (num_updates_per_eval config)) st (pipeline w) in
  learner_queue result.2 = learner_queue w ++ outputs ∧
  pipeline result.2 =
    drop (Z.to_nat (num_evaluation config) * Z.to_nat (num_updates_per_eval config))
      (pipeline w) ∧
  length outputs = Z.to_nat (num_evaluation config) ∧
  Forall (λ output,
            length (out_metrics output) = Z.to_nat (num_updates_per_eval config) ∧
            length (out_rollout_times output) =
              Z.to_nat (num_updates_per_eval config)) outputs.
Proof.
  intros Hu Hlen result outputs. subst result outputs. unfold learner.
  destruct (evaluation_loop_cases (Z.to_nat (num_evaluation config)) config st w Hu)
    as (Hp & _ & Hcase).
  destruct (decide _) as [_|?] in Hcase; [|lia]. destruct Hcase as [_ Hq].
  split; [done|]. split; [done|].
  by apply eval_outputs_shape.
Qed.

(** X18.  The number of updates per evaluation that [run_experiment]
    computes, for at least one evaluation, is at least one, so that the
    learner run under it returns once the pipeline has held the entries
    of its updates; the updates it makes are [num_evaluation *
    (num_updates // num_evaluation)], which is at most [num_updates] and
    falls short of it by less than [num_evaluation]. *)
Theorem experiment_updates_per_eval st (n_updates n_evaluation u : Z) w :
  updates_per_eval n_updates n_evaluation = inr u →
  1 ≤ n_evaluation →
  (Z.to_nat (n_evaluation * u) ≤ length (pipeline w))%nat →
  let result :=
    learner learn unreplicate_params st (mkConfig n_evaluation u) w in
  1 ≤ u ∧
  n_evaluation * u ≤ n_updates < n_evaluation * (u + 1) ∧
  (∃ st', result.1 = Done st') ∧
  length (filter (λ ev : Ev, is_learn ev) (events result.2)) =
    (length (filter (λ ev : Ev, is_learn ev) (events w)) +
     Z.to_nat (n_evaluation * u))%nat.
Proof.
  intros Hu He Hlen result. subst result. unfold updates_per_eval in Hu.
  destruct (Z.gtb_spec n_updates n_evaluation) as [Hgt|]; [|done].
  destruct (Z.eqb_spec n_evaluation 0) as [|_]; [lia|].
  injection Hu as <-.
  pose proof (Z.mul_div_le n_updates n_evaluation ltac:(lia)) as Hlow.
  pose proof (Z.mul_succ_div_gt n_updates n_evaluation ltac:(lia)) as Hhigh.
  assert (1 ≤ n_updates / n_evaluation) as Hone.
  { apply Z.div_le_lower_bound; lia. }
  split; [done|]. split; [lia|]. unfold learner.
  destruct (evaluation_loop_cases (Z.to_nat n_evaluation)
              (mkConfig n_evaluation (n_updates / n_evaluation)) st w)
    as (_ & Hl & Hcase); [simpl; lia|].
  cbn [num_evaluation num_updates_per_eval] in *.
  assert (Z.to_nat n_evaluation * Z.to_nat (n_updates / n_evaluation) =
          Z.to_nat (n_evaluation * (n_updates / n_evaluation)))%nat as Hmul
    by (rewrite Z2Nat.inj_mul; lia).
  rewrite Hmul in Hl, Hcase.
  destruct (decide _) as [_|?] in Hcase; [|lia]. destruct Hcase as [-> _].
  split; [by eexists|]. rewrite Hl. lia.
Qed.

End LearnerEdges.

(** ** The sanity checks of the configuration *)

Lemma sanity_check_returns (num_envs learners n_threads num_minibatches : Z) :
  sanity_check num_envs learners n_threads num_minibatches = inr tt ↔
  learners ≠ 0 ∧ num_envs mod learners = 0 ∧ num_minibatches ≠ 0 ∧
  (Z.quot num_envs learners * n_threads) mod num_minibatches = 0.
Proof.
  unfold sanity_check, py_mod.
  destruct (Z.eqb_spec learners 0) as [->|Hl]; [naive_solver|].
  destruct (Z.eqb_spec (num_envs mod learners) 0) as [Hr|Hr]; [|naive_solver].
  destruct (Z.eqb_spec num_minibatches 0) as [->|Hm]; [naive_solver|].
  destruct (Z.eqb_spec ((Z.quot num_envs learners * n_threads) mod num_minibatches) 0);
    naive_solver.
Qed.

(** X19.  What the sanity checks of [run_experiment] say about the
    minibatches.  With one thread per executor, a configuration that passes
    them has a batch whose size [num_minibatches] divides, so that the
    reshape into minibatches is even.  With more threads they do not: every
    configuration in which the learner devices divide the environments and
    [num_minibatches] divides the number of threads passes them, whatever
    the batch size is. *)
Theorem sanity_check_and_minibatches
    (num_envs learners n_threads num_minibatches rollout_length : Z) :
  0 < learners →
  (sanity_check num_envs learners n_threads num_minibatches = inr tt →
   n_threads = 1 →
   ∃ size, batch_size rollout_length num_envs learners = inr size ∧
           size mod num_minibatches = 0) ∧
  (num_envs mod learners = 0 → num_minibatches ≠ 0 →
   n_threads mod num_minibatches = 0 →
   sanity_check num_envs learners n_threads num_minibatches = inr tt).
Proof.
  intros Hl. split.
  - intros (_ & Hr & Hm & Hdiv)%sanity_check_returns ->.
    unfold batch_size. destruct (Z.eqb_spec learners 0); [lia|].
    eexists. split; [reflexivity|].
    apply Z.mod_divide in Hr; [|lia]. destruct Hr as [q ->].
    rewrite Z.quot_mul, Z.mul_1_r in Hdiv by lia. rewrite Z.div_mul by lia.
    apply Z.mod_divide; [done|]. apply Z.divide_mul_r. by apply Z.mod_divide.
  - intros Hr Hm Hdiv. apply sanity_check_returns. split_and!; [lia|done|done|].
    apply Z.mod_divide; [done|]. apply Z.divide_mul_r. by apply Z.mod_divide.
Qed.

(** ** Generalised advantage estimation *)

Section GaeFacts.
Context {R A L O I : Type}.
Context (rO rI : R) (radd rmul rsub : R → R → R) (ropp : R → R).
Hypothesis Rth : ring_theory rO rI radd rmul rsub ropp (@eq R).
Add Ring Rring_gae : Rth.

Local Notation "a ⊕ b" := (radd a b) (at level 50, left associativity).
Local Notation "a ⊗ b" := (rmul a b) (at level 40, left associativity).
Local Notation "a ⊖ b" := (rsub a b) (at level 50, left associativity).

Local Abbreviation Tr := (PPOTransition bool A R R L O I).
Local Abbreviation gae := (@_calculate_gae R A L O I rO rI radd rmul rsub).
Local Abbreviation delta := (@td_error R A L O I rO rI radd rmul rsub).
Local Abbreviation following := (@next_done_of R A L O I).
Local Abbreviation unit_of := (@flag R rO rI).

Implicit Types (tr : Tr) (traj pre post rest : list Tr) (gamma lam last_val : R).

(** The carry of the scan after a trajectory. *)
Lemma scan_carry gamma lam traj last_val last_done :
  (scan_reverse (_get_advantages rO rI radd rmul rsub gamma lam)
     (rO, last_val, last_done) traj).1 =
  (default rO (head (gae gamma lam traj last_val last_done).1),
   next_value_of traj last_val, following traj last_done).
Proof.
  unfold _calculate_gae. destruct traj as [|tr rest]; simpl; [done|].
  destruct (scan_reverse _ _ rest) as [[[g nv] nd] advs]. done.
Qed.

(** One step of the scan, from the end of the trajectory towards its
    start. *)
Lemma gae_cons gamma lam tr rest last_val last_done :
  gae gamma lam (tr :: rest) last_val last_done =
  let advantage :=
    delta gamma tr rest last_val last_done ⊕
    gamma ⊗ lam ⊗ (rI ⊖ unit_of (following rest last_done)) ⊗
    default rO (head (gae gamma lam rest last_val last_done).1) in
  (advantage :: (gae gamma lam rest last_val last_done).1,
   (advantage ⊕ ppo_value tr) :: (gae gamma lam rest last_val last_done).2).
Proof.
  pose proof (scan_carry gamma lam rest last_val last_done) as Hcarry.
  unfold _calculate_gae in *. simpl.
  destruct (scan_reverse _ _ rest) as [[[g nv] nd] advs]. simpl in *.
  by injection Hcarry as -> -> ->.
Qed.

Lemma gae_suffix gamma lam pre post last_val last_done :
  drop (length pre) (gae gamma lam (pre ++ post) last_val last_done).1 =
    (gae gamma lam post last_val last_done).1 ∧
  drop (length pre) (gae gamma lam (pre ++ post) last_val last_done).2 =
    (gae gamma lam post last_val last_done).2.
Proof.
  induction pre as [|tr pre IH]; [done|].
  cbn [app length]. rewrite gae_cons. cbn zeta. cbn [fst snd drop]. done.
Qed.

Lemma gae_lookup gamma lam pre tr post last_val last_done :
  (gae gamma lam (pre ++ tr :: post) last_val last_done).1 !! length pre =
    head (gae gamma lam (tr :: post) last_val last_done).1 ∧
  (gae gamma lam (pre ++ tr :: post) last_val last_done).2 !! length pre =
    head (gae gamma lam (tr :: post) last_val last_done).2.
Proof.
  destruct (gae_suffix gamma lam pre (tr :: post) last_val last_done) as [H1 H2].
  rewrite <-H1, <-H2, !head_lookup, !lookup_drop, !Nat.add_0_r. done.
Qed.

Lemma target_head gamma traj last_val last_done :
  default rO (head (gae gamma rI traj last_val last_done).1) ⊕
    next_value_of traj last_val =
  bootstrapped_return rO rI radd rmul rsub gamma traj last_val last_done.
Proof.
  induction traj as [|tr rest IH]; simpl.
  { unfold _calculate_gae. simpl. ring. }
  rewrite gae_cons. cbn zeta. cbn [fst head default]. rewrite <-IH.
  unfold td_error, id. ring.
Qed.

(** X20.  With [gae_lambda = 1] the target of a step is its discounted
    return: the rewards from the step on, each discounted once more than
    the one before, up to the end of the episode, or, when the episode
    goes on beyond the trajectory, up to its last step and then the value
    [last_val] of the observation that follows. *)
Theorem gae_targets_are_returns gamma pre tr post last_val last_done :
  (_calculate_gae rO rI radd rmul rsub gamma rI (pre ++ tr :: post)
     last_val last_done).2 !! length pre =
  Some (bootstrapped_return rO rI radd rmul rsub gamma (tr :: post)
          last_val last_done).
Proof.
  rewrite (proj2 (gae_lookup gamma rI pre tr post last_val last_done)).
  rewrite <-target_head. by rewrite gae_cons.
Qed.

(** X21.  With [gae_lambda = 0] the advantage of a step is its
    temporal-difference error, [reward + gamma * next_value * (1 -
    next_done) - value], where the value and the flag that follow the
    last step are [last_val] and [last_done]; its target is [reward +
    gamma * next_value * (1 - next_done)]. *)
Theorem gae_without_trace gamma pre tr post last_val last_done :
  let result :=
    _calculate_gae rO rI radd rmul rsub gamma rO (pre ++ tr :: post)
      last_val last_done in
  result.1 !! length pre =
    Some (td_error rO rI radd rmul rsub gamma tr post last_val last_done) ∧
  result.2 !! length pre =
    Some (ppo_reward tr ⊕
          gamma ⊗ next_value_of post last_val ⊗
          (rI ⊖ flag rO rI (next_done_of post last_done))).
Proof.
  intros result. subst result.
  destruct (gae_lookup gamma rO pre tr post last_val last_done) as [-> ->].
  rewrite gae_cons. cbn zeta. cbn [fst snd head]. unfold td_error.
  split; f_equal; ring.
Qed.

Lemma head_next pre tr post last_val last_done last_val' last_done' :
  next_value_of (pre ++ tr :: post) last_val = next_value_of (pre ++ [tr]) last_val' ∧
  following (pre ++ tr :: post) last_done = following (pre ++ [tr]) last_done'.
Proof. by destruct pre. Qed.

(** X22.  The end of an episode cuts the estimate: when the step after
    [tr] starts a new episode, or the trajectory ends with [tr] and
    [last_done] is set, the advantage of [tr] is [reward - value], and the
    advantages up to [tr] are those of the trajectory that ends with [tr]
    at the end of an episode: what comes after the end of the episode,
    and the value [last_val], have no part in them. *)
Theorem gae_stops_at_episode_end gamma lam pre tr post last_val last_done last_val' :
  next_done_of post last_done = true →
  let advantages :=
    (_calculate_gae rO rI radd rmul rsub gamma lam (pre ++ tr :: post)
       last_val last_done).1 in
  advantages !! length pre = Some (ppo_reward tr ⊖ ppo_value tr) ∧
  take (S (length pre)) advantages =
    (_calculate_gae rO rI radd rmul rsub gamma lam (pre ++ [tr]) last_val' true).1.
Proof.
  intros Hdone advantages. subst advantages. split.
  - rewrite (proj1 (gae_lookup gamma lam pre tr post last_val last_done)).
    rewrite gae_cons. cbn zeta. cbn [fst head]. unfold td_error.
    rewrite Hdone. f_equal. simpl. ring.
  - induction pre as [|x pre IH].
    + cbn [app length]. rewrite !gae_cons. cbn zeta. cbn [fst take].
      rewrite take_0. unfold td_error. rewrite Hdone. f_equal. simpl. ring.
    + cbn [app length]. rewrite !gae_cons. cbn zeta. cbn [fst take].
      rewrite IH. f_equal. unfold td_error.
      destruct (head_next pre tr post last_val last_done last_val' true)
        as [-> ->].
      do 3 f_equal. rewrite <-IH.
      by destruct (gae gamma lam (pre ++ tr :: post) last_val last_done).1.
Qed.

End GaeFacts.

(** ** The actor's rollout loop *)

Section RolloutFacts.
Context {Params ObsT Act LogProb Val Key Env Seeds Rew Info Last Dn Time : Type}.
Variable env_reset : Seeds → Env * @TimeStep ObsT Rew Info Last.
Variable env_step : Env → Act → Env * @TimeStep ObsT Rew Info Last.
Variable get_action_and_value : Params → ObsT → Key → Act * LogProb * Val * Key.
Variable agent_dones : Last → Dn.
Variable should_stop : nat → bool.
Variable params_at : nat → nat → Params.
Variable time_dict_at : nat → Time.

Local Abbreviation Stored := (PPOTransition Dn Act Val Rew LogProb ObsT Info).
Local Abbreviation En := (@Entry (list Stored) ObsT Dn Time).
Local Abbreviation St := (@ActorState ObsT Key Env Rew Info Last Dn).
Local Abbreviation steps :=
  (rollout_steps env_step get_action_and_value agent_dones params_at).
Local Abbreviation loop :=
  (rollout_loop env_step get_action_and_value agent_dones should_stop params_at
     time_dict_at).

Implicit Types (s : St) (e : En) (put new entries : list En).

(** The first step of a trajectory is the one on the observation and the
    flags that the actor holds. *)
Local Abbreviation starts_with traj obs dones :=
  (∃ transition : Stored, head traj = Some transition ∧
                 ppo_obs transition = obs ∧ ppo_done transition = dones).

Lemma rollout_steps_spec i j n s :
  length (steps i j n s).2 = n ∧
  ((0 < n)%nat →
     starts_with (steps i j n s).2 (ts_observation (a_timestep s)) (a_next_dones s)).
Proof.
  revert j s. induction n as [|n IH]; intros j s; simpl; [split; [done|lia]|].
  unfold rollout_step.
  destruct (get_action_and_value (params_at i j) (ts_observation (a_timestep s))
              (a_key s)) as [[[action log_prob] value] key].
  destruct (env_step (a_env s) action) as [env timestep].
  match goal with |- context [steps i (S j) n ?s1] =>
    destruct (IH (S j) s1) as [Hlen _];
    destruct (steps i (S j) n s1) as [s' traj]
  end.
  simpl in *. split; [by rewrite Hlen|]. intros _. eexists. by split_and!.
Qed.

Lemma rollout_loop_count (n : nat) :
  ∀ fuel rollout_length i s put,
    (∀ k, (k < n)%nat → should_stop (i + k) = false) →
    should_stop (i + n) = true → (n ≤ fuel)%nat →
    ∃ new,
      loop fuel rollout_length i s put = Some (put ++ new) ∧
      length new = n ∧
      Forall (λ e, length (traj_batch e) = Z.to_nat rollout_length) new ∧
      ∀ k e, new !! k = Some e → rollout_time e = time_dict_at (i + k).
Proof.
  induction n as [|n IH]; intros fuel rollout_length i s put Hrun Hstop Hfuel.
  - exists []. rewrite Nat.add_0_r in Hstop. rewrite app_nil_r.
    split_and!; [|done|constructor|by intros k e ?].
    destruct fuel; simpl; by rewrite Hstop.
  - destruct fuel as [|fuel]; [lia|]. simpl.
    assert (should_stop i = false) as ->
      by (rewrite <-(Nat.add_0_r i); apply Hrun; lia).
    destruct (rollout_steps_spec i 0 (Z.to_nat rollout_length) s) as [Hlen _].
    destruct (steps i 0 (Z.to_nat rollout_length) s) as [s' traj]. simpl in Hlen.
    match goal with |- context [loop fuel rollout_length (S i) s' (put ++ [?entry])] =>
      destruct (IH fuel rollout_length (S i) s' (put ++ [entry]))
        as (new & -> & Hn & Hall & Htimes); [| |lia|exists (entry :: new)]
    end.
    + intros k Hk. replace (S i + k)%nat with (i + S k)%nat by lia. apply Hrun. lia.
    + by replace (S i + n)%nat with (i + S n)%nat by lia.
    + rewrite <-(assoc_L (++)). simpl. split_and!; [done|by rewrite Hn| |].
      * by constructor.
      * intros [|k] e He; simpl in He.
        -- injection He as <-. simpl. by rewrite Nat.add_0_r.
        -- rewrite (Htimes k e He). f_equal. lia.
Qed.

(** X23.  The actor ends when [should_stop] answers true, which it asks
    only between two rollouts: when the answer is false [n] times and
    then true, [rollout] returns after it has put [n] entries, each with a
    whole trajectory of [rollout_length] steps and the times of its own
    rollout. *)
Theorem rollout_puts_whole_trajectories fuel key rollout_length seeds (n : nat) :
  (∀ i, (i < n)%nat → should_stop i = false) →
  should_stop n = true → (n ≤ fuel)%nat →
  ∃ entries,
    rollout env_reset env_step get_action_and_value agent_dones should_stop
      params_at time_dict_at fuel key rollout_length seeds = Some entries ∧
    length entries = n ∧
    Forall (λ e, length (traj_batch e) = Z.to_nat rollout_length) entries ∧
    ∀ i e, entries !! i = Some e → rollout_time e = time_dict_at i.
Proof.
  intros Hrun Hstop Hfuel. unfold rollout.
  destruct (env_reset seeds) as [env timestep].
  match goal with |- context [loop fuel rollout_length 0 ?s0 []] =>
    destruct (rollout_loop_count n fuel rollout_length 0 s0 [])
      as (new & Heq & Hn & Hall & Htimes); [done..|]
  end.
  exists new. split; [exact Heq|]. split; [done|]. split; [done|].
  intros i e He. by rewrite (Htimes i e He).
Qed.

Lemma rollout_loop_chain fuel rollout_length i s put entries :
  1 ≤ rollout_length →
  loop fuel rollout_length i s put = Some entries →
  ∃ new,
    entries = put ++ new ∧
    (∀ e, new !! 0%nat = Some e →
       starts_with (traj_batch e) (ts_observation (a_timestep s)) (a_next_dones s)) ∧
    (∀ k e e', new !! k = Some e → new !! S k = Some e' →
       starts_with (traj_batch e') (last_obs e) (last_dones e)).
Proof.
  intros Hlen. revert i s put.
  induction fuel as [|fuel IH]; intros i s put Hloop; simpl in Hloop.
  - destruct (should_stop i); [|done]. injection Hloop as <-.
    exists []. rewrite app_nil_r. split_and!; [done|by intros e ?|by intros k e e' ?].
  - destruct (should_stop i).
    { injection Hloop as <-. exists []. rewrite app_nil_r.
      split_and!; [done|by intros e ?|by intros k e e' ?]. }
    destruct (rollout_steps_spec i 0 (Z.to_nat rollout_length) s) as [_ Hfirst].
    destruct (steps i 0 (Z.to_nat rollout_length) s) as [s' traj]. simpl in Hfirst.
    destruct (IH _ _ _ Hloop) as (new & -> & Hhead & Hchain).
    eexists (_ :: new). rewrite <-(assoc_L (++)). split; [done|]. split.
    + intros e [= <-]. simpl. apply Hfirst. lia.
    + intros [|k] e e' He He'; simpl in He, He'.
      * injection He as <-. simpl. by apply Hhead.
      * by apply (Hchain k).
Qed.

(** X24.  The entries of one actor continue one another.  When
    [should_stop] answers false [n] times and then true, with at least one
    step in a rollout, [rollout] returns the [n] entries it has put, the
    first step of the first entry is the one on the observation and the
    flags of the reset, and the first step of every later entry is the one
    on the observation and the flags that the entry before it carries as
    its last observation and last flags: no step of the environments is
    lost between two entries. *)
Theorem rollout_entries_continue fuel key rollout_length seeds (n : nat) :
  (∀ i, (i < n)%nat → should_stop i = false) →
  should_stop n = true → (n ≤ fuel)%nat →
  1 ≤ rollout_length →
  ∃ entries,
    rollout env_reset env_step get_action_and_value agent_dones should_stop
      params_at time_dict_at fuel key rollout_length seeds = Some entries ∧
    length entries = n ∧
    (∀ e, entries !! 0%nat = Some e →
       ∃ transition,
         head (traj_batch e) = Some transition ∧
         ppo_obs transition = ts_observation (env_reset seeds).2 ∧
         ppo_done transition = agent_dones (ts_last (env_reset seeds).2)) ∧
    (∀ i e e', entries !! i = Some e → entries !! S i = Some e' →
       ∃ transition,
         head (traj_batch e') = Some transition ∧
         ppo_obs transition = last_obs e ∧ ppo_done transition = last_dones e).
Proof.
  intros Hrun Hstop Hfuel Hlen. unfold rollout.
  destruct (env_reset seeds) as [env timestep].
  match goal with |- context [loop fuel rollout_length 0 ?s0 []] =>
    destruct (rollout_loop_count n fuel rollout_length 0 s0 [])
      as (new & Heq & Hn & _); [done..|];
    destruct (rollout_loop_chain _ _ _ _ _ _ Hlen Heq)
      as (new' & Hnew & Hhead & Hchain)
  end.
  apply app_inv_head in Hnew as <-. exists new. done.
Qed.

End RolloutFacts.

(** ** The further properties on the instance *)

Lemma cumulative_quantities_of_one_step_witness :
  _compute_cumulative_quantities Z.add Z.mul 0 [[3; 4]] [[1; 0]] [2] =
  inr ([3], [1]).
Proof.
  apply (cumulative_quantities_of_one_step 0 Z.add Z.mul 0 [2] [[3; 4]] [[1; 0]]);
    [lia|repeat constructor|repeat constructor|reflexivity].
Defined.


Lemma cumulative_quantities_stop_at_terminal_witness :
  _compute_cumulative_quantities Z.add Z.mul (Z.of_nat 3) [[1; 1; 1]] [[1; 0; 1]] [2] =
  inr ([3], [0]).
Proof.
  apply (cumulative_quantities_stop_at_terminal 0 1 Z.add Z.mul Z.sub Z.opp Zth
           3 1 [2] [[1; 1; 1]] [[1; 0; 1]]);
    [lia|repeat constructor|repeat constructor|reflexivity|reflexivity].
Defined.

Lemma write_items_follow_table_order_witness :
  ∃ new_items : list (@Item Z Z Z Z Z),
    items (_writer (_write (demo_window demo_transition) demo_append
                      (demo_adder_with demo_two_tables (Some demo_config))).2) =
      [] ++ new_items ∧
    sublist ((λ it, (item_table it, item_priority it)) <$> new_items)
      (calculate_priorities demo_two_tables demo_transition).
Proof.
  exact (write_items_follow_table_order (demo_window demo_transition) demo_append
           (demo_adder_with demo_two_tables (Some demo_config)) demo_transition eq_refl).
Defined.

Lemma demo_keyed (keys : gmap string string) :
  dom (action (demo_payloads keys)) ⊆ dom keys →
  ∃ net_keys, extras (demo_payloads keys) !! "network_keys" = Some net_keys ∧
              dom (action (demo_payloads keys)) ⊆ dom net_keys.
Proof. intros Hkeys. exists keys. split; [reflexivity|done]. Qed.

Lemma demo_complete_inputs :
  complete_inputs (Some demo_config) demo_transition.
Proof.
  unfold complete_inputs.
  split_and!; try (apply (bool_decide_unpack _); vm_compute; exact I).
  intros c [= <-]. apply map_Forall_lookup. intros table req Hreq.
  unfold demo_config in Hreq.
  apply lookup_singleton_Some in Hreq as [_ <-]. vm_compute. lia.
Qed.

Lemma write_table_missing_from_config_witness :
  (_write (demo_window demo_transition) demo_append
     (demo_adder_with demo_two_tables (Some demo_config))).1 =
    inl (KeyError "trainer_1") ∧
  flushes (_writer (_write (demo_window demo_transition) demo_append
                      (demo_adder_with demo_two_tables (Some demo_config))).2) = [] ∧
  ∃ new_items : list (@Item Z Z Z Z Z),
    items (_writer (_write (demo_window demo_transition) demo_append
                      (demo_adder_with demo_two_tables (Some demo_config))).2) =
      [] ++ new_items ∧
    ∀ earlier, earlier ∈ [("trainer_0", λ _ : @Transition Z Z Z Z, 1)].*1 →
      matched (Some demo_config) demo_transition earlier →
      ∃ it, it ∈ new_items ∧ item_table it = earlier.
Proof.
  apply (write_table_missing_from_config (demo_window demo_transition) demo_append
           (demo_adder_with demo_two_tables (Some demo_config)) demo_transition
           demo_config [("trainer_0", λ _, 1)] "trainer_1" (λ _, 2) []
           eq_refl eq_refl eq_refl).
  - vm_compute. reflexivity.
  - repeat constructor. vm_compute. eauto.
  - apply demo_keyed. apply (bool_decide_unpack _). vm_compute. exact I.
  - exact demo_complete_inputs.
Defined.

Lemma write_required_longer_than_agents_witness :
  (_write (demo_window demo_transition) demo_append
     (demo_adder 2 (Some demo_long_config))).1 = inl IndexError ∧
  items (_writer (_write (demo_window demo_transition) demo_append
                    (demo_adder 2 (Some demo_long_config))).2) = [] ∧
  flushes (_writer (_write (demo_window demo_transition) demo_append
                      (demo_adder 2 (Some demo_long_config))).2) = [].
Proof.
  apply (write_required_longer_than_agents (demo_window demo_transition) demo_append
           (demo_adder 2 (Some demo_long_config)) demo_transition
           demo_long_config "trainer_0" (λ _, 1) []
           ["network_0"; "network_1"; "network_0"] eq_refl eq_refl eq_refl).
  - vm_compute. reflexivity.
  - vm_compute. lia.
  - intros net_key Hkey.
    exists {["agent_0" := "network_1"; "agent_1" := "network_0"]}.
    apply elem_of_cons in Hkey as [->|Hkey];
      [|apply elem_of_cons in Hkey as [->|Hkey];
        [|apply elem_of_cons in Hkey as [->|Hkey]; [|by apply elem_of_nil in Hkey]]].
    + exists "agent_1". split_and!; [reflexivity|vm_compute; eauto|vm_compute; reflexivity].
    + exists "agent_0". split_and!; [reflexivity|vm_compute; eauto|vm_compute; reflexivity].
    + exists "agent_1". split_and!; [reflexivity|vm_compute; eauto|vm_compute; reflexivity].
  - apply demo_keyed. apply (bool_decide_unpack _). vm_compute. exact I.
  - apply (bool_decide_unpack _). vm_compute. exact I.
  - apply (bool_decide_unpack _). vm_compute. exact I.
  - apply (bool_decide_unpack _). vm_compute. exact I.
  - apply (bool_decide_unpack _). vm_compute. exact I.
Defined.

Lemma write_missing_network_key_witness :
  (_write (demo_window demo_bare_transition) demo_append
     (demo_adder 2 (Some demo_config))).1 = inl (KeyError "network_keys") ∧
  items (_writer (_write (demo_window demo_bare_transition) demo_append
                    (demo_adder 2 (Some demo_config))).2) = [] ∧
  flushes (_writer (_write (demo_window demo_bare_transition) demo_append
                      (demo_adder 2 (Some demo_config))).2) = [].
Proof.
  apply (proj1 (write_missing_network_key (demo_window demo_bare_transition)
                  demo_append (demo_adder 2 (Some demo_config)) demo_bare_transition
                  eq_refl ltac:(discriminate))).
  vm_compute. reflexivity.
Defined.

Lemma write_without_tables_raises_witness :
  (_write (demo_window demo_transition) demo_append
     (demo_adder_with [] (Some demo_config))).1 =
    inl (ValidationError (dom (action demo_transition))) ∧
  items (_writer (_write (demo_window demo_transition) demo_append
                    (demo_adder_with [] (Some demo_config))).2) = [] ∧
  flushes (_writer (_write (demo_window demo_transition) demo_append
                      (demo_adder_with [] (Some demo_config))).2) = [] ++ [5].
Proof.
  exact (write_without_tables_raises (demo_window demo_transition) demo_append
           (demo_adder_with [] (Some demo_config)) demo_transition eq_refl eq_refl).
Defined.

Lemma window_after_adds_witness :
  _last_idx
    (foldl (λ self step,
              (add (demo_window demo_transition) demo_append demo_buffer step self).2)
       (demo_adder 2 (Some demo_config)) [tt; tt; tt]) = Z.of_nat 3 ∧
  _first_idx
    (foldl (λ self step,
              (add (demo_window demo_transition) demo_append demo_buffer step self).2)
       (demo_adder 2 (Some demo_config)) [tt; tt; tt]) = Z.max 0 (Z.of_nat 3 - 2) ∧
  _n_step
    (foldl (λ self step,
              (add (demo_window demo_transition) demo_append demo_buffer step self).2)
       (demo_adder 2 (Some demo_config)) [tt; tt; tt]) = Z.min (Z.of_nat 3) 2.
Proof.
  apply (window_after_adds (demo_window demo_transition) demo_append demo_buffer
           tt [] tt 2 tt (Some demo_priority_fns) (Some demo_config) 5
           (demo_adder 2 (Some demo_config)) [tt; tt; tt] eq_refl).
  lia.
Defined.

Lemma nonpositive_n_step_leaves_no_window_witness :
  _first_idx
    (add (demo_window demo_transition) demo_append demo_buffer tt
       (demo_adder 0 (Some demo_config))).2 =
  _last_idx
    (add (demo_window demo_transition) demo_append demo_buffer tt
       (demo_adder 0 (Some demo_config))).2 ∧
  _n_step
    (add (demo_window demo_transition) demo_append demo_buffer tt
       (demo_adder 0 (Some demo_config))).2 = 0 ∧
  Forall (λ size, size = 0)
    (window_sizes
       (add (demo_window demo_transition) demo_append demo_buffer tt
          (demo_adder 0 (Some demo_config))).2).
Proof.
  apply (nonpositive_n_step_leaves_no_window (demo_window demo_transition) demo_append
           demo_buffer tt [] tt 0 tt (Some demo_priority_fns) (Some demo_config) 5
           (demo_adder 0 (Some demo_config))
           (add (demo_window demo_transition) demo_append demo_buffer tt
              (demo_adder 0 (Some demo_config))).2
           eq_refl ltac:(lia)
           (reachable_add _ _ _ _ _ _ tt (reachable_init _ _ _ _ _))).
Defined.

Lemma short_episode_window_sizes_witness :
  ∃ self',
    record_episode (demo_counting_window demo_transition) demo_counting_append
      demo_counting_buffer [tt; tt] (demo_counting_adder 3 (Some demo_config)) =
      Some (inr tt, self') ∧
    window_sizes self' = [1; 2; 1] ∧
    Forall (λ size, size < 3) (window_sizes self') ∧
    length (window_sizes self') = (2 * 2 - 1)%nat.
Proof.
  destruct (short_episode_window_sizes (demo_counting_window demo_transition)
              demo_counting_append demo_counting_buffer 0%nat [] 3 2 tt tt
              (Some demo_priority_fns) (Some demo_config) 5 [tt; tt]
              (demo_counting_adder 3 (Some demo_config)))
    as (r & self' & Hep & _ & Hr); [lia|reflexivity|reflexivity|].
  pose proof (demo_counting_episode_returns 3 [tt; tt] (or_intror eq_refl)) as Hret.
  rewrite Hep in Hret. injection Hret as ->.
  destruct (Hr eq_refl) as (Hsizes & Hsmall & Hlen).
  exists self'. split_and!; [exact Hep|exact Hsizes|exact Hsmall|exact Hlen].
Defined.

(** On the writer that counts its steps, an episode of three steps, a
    [reset] and an episode of one step are recorded without a raise. *)
Lemma demo_counting_episodes_return r1 (self1 : @Adder unit Z Z Z Z Z unit nat) :
  record_episode (demo_counting_window demo_transition) demo_counting_append
    demo_counting_buffer [tt; tt; tt] (demo_counting_adder 2 (Some demo_config)) =
    Some (r1, self1) →
  r1 = inr tt ∧
  fst <$> record_episode (demo_counting_window demo_transition) demo_counting_append
            demo_counting_buffer [tt] (reset 0%nat self1).2 = Some (inr tt).
Proof.
  intros Hep. vm_compute in Hep. injection Hep as <- <-.
  split; vm_compute; reflexivity.
Qed.

Lemma successive_episodes_window_sizes_witness :
  ∃ self1 self2,
    record_episode (demo_counting_window demo_transition) demo_counting_append
      demo_counting_buffer [tt; tt; tt] (demo_counting_adder 2 (Some demo_config)) =
      Some (inr tt, self1) ∧
    record_episode (demo_counting_window demo_transition) demo_counting_append
      demo_counting_buffer [tt] (reset 0%nat self1).2 = Some (inr tt, self2) ∧
    window_sizes self2 =
      episode_sizes 2 (length [tt; tt; tt]) ++ episode_sizes 2 (length [tt]) ∧
    window_sizes self2 = [1; 2; 2; 1; 1].
Proof.
  destruct (successive_episodes_window_sizes (demo_counting_window demo_transition)
              demo_counting_append demo_counting_buffer 0%nat [] 2 tt tt
              (Some demo_priority_fns) (Some demo_config) 5 [tt; tt; tt] [tt]
              (demo_counting_adder 2 (Some demo_config)))
    as (r1 & self1 & r2 & self2 & formed & Hep1 & Hep2 & _ & _ & _ & Hall);
    [lia|reflexivity|].
  destruct (demo_counting_episodes_return r1 self1 Hep1) as [-> Hret].
  rewrite Hep2 in Hret. injection Hret as ->.
  exists self1, self2. split_and!; [exact Hep1|exact Hep2|by apply Hall|].
  rewrite (Hall eq_refl eq_refl). reflexivity.
Defined.

Lemma learner_waits_on_short_pipeline_witness :
  (learner demo_learn id 0 (mkConfig 2 2) demo_world).1 = Blocked ∧
  pipeline (learner demo_learn id 0 (mkConfig 2 2) demo_world).2 = [] ∧
  length (filter (λ ev, is_learn ev)
            (events (learner demo_learn id 0 (mkConfig 2 2) demo_world).2)) =
    (length (filter (λ ev, is_learn ev) (events demo_world)) +
     length (pipeline demo_world))%nat ∧
  length (learner_queue (learner demo_learn id 0 (mkConfig 2 2) demo_world).2) =
    (length (learner_queue demo_world) +
     length (pipeline demo_world) `div` Z.to_nat (num_updates_per_eval (mkConfig 2 2)))%nat.
Proof.
  apply (learner_waits_on_short_pipeline demo_learn id 0 (mkConfig 2 2) demo_world);
    simpl; lia.
Defined.

Lemma learner_raises_without_updates_witness :
  learner demo_learn id 0 (mkConfig 1 0) demo_world = (Raised TypeError, demo_world).
Proof.
  apply (learner_raises_without_updates demo_learn id 0 (mkConfig 1 0) demo_world);
    simpl; lia.
Defined.

Lemma learner_puts_one_output_per_evaluation_witness :
  learner_queue (learner demo_learn id 0 (mkConfig 2 1) demo_world).2 =
    learner_queue demo_world ++
    eval_outputs demo_learn (Z.to_nat (num_evaluation (mkConfig 2 1)))
      (Z.to_nat (num_updates_per_eval (mkConfig 2 1))) 0 (pipeline demo_world) ∧
  pipeline (learner demo_learn id 0 (mkConfig 2 1) demo_world).2 =
    drop (Z.to_nat (num_evaluation (mkConfig 2 1)) *
          Z.to_nat (num_updates_per_eval (mkConfig 2 1))) (pipeline demo_world) ∧
  length (eval_outputs demo_learn (Z.to_nat (num_evaluation (mkConfig 2 1)))
            (Z.to_nat (num_updates_per_eval (mkConfig 2 1))) 0 (pipeline demo_world)) =
    Z.to_nat (num_evaluation (mkConfig 2 1)) ∧
  Forall (λ output,
            length (out_metrics output) = Z.to_nat (num_updates_per_eval (mkConfig 2 1)) ∧
            length (out_rollout_times output) =
              Z.to_nat (num_updates_per_eval (mkConfig 2 1)))
    (eval_outputs demo_learn (Z.to_nat (num_evaluation (mkConfig 2 1)))
       (Z.to_nat (num_updates_per_eval (mkConfig 2 1))) 0 (pipeline demo_world)).
Proof.
  apply (learner_puts_one_output_per_evaluation demo_learn id 0 (mkConfig 2 1)
           demo_world); simpl; lia.
Defined.

Lemma experiment_updates_per_eval_witness :
  1 ≤ 1 ∧
  2 * 1 ≤ 3 < 2 * (1 + 1) ∧
  (∃ st', (learner demo_learn id 0 (mkConfig 2 1) demo_world).1 = Done st') ∧
  length (filter (λ ev, is_learn ev)
            (events (learner demo_learn id 0 (mkConfig 2 1) demo_world).2)) =
    (length (filter (λ ev, is_learn ev) (events demo_world)) + Z.to_nat (2 * 1))%nat.
Proof.
  apply (experiment_updates_per_eval demo_learn id 0 3 2 1 demo_world);
    [reflexivity|lia|simpl; lia].
Defined.

Lemma sanity_check_and_minibatches_witness :
  0 < 1 ∧
  sanity_check 3 1 2 2 = inr tt ∧
  batch_size 1 3 1 = inr 3 ∧ 3 mod 2 = 1.
Proof.
  split; [lia|]. split; [|split; reflexivity].
  apply (proj2 (sanity_check_and_minibatches 3 1 2 2 1 ltac:(lia)));
    [reflexivity|lia|reflexivity].
Defined.

Lemma gae_targets_are_returns_witness :
  (_calculate_gae 0 1 Z.add Z.mul Z.sub 2 1 demo_trajectory 10 false).2 !! 1%nat =
  Some (bootstrapped_return 0 1 Z.add Z.mul Z.sub 2
          [mkPPOTransition false tt 7 2 tt tt tt; mkPPOTransition true tt 9 4 tt tt tt]
          10 false).
Proof.
  exact (gae_targets_are_returns 0 1 Z.add Z.mul Z.sub Z.opp Zth 2
           [mkPPOTransition false tt 5 1 tt tt tt]
           (mkPPOTransition false tt 7 2 tt tt tt)
           [mkPPOTransition true tt 9 4 tt tt tt] 10 false).
Defined.

Lemma gae_without_trace_witness :
  (_calculate_gae 0 1 Z.add Z.mul Z.sub 2 0 demo_trajectory 10 false).1 !! 1%nat =
    Some (td_error 0 1 Z.add Z.mul Z.sub 2 (mkPPOTransition false tt 7 2 tt tt tt)
            [mkPPOTransition true tt 9 4 tt tt tt] 10 false) ∧
  (_calculate_gae 0 1 Z.add Z.mul Z.sub 2 0 demo_trajectory 10 false).2 !! 1%nat =
    Some (2 + 2 * next_value_of [mkPPOTransition true tt 9 4 tt tt tt] 10 *
              (1 - flag 0 1 (next_done_of [mkPPOTransition true tt 9 4 tt tt tt] false))).
Proof.
  exact (gae_without_trace 0 1 Z.add Z.mul Z.sub Z.opp Zth 2
           [mkPPOTransition false tt 5 1 tt tt tt]
           (mkPPOTransition false tt 7 2 tt tt tt)
           [mkPPOTransition true tt 9 4 tt tt tt] 10 false).
Defined.

Lemma gae_stops_at_episode_end_witness :
  (_calculate_gae 0 1 Z.add Z.mul Z.sub 2 3 demo_trajectory 10 false).1 !! 1%nat =
    Some (2 - 7) ∧
  take 2 (_calculate_gae 0 1 Z.add Z.mul Z.sub 2 3 demo_trajectory 10 false).1 =
    (_calculate_gae 0 1 Z.add Z.mul Z.sub 2 3
       [mkPPOTransition false tt 5 1 tt tt tt; mkPPOTransition false tt 7 2 tt tt tt]
       0 true).1.
Proof.
  exact (gae_stops_at_episode_end 0 1 Z.add Z.mul Z.sub Z.opp Zth 2 3
           [mkPPOTransition false tt 5 1 tt tt tt]
           (mkPPOTransition false tt 7 2 tt tt tt)
           [mkPPOTransition true tt 9 4 tt tt tt] 10 false 0 eq_refl).
Defined.

Lemma rollout_puts_whole_trajectories_witness :
  ∃ entries,
    demo_rollout = Some entries ∧
    length entries = 2%nat ∧
    Forall (λ e, length (traj_batch e) = Z.to_nat 3) entries ∧
    ∀ i e, entries !! i = Some e → rollout_time e = i.
Proof.
  apply (rollout_puts_whole_trajectories demo_env_reset demo_env_step demo_policy
           (λ last, last) demo_should_stop demo_params_at (λ i, i) 5 tt 3 tt 2);
    [|reflexivity|lia].
  intros [|[|i]] Hi; [reflexivity|reflexivity|lia].
Defined.

Lemma rollout_entries_continue_witness :
  ∃ entries,
    demo_rollout = Some entries ∧
    length entries = 2%nat ∧
    (∀ e, entries !! 0%nat = Some e →
       ∃ transition,
         head (traj_batch e) = Some transition ∧
         ppo_obs transition = ts_observation (demo_env_reset tt).2 ∧
         ppo_done transition = ts_last (demo_env_reset tt).2) ∧
    (∀ i e e', entries !! i = Some e → entries !! S i = Some e' →
       ∃ transition,
         head (traj_batch e') = Some transition ∧
         ppo_obs transition = last_obs e ∧ ppo_done transition = last_dones e).
Proof.
  apply (rollout_entries_continue demo_env_reset demo_env_step demo_policy
           (λ last, last) demo_should_stop demo_params_at (λ i, i) 5 tt 3 tt 2);
    [|reflexivity|lia|lia].
  intros [|[|i]] Hi; [reflexivity|reflexivity|lia].
Defined.
